(** * music-dagistan: the graph store, its algorithms and the query facade

    A shallow embedding of the TypeScript class [Graph] and of
    [addSongCreditsToGraph] (the version of [src/graph] with node types),
    and of the [Query] resolvers of [server/src/resolvers.ts].

    Conventions of the embedding
    - a JS [Map<string, V>] is an insertion-ordered association list
      ([jsmap V]): [set] on a present key keeps its position, on a new key
      appends; a JS [Set<string>] is an insertion-ordered list ([jsset]);
    - a JS object is an [jsmap] of [jsval];
    - a JS [number] is a value of an abstract type [num] with the operations
      the program uses on it (class [JsNumber]);
    - a thrown exception is the [Throw] result;
    - a [while] loop is [iterate] over its body with a step budget; every
      theorem about a loop shows that the budget the model hands out is
      enough, so the loop's result is a [Some]. *)

From Stdlib Require QArith.
From Stdlib Require Import DecimalString.
From stdpp Require Import base list sets strings.

(** ** Loops *)

(** One round of a loop body either goes on with a new state or returns. *)
Inductive flow (R S : Type) : Type :=
| Return (r : R)
| Continue (s : S).
Arguments Return {R S} r.
Arguments Continue {R S} s.

(** [iterate body n s] runs at most [n] rounds of [body] from [s]; [None]
    when the budget is used up before the loop returns. *)
Fixpoint iterate {R S : Type} (body : S → flow R S) (fuel : nat) (s : S) : option R :=
  match fuel with
  | O => None
  | S fuel' =>
      match body s with
      | Return r => Some r
      | Continue s' => iterate body fuel' s'
      end
  end.

(** A result that is [None] only when a loop ran out of its step budget. *)
Abbreviation budgeted A := (option A) (only parsing).

(** ** Results of calls that may throw *)

Inductive result (A : Type) : Type :=
| Ok (a : A)
| Throw (msg : string).
Arguments Ok {A} a.
Arguments Throw {A} msg.

Definition result_bind {A B : Type} (f : A → result B) (r : result A) : result B :=
  match r with
  | Ok a => f a
  | Throw msg => Throw msg
  end.

#[global] Instance result_ret : MRet result := @Ok.
#[global] Instance result_mbind : MBind result := @result_bind.

(** ** Insertion-ordered maps and sets *)

Abbreviation jsmap V := (list (string * V)) (only parsing).

Fixpoint jsmap_get {V : Type} (k : string) (m : jsmap V) : option V :=
  match m with
  | [] => None
  | (k', v) :: m' => if decide (k' = k) then Some v else jsmap_get k m'
  end.

Definition jsmap_has {V : Type} (k : string) (m : jsmap V) : bool :=
  match jsmap_get k m with
  | Some _ => true
  | None => false
  end.

Fixpoint jsmap_set {V : Type} (k : string) (v : V) (m : jsmap V) : jsmap V :=
  match m with
  | [] => [(k, v)]
  | (k', v') :: m' =>
      if decide (k' = k) then (k, v) :: m' else (k', v') :: jsmap_set k v m'
  end.

Definition jsmap_keys {V : Type} (m : jsmap V) : list string := m.*1.

Definition jsmap_size {V : Type} (m : jsmap V) : nat := length m.

Abbreviation jsset := (list string) (only parsing).

Definition jsset_has (x : string) (s : jsset) : bool := bool_decide (x ∈ s).

Definition jsset_add (x : string) (s : jsset) : jsset :=
  if jsset_has x s then s else s ++ [x].

(** ** Numbers and values *)

(** The operations on JS numbers that the program uses. The law is the one
    instance of arithmetic the development relies on: [0 * 1] is [0]. *)
Class JsNumber (num : Type) : Type := {
  ofNat : nat → num;
  one : num;
  mul : num → num → num;
  div : num → num → num;
  mul_0_one : mul (ofNat 0) one = ofNat 0
}.

(** Exact rationals, used to run the model on concrete inputs. *)
#[global] Instance Q_JsNumber : JsNumber QArith_base.Q := {|
  ofNat n := QArith_base.inject_Z (Z.of_nat n);
  one := QArith_base.inject_Z 1;
  mul := QArith_base.Qmult;
  div := QArith_base.Qdiv;
  mul_0_one := eq_refl
|}.

#[warnings="-register-all"] Inductive jsval (num : Type) : Type :=
| JUndefined
| JNull
| JBool (b : bool)
| JStr (s : string)
| JNum (n : num)
| JArr (l : list (jsval num))
| JObj (o : list (string * jsval num)).
Arguments JUndefined {num}.
Arguments JNull {num}.
Arguments JBool {num} b.
Arguments JStr {num} s.
Arguments JNum {num} n.
Arguments JArr {num} l.
Arguments JObj {num} o.

(** A JS object: its own properties in insertion order. *)
Abbreviation obj num := (jsmap (jsval num)) (only parsing).

(** Object spread [{ ...a, ...b }]. *)
Definition spread {num : Type} (a b : obj num) : obj num :=
  fold_left (λ o kv, jsmap_set kv.1 kv.2 o) b a.

(** [a ?? b] on property reads: a missing property reads as [undefined]. *)
Definition nullish {num : Type} (a b : option (jsval num)) : option (jsval num) :=
  match a with
  | None | Some JUndefined | Some JNull => b
  | Some v => Some v
  end.

Definition js_strings {num : Type} (l : list string) : jsval num := JArr (JStr <$> l).

(** ** The graph store (class [Graph]) *)

Section GraphStore.
Context {num : Type}.

Record Graph : Type := mkGraph {
  adjacency : jsmap (jsmap num);
  nodeData : jsmap (obj num)
}.

(** [new Graph()] *)
Definition newGraph : Graph := {| adjacency := []; nodeData := [] |}.

(** [node.id ?? node.name], then [if (!id) throw]. The record type declares
    both fields as strings, and the store has string keys only. The code
    goes on with a truthy value of another type (a number, [true], an
    array, an object) as the key; such a record is outside this model and
    is rejected here, so statements about [addNode] describe the code on
    records whose key is a string, null or missing. *)
Definition nodeKey (node : obj num) : result string :=
  match nullish (jsmap_get "id" node) (jsmap_get "name" node) with
  | Some (JStr s) =>
      if decide (s = "") then Throw "Node must have an id or name" else Ok s
  | None | Some JUndefined | Some JNull | Some (JBool false) =>
      Throw "Node must have an id or name"
  | Some _ => Throw "id is not a string"
  end.

Definition addNode (node : obj num) (g : Graph) : result Graph :=
  id ← nodeKey node;
  let adj :=
    if jsmap_has id (adjacency g) then adjacency g
    else jsmap_set id [] (adjacency g) in
  Ok {| adjacency := adj;
        nodeData := jsmap_set id (spread [("id", JStr id)] node) (nodeData g) |}.

(** [{ id: a, name: a }] *)
Definition stubNode (a : string) : obj num := [("id", JStr a); ("name", JStr a)].

(** [this.adjacency.get(a)!.set(b, weight)]: the inner map is updated in
    place, so [a] keeps its position in the outer map. *)
Definition adjSet (a b : string) (weight : num) (adj : jsmap (jsmap num))
  : result (jsmap (jsmap num)) :=
  match jsmap_get a adj with
  | Some nbrs => Ok (jsmap_set a (jsmap_set b weight nbrs) adj)
  | None => Throw "TypeError: undefined has no property set"
  end.

(** [if (!this.adjacency.has(a)) this.addNode({ id: a, name: a })] *)
Definition ensureNode (a : string) (g : Graph) : result Graph :=
  if jsmap_has a (adjacency g) then Ok g else addNode (stubNode a) g.

(** [addEdge(a, b, weight, _meta)]; the metadata argument is not stored. *)
Definition addEdge (a b : string) (weight : num) (meta : obj num) (g : Graph)
  : result Graph :=
  g1 ← ensureNode a g;
  g2 ← ensureNode b g1;
  adj1 ← adjSet a b weight (adjacency g2);
  adj2 ← adjSet b a weight adj1;
  Ok {| adjacency := adj2; nodeData := nodeData g2 |}.

Definition neighbors (g : Graph) (id : string) : list string :=
  match jsmap_get id (adjacency g) with
  | Some nbrs => jsmap_keys nbrs
  | None => []
  end.

Definition degree (g : Graph) (id : string) : nat :=
  match jsmap_get id (adjacency g) with
  | Some nbrs => jsmap_size nbrs
  | None => 0
  end.

Definition nodes (g : Graph) : list string := jsmap_keys (adjacency g).

(** The weight stored for [b] in the adjacency of [a]. *)
Definition weightOf (g : Graph) (a b : string) : option num :=
  nbrs ← jsmap_get a (adjacency g); jsmap_get b nbrs.

(** [a < b ? `${a}|${b}` : `${b}|${a}`] *)
Definition edgeKey (a b : string) : string :=
  if String.ltb a b then a +:+ "|" +:+ b else b +:+ "|" +:+ a.

(** The body of the inner loop of [edges()]. *)
Definition edgesVisit (a : string) (st : jsset * list (string * string)) (b : string)
  : jsset * list (string * string) :=
  let key := edgeKey a b in
  if jsset_has key st.1 then st
  else (jsset_add key st.1, st.2 ++ [(a, b)]).

Definition edges (g : Graph) : list (string * string) :=
  (fold_left
     (λ st entry, fold_left (edgesVisit entry.1) (jsmap_keys entry.2) st)
     (adjacency g) ([], [])).2.

(** The graphs the public interface can produce: [adjacency] is private and
    is written by [addNode] and [addEdge] only; [nodeData] is public and is
    rewritten by [assignCommunities]. A call that throws leaves the graph
    as its completed inner calls made it ([addEdge] may have added its
    first endpoint), which is a built graph again. *)
Inductive Built : Graph → Prop :=
| Built_new : Built newGraph
| Built_addNode node g g' : Built g → addNode node g = Ok g' → Built g'
| Built_addEdge a b w meta g g' : Built g → addEdge a b w meta g = Ok g' → Built g'
| Built_nodeData g data : Built g → Built {| adjacency := adjacency g; nodeData := data |}.

End GraphStore.
Arguments Graph num : clear implicits.

(** ** Algorithms of [Graph] *)

Section Algorithms.
Context {num : Type}.

(** *** [shortestPath] and [reconstructPath] *)

Record bfsState : Type := mkBfs {
  queue : list string;
  visited : jsset;
  parent : jsmap string
}.

(** Loop of [reconstructPath]: the state is [(cur, path)]; [path] grows at
    its end and is reversed on return. *)
Definition reconstructBody (parents : jsmap string) (source : string)
  (st : string * list string) : flow (option (list string)) (string * list string) :=
  if decide (st.1 = source) then Return (Some (rev st.2))
  else
    match jsmap_get st.1 parents with
    | None => Return None
    | Some cur => Continue (cur, st.2 ++ [cur])
    end.

Definition reconstructPath (fuel : nat) (parents : jsmap string) (source target : string)
  : budgeted (option (list string)) :=
  iterate (reconstructBody parents source) fuel (target, [target]).

(** The [for (const nbr of this.neighbors(current))] loop; it returns from
    the whole function when it reaches the target. *)
Fixpoint bfsScan (fuel : nat) (source target current : string) (nbrs : list string)
  (st : bfsState) : flow (budgeted (option (list string))) bfsState :=
  match nbrs with
  | [] => Continue st
  | nbr :: rest =>
      if jsset_has nbr (visited st) then bfsScan fuel source target current rest st
      else
        let visited' := jsset_add nbr (visited st) in
        let parent' := jsmap_set nbr current (parent st) in
        if decide (nbr = target)
        then Return (reconstructPath fuel parent' source target)
        else bfsScan fuel source target current rest
               {| queue := queue st ++ [nbr]; visited := visited'; parent := parent' |}
  end.

(** One round of [while (queue.length)]; leaving the loop returns [null]. *)
Definition bfsBody (fuel : nat) (g : Graph num) (source target : string) (st : bfsState)
  : flow (budgeted (option (list string))) bfsState :=
  match queue st with
  | [] => Return (Some None)
  | current :: rest =>
      bfsScan fuel source target current (neighbors g current)
        {| queue := rest; visited := visited st; parent := parent st |}
  end.

(** [fuel] bounds the rounds of the search loop and of the loop of
    [reconstructPath]. *)
Definition shortestPathFuel (fuel : nat) (g : Graph num) (source target : string)
  : budgeted (option (list string)) :=
  if negb (jsmap_has source (adjacency g)) || negb (jsmap_has target (adjacency g))
  then Some None
  else if decide (source = target) then Some (Some [source])
  else
    mjoin (iterate (bfsBody fuel g source target) fuel
             {| queue := [source]; visited := [source]; parent := [] |}).

(** Every loop of [shortestPath] ends within one round per node plus one. *)
Definition shortestPath (g : Graph num) (source target : string)
  : budgeted (option (list string)) :=
  shortestPathFuel (S (length (nodes g))) g source target.

(** *** [degreeCentrality] *)

Definition centralityScale `{JsNumber num} (normalize : bool) (g : Graph num) : num :=
  let N := jsmap_size (adjacency g) in
  if normalize && bool_decide (1 < N) then div one (ofNat (N - 1)) else one.

Definition degreeCentrality `{JsNumber num} (normalize : bool) (g : Graph num) : jsmap num :=
  let scale := centralityScale normalize g in
  fold_left (λ result id, jsmap_set id (mul (ofNat (degree g id)) scale) result)
    (nodes g) [].

(** *** [connectedComponents] *)

(** The stack is kept top first: [push] is a cons, [pop] takes the head. *)
Record ccState : Type := mkCc {
  ccVisited : jsset;
  ccStack : list string;
  ccComp : list string
}.

(** The [for (const nbr of this.neighbors(node))] loop of the traversal. *)
Fixpoint ccScan (nbrs : list string) (vs : jsset * list string) : jsset * list string :=
  match nbrs with
  | [] => vs
  | nbr :: rest =>
      if jsset_has nbr vs.1 then ccScan rest vs
      else ccScan rest (jsset_add nbr vs.1, nbr :: vs.2)
  end.

(** One round of [while (stack.length)]. *)
Definition ccBody (g : Graph num) (st : ccState) : flow (jsset * list string) ccState :=
  match ccStack st with
  | [] => Return (ccVisited st, ccComp st)
  | node :: rest =>
      let vs := ccScan (neighbors g node) (ccVisited st, rest) in
      Continue {| ccVisited := vs.1; ccStack := vs.2; ccComp := ccComp st ++ [node] |}
  end.

(** One round of [for (const start of this.nodes())]. *)
Definition ccStart (fuel : nat) (g : Graph num)
  (acc : budgeted (jsset * list (list string))) (start : string)
  : budgeted (jsset * list (list string)) :=
  vc ← acc;
  if jsset_has start vc.1 then Some vc
  else
    r ← iterate (ccBody g) fuel
          {| ccVisited := jsset_add start vc.1; ccStack := [start]; ccComp := [] |};
    Some (r.1, vc.2 ++ [r.2]).

Definition connectedComponentsFuel (fuel : nat) (g : Graph num)
  : budgeted (list (list string)) :=
  snd <$> fold_left (ccStart fuel g) (nodes g) (Some ([], [])).

Definition connectedComponents (g : Graph num) : budgeted (list (list string)) :=
  connectedComponentsFuel (S (length (nodes g))) g.

(** *** [assignCommunities] *)

(** [`C${idx + 1}`] *)
Definition communityLabel (idx : nat) : string :=
  "C" +:+ NilEmpty.string_of_uint (Nat.to_uint (S idx)).

(** [nodeData.set(id, { ...(nodeData.get(id) || { id, name: id }), communityId })] *)
Definition assignOne (communityId : string) (data : jsmap (obj num)) (id : string)
  : jsmap (obj num) :=
  jsmap_set id
    (spread (default (stubNode id) (jsmap_get id data)) [("communityId", JStr communityId)])
    data.

Definition assignCommunities (g : Graph num) : budgeted (Graph num * list (list string)) :=
  components ← connectedComponents g;
  let data :=
    fold_left (λ data ic, fold_left (assignOne (communityLabel ic.1)) ic.2 data)
      (imap pair components) (nodeData g) in
  Some ({| adjacency := adjacency g; nodeData := data |}, components).

End Algorithms.

(** ** Strings *)

(** [toLowerCase] and [toUpperCase] on the letters A-Z and a-z. Strings
    are sequences of one-byte characters; the two functions are those of
    the code on ASCII strings, and leave every other character as it is,
    where the code also folds letters outside ASCII. *)
Definition lowerChar (c : Ascii.ascii) : Ascii.ascii :=
  let n := Ascii.nat_of_ascii c in
  if bool_decide (65 ≤ n ≤ 90) then Ascii.ascii_of_nat (n + 32) else c.

Definition upperChar (c : Ascii.ascii) : Ascii.ascii :=
  let n := Ascii.nat_of_ascii c in
  if bool_decide (97 ≤ n ≤ 122) then Ascii.ascii_of_nat (n - 32) else c.

Fixpoint mapString (f : Ascii.ascii → Ascii.ascii) (s : string) : string :=
  match s with
  | EmptyString => EmptyString
  | String c s' => String (f c) (mapString f s')
  end.

Definition toLowerCase : string → string := mapString lowerChar.
Definition toUpperCase : string → string := mapString upperChar.

(** [s.includes(q)] *)
Fixpoint strIncludes (s q : string) : bool :=
  String.prefix q s ||
  match s with
  | EmptyString => false
  | String _ s' => strIncludes s' q
  end.

(** ** Ingestion of work credits ([addSongCreditsToGraph]) *)

Section Builder.
Context `{JsNumber num}.

Record SongCredit : Type := mkSong {
  songId : string;
  songTitle : string;
  songArtistIds : list string;
  songYear : option num;
  songWriters : option (list string);
  songProducers : option (list string);
  songPerformers : option (list string)
}.

(** A property is present in an object literal only when it is defined. *)
Definition optProp (k : string) (o : option (list string)) : obj num :=
  match o with
  | Some l => [(k, js_strings l)]
  | None => []
  end.

(** [song.credits] *)
Definition creditsObject (song : SongCredit) : jsval num :=
  JObj (optProp "writers" (songWriters song) ++
        optProp "producers" (songProducers song) ++
        optProp "performers" (songPerformers song)).

(** [{ id, name: title, nodeType: 'song', year, credits }] *)
Definition songNode (song : SongCredit) : obj num :=
  [("id", JStr (songId song)); ("name", JStr (songTitle song));
   ("nodeType", JStr "song");
   ("year", from_option JNum JUndefined (songYear song));
   ("credits", creditsObject song)].

(** [{ id: artistId, name: artistId, nodeType: 'artist' }] *)
Definition artistStub (artistId : string) : obj num :=
  [("id", JStr artistId); ("name", JStr artistId); ("nodeType", JStr "artist")].

(** [for (const x of xs) set.add(x)] *)
Definition addAll (xs : list string) (s : jsset) : jsset :=
  foldl (λ acc x, jsset_add x acc) s xs.

(** The set [allCreditedArtists], in insertion order. An absent credit list
    adds nothing. *)
Definition allCreditedArtists (song : SongCredit) : jsset :=
  addAll (default [] (songPerformers song))
    (addAll (default [] (songProducers song))
       (addAll (default [] (songWriters song))
          (addAll (songArtistIds song) []))).

(** [list?.includes(x)], read as a condition. *)
Definition optIncludes (o : option (list string)) (x : string) : bool :=
  match o with
  | Some l => bool_decide (x ∈ l)
  | None => false
  end.

(** The [if / else if] chain that picks the relation label. *)
Definition creditRelation (song : SongCredit) (artistId : string) : string :=
  if bool_decide (artistId ∈ songArtistIds song) then "performs"
  else if optIncludes (songWriters song) artistId then "writes"
  else if optIncludes (songProducers song) artistId then "produces"
  else if optIncludes (songPerformers song) artistId then "performs"
  else "credited".

(** [{ relation, songId: song.id, artistId }] *)
Definition creditMeta (song : SongCredit) (artistId : string) : obj num :=
  [("relation", JStr (creditRelation song artistId));
   ("songId", JStr (songId song)); ("artistId", JStr artistId)].

(** The body of [for (const artistId of allCreditedArtists)]. *)
Definition creditArtist (song : SongCredit) (g : Graph num) (artistId : string)
  : result (Graph num) :=
  g1 ← (if jsmap_has artistId (nodeData g) then Ok g
        else addNode (artistStub artistId) g);
  addEdge (songId song) artistId one (creditMeta song artistId) g1.

(** The body of [for (const song of songCredits.songs)]. *)
Definition addSong (g : Graph num) (song : SongCredit) : result (Graph num) :=
  g1 ← addNode (songNode song) g;
  foldl (λ r artistId, g' ← r; creditArtist song g' artistId) (Ok g1)
    (allCreditedArtists song).

Definition addSongCreditsToGraph (g : Graph num) (songs : list SongCredit)
  : budgeted (result (Graph num)) :=
  match foldl (λ r song, g' ← r; addSong g' song) (Ok g) songs with
  | Throw msg => Some (Throw msg)
  | Ok g' => (λ gc, Ok gc.1) <$> assignCommunities g'
  end.

End Builder.
Arguments SongCredit num : clear implicits.

(** ** The query facade ([resolvers.Query]) *)

Section Query.
Context `{JsNumber num}.

Record NodeObject : Type := mkNodeObject {
  noId : string;
  noName : jsval num;
  noNodeType : string;
  noCommunityId : option (jsval num);
  noDegree : nat;
  noCentrality : num;
  noYear : option (jsval num);
  noCredits : option (jsval num);
  noSongIds : option (jsval num)
}.

(** [graph.nodeData.get(id) || { id, name: id }] *)
Definition dataOf (g : Graph num) (id : string) : obj num :=
  default (stubNode id) (jsmap_get id (nodeData g)).

(** [toNodeTypeEnum]: ['ARTIST'] for a missing or empty type. The type is
    declared as a string; another value is read as missing. *)
Definition toNodeTypeEnum (nodeType : option (jsval num)) : string :=
  match nodeType with
  | Some (JStr s) => if decide (s = "") then "ARTIST" else toUpperCase s
  | _ => "ARTIST"
  end.

Definition createNodeObject (id : string) (g : Graph num) (centrality : jsmap num)
  : NodeObject :=
  let data := dataOf g id in
  {| noId := id;
     noName := default (JStr id) (nullish (jsmap_get "name" data) (Some (JStr id)));
     noNodeType := toNodeTypeEnum (jsmap_get "nodeType" data);
     noCommunityId := jsmap_get "communityId" data;
     noDegree := degree g id;
     noCentrality := default (ofNat 0) (jsmap_get id centrality);
     noYear := jsmap_get "year" data;
     noCredits := jsmap_get "credits" data;
     noSongIds := jsmap_get "songIds" data |}.

(** [filterByNodeType] *)
Definition filterByNodeType (nodes : list NodeObject) (nodeTypes : option (list string))
  : list NodeObject :=
  match nodeTypes with
  | None | Some [] => nodes
  | Some ts => List.filter (λ node, bool_decide (noNodeType node ∈ ts)) nodes
  end.

(** [Query.shortestPath]: the path's node objects and [path.length - 1]. *)
Definition queryShortestPath (g : Graph num) (from to : string)
  : budgeted (option (list NodeObject * nat)) :=
  r ← shortestPath g from to;
  Some (path ← r;
        let centrality := degreeCentrality true g in
        Some ((λ id, createNodeObject id g centrality) <$> path, length path - 1)).

(** [(data.name ?? id).toLowerCase()]; the call throws on a name that is not
    a string. *)
Definition searchName (g : Graph num) (id : string) : result string :=
  match nullish (jsmap_get "name" (dataOf g id)) (Some (JStr id)) with
  | Some (JStr s) => Ok (toLowerCase s)
  | _ => Throw "TypeError: toLowerCase is not a function"
  end.

(** The callback of [nodes().map(...)] in [Query.search]; [None] is the
    [null] that [filter(Boolean)] drops. *)
Definition searchVisit (g : Graph num) (q : string) (centrality : jsmap num)
  (id : string) : result (option NodeObject) :=
  name ← searchName g id;
  Ok (if strIncludes name q then Some (createNodeObject id g centrality) else None).

Fixpoint mapResult {A B : Type} (f : A → result B) (l : list A) : result (list B) :=
  match l with
  | [] => Ok []
  | a :: l' => b ← f a; bs ← mapResult f l'; Ok (b :: bs)
  end.

(** [Query.search]: the matched nodes and their count. *)
Definition querySearch (g : Graph num) (query : string)
  (nodeTypes : option (list string)) (limit : option Z)
  : result (list NodeObject * nat) :=
  let q := toLowerCase query in
  let centrality := degreeCentrality true g in
  found ← mapResult (searchVisit g q centrality) (nodes g);
  let results := filterByNodeType (omap id found) nodeTypes in
  let results :=
    match limit with
    | Some n => if bool_decide (0 < n)%Z then take (Z.to_nat n) results else results
    | None => results
    end in
  Ok (results, length results).

End Query.
Arguments NodeObject num : clear implicits.

(** ** Running the model *)

Module Examples.

Abbreviation Qone := (QArith_base.inject_Z 1) (only parsing).

Definition getOk {A : Type} (d : A) (r : result A) : A :=
  match r with Ok a => a | Throw _ => d end.

(** [addEdge] with weight 1 for each pair, from [new Graph()]. *)
Definition build (es : list (string * string)) : Graph QArith_base.Q :=
  getOk newGraph (foldl (λ r e, g ← r; addEdge e.1 e.2 Qone [] g) (Ok newGraph) es).

(** The path graph A - B - C - D. *)
Definition pathABCD : Graph QArith_base.Q :=
  build [("A", "B"); ("B", "C"); ("C", "D")].

(** The same graph, built from the other end. *)
Definition pathDCBA : Graph QArith_base.Q :=
  build [("D", "C"); ("C", "B"); ("B", "A")].

(** Two components. *)
Definition twoParts : Graph QArith_base.Q :=
  build [("A", "B"); ("C", "D"); ("B", "E")].

(** One isolated node. *)
Definition single : Graph QArith_base.Q :=
  getOk newGraph (addNode [("id", JStr "a"); ("name", JStr "Taylor Swift")] newGraph).

(** The same node after [assignCommunities]. *)
Definition labelled : Graph QArith_base.Q :=
  from_option fst single (assignCommunities single).

(** Two edges whose keys in [edges()] are the same string. *)
Definition clash : Graph QArith_base.Q := build [("x|y", "z"); ("x", "y|z")].

(** The second of them submitted again, with weight 2. *)
Definition clashAgain : Graph QArith_base.Q :=
  getOk newGraph (addEdge "x" "y|z" (QArith_base.inject_Z 2) [] clash).

(** An edge and a self-loop whose keys in [edges()] are the same string. *)
Definition clashLoop : Graph QArith_base.Q := build [("x", "x|x|x"); ("x|x", "x|x")].

(** A song credited to three artists, one of them in two lists. *)
Definition song1 : SongCredit QArith_base.Q :=
  {| songId := "s1"; songTitle := "Song"; songArtistIds := ["a1"];
     songYear := None; songWriters := Some ["a1"; "a2"];
     songProducers := Some ["a2"; "a3"]; songPerformers := None |}.


End Examples.

(** * The rest of the program: loaders, the other resolvers, the client *)

From Stdlib Require DecimalNat.

(** ** Graphs reached from a graph *)

Section Reach.
Context {num : Type}.

(** [Extends g g']: [g'] is what calls of the interface make of [g]. *)
Inductive Extends (g : Graph num) : Graph num → Prop :=
| Extends_refl : Extends g g
| Extends_addNode node g1 g2 :
    Extends g g1 → addNode node g1 = Ok g2 → Extends g g2
| Extends_addEdge a b w meta g1 g2 :
    Extends g g1 → addEdge a b w meta g1 = Ok g2 → Extends g g2
| Extends_nodeData g1 data :
    Extends g g1 → Extends g {| adjacency := adjacency g1; nodeData := data |}.

End Reach.

(** ** Truthiness

    [numTruthy n] is [false] for the numbers that count as false in a
    condition (zero and NaN). *)
Class JsTruthy (num : Type) : Type := numTruthy : num → bool.

#[global] Instance Q_JsTruthy : JsTruthy QArith_base.Q :=
  λ q, negb (QArith_base.Qeq_bool q (QArith_base.inject_Z 0)).

Definition truthy `{JsTruthy num} (v : jsval num) : bool :=
  match v with
  | JUndefined | JNull => false
  | JBool b => b
  | JStr s => negb (bool_decide (s = ""))
  | JNum n => numTruthy n
  | JArr _ | JObj _ => true
  end.

(** [a || b] on a property read: a missing property reads as [undefined]. *)
Definition jsOr `{JsTruthy num} (a : option (jsval num)) (b : jsval num) : jsval num :=
  match a with
  | Some v => if truthy v then v else b
  | None => b
  end.

(** ** The base loader and the ingestion of albums ([src/graph]) *)

Section Loaders.
Context `{JsNumber num}.

(** An element of [data.edges]: [{ source, target, weight? }]. *)
Record EdgeData : Type := mkEdgeData {
  edgeSource : string;
  edgeTarget : string;
  edgeWeight : option num
}.

Definition edgeObject (e : EdgeData) : obj num :=
  [("source", JStr (edgeSource e)); ("target", JStr (edgeTarget e))] ++
  match edgeWeight e with
  | Some w => [("weight", JNum w)]
  | None => []
  end.

(** [graph.addNode({ ...n, nodeType: 'artist' })] *)
Definition addArtist (g : Graph num) (n : obj num) : result (Graph num) :=
  addNode (spread n [("nodeType", JStr "artist")]) g.

(** [graph.addEdge(e.source, e.target, e.weight ?? 1, e)] *)
Definition addDataEdge (g : Graph num) (e : EdgeData) : result (Graph num) :=
  addEdge (edgeSource e) (edgeTarget e) (default one (edgeWeight e)) (edgeObject e) g.

(** The two loops that build the base graph from [{ nodes, edges }]. *)
Definition loadBase (nodes : list (obj num)) (edges : list EdgeData) : result (Graph num) :=
  g1 ← foldl (λ r n, g ← r; addArtist g n) (Ok newGraph) nodes;
  foldl (λ r e, g ← r; addDataEdge g e) (Ok g1) edges.

(** [loadGraphFromJson], from the parsed document on. *)
Definition loadGraphFromJson (nodes : list (obj num)) (edges : list EdgeData)
  : budgeted (result (Graph num)) :=
  match loadBase nodes edges with
  | Throw msg => Some (Throw msg)
  | Ok g => (λ gc, Ok gc.1) <$> assignCommunities g
  end.

Record Album : Type := mkAlbum {
  albumId : string;
  albumTitle : string;
  albumArtistIds : list string;
  albumYear : option num;
  albumSongIds : option (list string)
}.

(** [{ id, name: title, nodeType: 'album', year, songIds }] *)
Definition albumNode (album : Album) : obj num :=
  [("id", JStr (albumId album)); ("name", JStr (albumTitle album));
   ("nodeType", JStr "album");
   ("year", from_option JNum JUndefined (albumYear album));
   ("songIds", from_option js_strings JUndefined (albumSongIds album))].

(** [{ id: songId, name: songId, nodeType: 'song' }] *)
Definition songStub (songId : string) : obj num :=
  [("id", JStr songId); ("name", JStr songId); ("nodeType", JStr "song")].

(** [{ relation: 'released by', albumId: album.id, artistId }] *)
Definition releasedMeta (album : Album) (artistId : string) : obj num :=
  [("relation", JStr "released by"); ("albumId", JStr (albumId album));
   ("artistId", JStr artistId)].

(** [{ relation: 'contains', albumId: album.id, songId }] *)
Definition containsMeta (album : Album) (songId : string) : obj num :=
  [("relation", JStr "contains"); ("albumId", JStr (albumId album));
   ("songId", JStr songId)].

(** [if (!graph.nodeData.has(id)) graph.addNode(stub)], then the edge from
    the album: the body of both inner loops of [addAlbumsToGraph]. *)
Definition albumLink (album : Album) (stub : string → obj num)
  (meta : Album → string → obj num) (g : Graph num) (id : string) : result (Graph num) :=
  g1 ← (if jsmap_has id (nodeData g) then Ok g else addNode (stub id) g);
  addEdge (albumId album) id one (meta album id) g1.

(** The body of [for (const album of albumsData.albums)]. *)
Definition addAlbum (g : Graph num) (album : Album) : result (Graph num) :=
  g1 ← addNode (albumNode album) g;
  g2 ← foldl (λ r artistId, g' ← r; albumLink album artistStub releasedMeta g' artistId)
         (Ok g1) (albumArtistIds album);
  match albumSongIds album with
  | Some songIds =>
      foldl (λ r songId, g' ← r; albumLink album songStub containsMeta g' songId)
        (Ok g2) songIds
  | None => Ok g2
  end.

Definition addAlbumsToGraph (g : Graph num) (albums : list Album)
  : budgeted (result (Graph num)) :=
  match foldl (λ r album, g' ← r; addAlbum g' album) (Ok g) albums with
  | Throw msg => Some (Throw msg)
  | Ok g' => (λ gc, Ok gc.1) <$> assignCommunities g'
  end.

End Loaders.
Arguments EdgeData num : clear implicits.
Arguments Album num : clear implicits.

(** ** The other resolvers of [Query] *)

Section QueryMore.
Context `{JsNumber num, JsTruthy num}.

Record EdgeObject : Type := mkEdgeObject {
  eoSource : string;
  eoTarget : string;
  eoRelation : string
}.

Record CommunityObject : Type := mkCommunityObject {
  coId : jsval num;
  coNodes : list (NodeObject num);
  coNodeCount : nat
}.

Record GraphObject : Type := mkGraphObject {
  goNodes : list (NodeObject num);
  goEdges : list EdgeObject;
  goCommunities : list CommunityObject;
  goNodeCount : nat;
  goEdgeCount : nat
}.

(** [fromNodeTypeEnum] *)
Definition fromNodeTypeEnum (nodeType : string) : string := toLowerCase nodeType.

(** [nodes.find((n) => n.id === id)] *)
Definition findNode (nodes : list (NodeObject num)) (id : string) : option (NodeObject num) :=
  List.find (λ n, bool_decide (noId n = id)) nodes.

(** [nodeTypes && nodeTypes.length > 0] *)
Definition typesGiven (nodeTypes : option (list string)) : bool :=
  match nodeTypes with
  | Some (_ :: _) => true
  | _ => false
  end.

(** The callback of [graph.edges().map(...)] in [Query.graph]; [None] is
    the [null] that [filter(Boolean)] drops. *)
Definition graphEdge (nodes : list (NodeObject num)) (e : string * string)
  : option EdgeObject :=
  match findNode nodes e.1, findNode nodes e.2 with
  | Some _, Some _ =>
      Some {| eoSource := e.1; eoTarget := e.2; eoRelation := "connected" |}
  | _, _ => None
  end.

(** The callback of [components.map(...)] in [Query.graph]. *)
Definition graphCommunity (g : Graph num) (centrality : jsmap num)
  (nodes : list (NodeObject num)) (idx : nat) (comp : list string) : CommunityObject :=
  let communityNodes :=
    omap (λ nodeId,
            match findNode nodes nodeId with
            | Some _ => Some (createNodeObject nodeId g centrality)
            | None => None
            end) comp in
  {| coId := JStr (communityLabel idx); coNodes := communityNodes;
     coNodeCount := length communityNodes |}.

(** [Query.graph] *)
Definition queryGraph (g : Graph num) (nodeTypes : option (list string))
  : budgeted GraphObject :=
  let centrality := degreeCentrality true g in
  let nodes := (λ id, createNodeObject id g centrality) <$> nodes g in
  let nodes := if typesGiven nodeTypes then filterByNodeType nodes nodeTypes else nodes in
  let edges := omap (graphEdge nodes) (edges g) in
  components ← connectedComponents g;
  let communities :=
    List.filter (λ comm, bool_decide (0 < length (coNodes comm)))
      (imap (graphCommunity g centrality nodes) components) in
  Some {| goNodes := nodes; goEdges := edges; goCommunities := communities;
          goNodeCount := length nodes; goEdgeCount := length edges |}.

(** [Query.node] *)
Definition queryNode (g : Graph num) (id : string) : option (NodeObject num) :=
  match jsmap_get id (nodeData g) with
  | None => None
  | Some _ => Some (createNodeObject id g (degreeCentrality true g))
  end.

(** [Query.neighbors] *)
Definition queryNeighbors (g : Graph num) (id : string) (nodeTypes : option (list string))
  : list (NodeObject num) :=
  let neighborIds := neighbors g id in
  let centrality := degreeCentrality true g in
  let nbrs := (λ nodeId, createNodeObject nodeId g centrality) <$> neighborIds in
  if typesGiven nodeTypes then filterByNodeType nbrs nodeTypes else nbrs.

(** [graph.nodeData.get(id)?.communityId] *)
Definition communityOf (g : Graph num) (id : string) : option (jsval num) :=
  data ← jsmap_get id (nodeData g); jsmap_get "communityId" data.

(** [Query.community] *)
Definition queryCommunity (g : Graph num) (id : string)
  : budgeted (option CommunityObject) :=
  components ← connectedComponents g;
  Some (comp ← List.find (λ c, bool_decide (id ∈ c)) components;
        let centrality := degreeCentrality true g in
        let nodes := (λ nodeId, createNodeObject nodeId g centrality) <$> comp in
        Some {| coId := jsOr (communityOf g id) (JStr "C0"); coNodes := nodes;
                coNodeCount := length nodes |}).

(** [Query.communities] *)
Definition queryCommunities (g : Graph num) : budgeted (list CommunityObject) :=
  components ← connectedComponents g;
  let centrality := degreeCentrality true g in
  Some (imap (λ idx comp,
                {| coId := JStr (communityLabel idx);
                   coNodes := (λ nodeId, createNodeObject nodeId g centrality) <$> comp;
                   coNodeCount := length comp |}) components).

End QueryMore.
Arguments CommunityObject num : clear implicits.
Arguments GraphObject num : clear implicits.

(** ** Helpers of the client ([src/app]) *)

(** [x | 0]: the integer read as a signed 32-bit number. *)
Definition toInt32 (z : Z) : Z := (z + 2 ^ 31) `mod` 2 ^ 32 - 2 ^ 31.

(** [s.charCodeAt(i)], for strings of one-byte characters. *)
Definition charCode (c : Ascii.ascii) : Z := Z.of_nat (Ascii.nat_of_ascii c).

(** The loop of [hashCode]: [h = ((h << 5) - h + s.charCodeAt(i)) | 0];
    the shift itself wraps to 32 bits. *)
Fixpoint hashLoop (h : Z) (s : string) : Z :=
  match s with
  | EmptyString => h
  | String c s' => hashLoop (toInt32 (toInt32 (Z.shiftl h 5) - h + charCode c)) s'
  end.

Definition hashCode (s : string) : Z := hashLoop 0 s.

Definition colors : list string :=
  ["#60a5fa"; "#34d399"; "#f472b6"; "#f59e0b"; "#a78bfa"; "#22d3ee"; "#fb7185"].

(** [colors[Math.abs(hashCode(id)) % colors.length]]; [None] is the
    [undefined] of an index outside the array. *)
Definition colorForCommunity (id : string) : option string :=
  colors !! Z.to_nat (Z.abs (hashCode id) `mod` Z.of_nat (length colors)).

Section Client.
Context `{JsNumber num, JsTruthy num}.

(** The record that [graphQLToGraph] hands to [addNode] for a node of the
    response. *)
Definition clientNode (node : NodeObject num) : obj num :=
  [("id", JStr (noId node)); ("name", noName node);
   ("nodeType", JStr (toLowerCase (noNodeType node)));
   ("communityId", jsOr (noCommunityId node) JUndefined);
   ("year", jsOr (noYear node) JUndefined);
   ("credits", jsOr (noCredits node) JUndefined);
   ("songIds", jsOr (noSongIds node) JUndefined);
   ("degree", JNum (ofNat (noDegree node)));
   ("centrality", JNum (noCentrality node))].

(** [{ relation: edge.relation || 'connected' }] *)
Definition clientMeta (edge : EdgeObject) : obj num :=
  [("relation", JStr (if decide (eoRelation edge = "") then "connected"
                      else eoRelation edge))].

(** [graphQLToGraph] *)
Definition graphQLToGraph (graphData : GraphObject num) : result (Graph num) :=
  g1 ← foldl (λ r node, g ← r; addNode (clientNode node) g) (Ok newGraph)
         (goNodes graphData);
  foldl (λ r edge, g ← r;
           addEdge (eoSource edge) (eoTarget edge) one (clientMeta edge) g)
    (Ok g1) (goEdges graphData).

End Client.

(** * Vocabulary of the properties *)

(** The key of a pair in [edges()]. *)
Definition pairKey (e : string * string) : string := edgeKey e.1 e.2.

(** The body of the inner loop of [edges()], on a pair. *)
Definition edgesStep (st : list string * list (string * string)) (e : string * string)
  : list string * list (string * string) :=
  edgesVisit e.1 st e.2.

(** An id that does not contain the separator of the keys of [edges()]. *)
Definition noBar (s : string) : Prop := strIncludes s "|" = false.

Section Vocabulary.
Context {num : Type}.

(** The adjacency entries, as pairs, in the order [edges()] visits them. *)
Definition directedPairs (g : Graph num) : list (string * string) :=
  adjacency g ≫= λ entry, (λ b, (entry.1, b)) <$> jsmap_keys entry.2.

(** What every graph built through the interface satisfies: keys are not
    repeated, every neighbor is a node, and adjacency is symmetric with
    the same weight in both directions. *)
Record wellFormed (g : Graph num) : Prop := mkWellFormed {
  wf_nodes : NoDup (nodes g);
  wf_inner : ∀ a, NoDup (neighbors g a);
  wf_closed : ∀ a b, b ∈ neighbors g a → b ∈ nodes g;
  wf_sym : ∀ a b, weightOf g a b = weightOf g b a
}.

(** [walk g s v w]: [w] lists the nodes of a walk from [s] to [v], each
    node a neighbor of the one before it. *)
Inductive walk (g : Graph num) (s : string) : string → list string → Prop :=
| walk_start : walk g s s [s]
| walk_step x y w : walk g s x w → y ∈ neighbors g x → walk g s y (w ++ [y]).

(** The same, read off the sequence: first and last element and adjacency
    of consecutive elements. *)
Definition isPath (g : Graph num) (from to : string) (p : list string) : Prop :=
  head p = Some from ∧ last p = Some to ∧
  ∀ i a b, p !! i = Some a → p !! S i = Some b → b ∈ neighbors g a.

Definition connected (g : Graph num) (x y : string) : Prop :=
  ∃ p, isPath g x y p.

(** Position of the first occurrence of [x] in [l]. *)
Fixpoint indexOf (x : string) (l : list string) : nat :=
  match l with
  | [] => 0
  | y :: l' => if decide (y = x) then 0 else S (indexOf x l')
  end.

(** The choices a path makes: for each step, the position of the next node
    in the adjacency of the current one (its insertion rank there). *)
Fixpoint pathCode (g : Graph num) (p : list string) : list nat :=
  match p with
  | x :: p' =>
      match p' with
      | y :: _ => indexOf y (neighbors g x) :: pathCode g p'
      | [] => []
      end
  | [] => []
  end.

(** Lexicographic order on choice sequences. *)
Fixpoint lexLt (a b : list nat) : Prop :=
  match a, b with
  | x :: a', y :: b' => x < y ∨ (x = y ∧ lexLt a' b')
  | _, _ => False
  end.

(** [p] is found before [q] by a breadth-first search that expands
    neighbors in adjacency order: it is shorter, or as long and its choices
    come first. *)
Definition earlier (g : Graph num) (p q : list string) : Prop :=
  length p < length q ∨
  (length p = length q ∧ lexLt (pathCode g p) (pathCode g q)).

Definition noLater (g : Graph num) (p q : list string) : Prop :=
  earlier g p q ∨ (length p = length q ∧ pathCode g p = pathCode g q).

(** *** Invariants of the breadth-first search

    The search from [s] is followed with a ghost map [tp] from each visited
    node to the path by which it was reached. [P] lists the nodes already
    taken from the queue and expanded, [u] is the node being expanded and
    [scanned] the part of its adjacency already looked at. *)
Record bfsInv (g : Graph num) (s : string) (tp : string → list string)
  (P : list string) (u : string) (scanned : list string) (st : bfsState) : Prop :=
mkBfsInv {
  bi_split : visited st = P ++ u :: queue st;
  bi_nodup : NoDup (visited st);
  bi_nodes : ∀ v, v ∈ visited st → v ∈ nodes g;
  bi_source : s ∈ visited st ∧ tp s = [s];
  bi_tree : ∀ v, v ∈ visited st → v ≠ s →
    ∃ p, jsmap_get v (parent st) = Some p ∧ tp v = tp p ++ [v] ∧
         (p ∈ P ∨ (p = u ∧ v ∈ scanned));
  bi_walk : ∀ v, v ∈ visited st → walk g s v (tp v);
  bi_closed : ∀ x y, x ∈ P → y ∈ neighbors g x → y ∈ visited st;
  bi_scanned : ∀ y, y ∈ scanned → y ∈ visited st;
  bi_sorted : ∀ i j a b, i < j →
    visited st !! i = Some a → visited st !! j = Some b → earlier g (tp a) (tp b);
  bi_least : ∀ v w, v ∈ visited st → walk g s v w → noLater g (tp v) w;
  bi_short : ∀ v, v ∈ visited st → length (tp v) ≤ length (visited st)
}.

(** The invariant at the head of [while (queue.length)]: the target has not
    been reached; with a non-empty queue its head is about to be expanded;
    with an empty queue the visited set is closed under adjacency. *)
Definition bfsHead (g : Graph num) (s t : string) (st : bfsState) : Prop :=
  (t ∉ visited st) ∧
  match queue st with
  | u :: q =>
      ∃ tp P, bfsInv g s tp P u []
                {| queue := q; visited := visited st; parent := parent st |}
  | [] =>
      s ∈ visited st ∧
      ∀ x y, x ∈ visited st → y ∈ neighbors g x → y ∈ visited st
  end.

(** What the search may return: a path to the target that no other walk
    to it precedes, or [null] when no walk reaches the target. *)
Definition bfsFound (g : Graph num) (s t : string)
  (r : budgeted (option (list string))) : Prop :=
  ∃ p, r = Some (Some p) ∧ walk g s t p ∧ ∀ w, walk g s t w → noLater g p w.

Definition bfsResult (g : Graph num) (s t : string)
  (r : budgeted (option (list string))) : Prop :=
  bfsFound g s t r ∨ (r = Some None ∧ ∀ w, ¬ walk g s t w).

(** The number of rounds the loop of the search still has to run. *)
Definition bfsRounds (g : Graph num) (st : bfsState) : nat :=
  length (nodes g) + length (queue st) - length (visited st).

(** *** Invariants of the component traversal

    [V0] is the visited set when the traversal from [start] begins. *)
Record ccInv (g : Graph num) (start : string) (V0 : list string) (st : ccState)
  : Prop := mkCcInv {
  ci_perm : ccVisited st ≡ₚ V0 ++ ccComp st ++ ccStack st;
  ci_nodup : NoDup (ccVisited st);
  ci_nodes : ∀ x, x ∈ ccVisited st → x ∈ nodes g;
  ci_head : head (ccComp st ++ ccStack st) = Some start;
  ci_reach : ∀ x, x ∈ ccComp st ++ ccStack st → ∃ w, walk g start x w;
  ci_closed : ∀ x y, x ∈ ccComp st → y ∈ neighbors g x → y ∈ ccVisited st
}.

(** What the traversal from [start] returns: the new visited set and the
    component. *)
Record ccDone (g : Graph num) (start : string) (V0 : list string)
  (r : list string * list string) : Prop := mkCcDone {
  cd_perm : r.1 ≡ₚ V0 ++ r.2;
  cd_nodup : NoDup r.1;
  cd_nodes : ∀ x, x ∈ r.1 → x ∈ nodes g;
  cd_head : head r.2 = Some start;
  cd_reach : ∀ x, x ∈ r.2 → ∃ w, walk g start x w;
  cd_closed : ∀ x y, x ∈ r.2 → y ∈ neighbors g x → y ∈ r.1
}.

Definition ccRounds (g : Graph num) (st : ccState) : nat :=
  length (nodes g) + length (ccStack st) - length (ccVisited st).

(** A component: every member is reached by a walk from the first one, and
    every neighbor of a member is a member. *)
Definition isComponent (g : Graph num) (c : list string) : Prop :=
  ∃ start, head c = Some start ∧
    (∀ x, x ∈ c → ∃ w, walk g start x w) ∧
    (∀ x y, x ∈ c → y ∈ neighbors g x → y ∈ c).

(** The [i]-th component starts at the first node, in the order of
    [nodes()], that the components before it do not contain. *)
Definition startsInOrder (g : Graph num) (comps : list (list string)) : Prop :=
  ∀ i c, comps !! i = Some c →
    ∃ start before after,
      head c = Some start ∧ nodes g = before ++ start :: after ∧
      (∀ x, x ∈ before → x ∈ concat (take i comps)) ∧
      start ∉ concat (take i comps).

(** The invariant of [for (const start of this.nodes())], after the nodes
    [pre]. *)
Record ccOuter (g : Graph num) (pre V : list string) (comps : list (list string))
  : Prop := mkCcOuter {
  co_perm : V ≡ₚ concat comps;
  co_nodup : NoDup V;
  co_nodes : ∀ x, x ∈ V → x ∈ nodes g;
  co_pre : ∀ x, x ∈ pre → x ∈ V;
  co_comp : ∀ c, c ∈ comps → isComponent g c;
  co_order : startsInOrder g comps
}.

End Vocabulary.

(** ** What [shortestPath] may return

    [null] when an endpoint is not a node or no walk joins the endpoints,
    otherwise a walk that no walk between the endpoints is shorter than. *)
Inductive pathAnswer {num : Type} (g : Graph num) (s t : string)
  : budgeted (option (list string)) → Prop :=
| answer_absent : s ∉ nodes g ∨ t ∉ nodes g → pathAnswer g s t (Some None)
| answer_apart : s ∈ nodes g → t ∈ nodes g → (∀ w, ¬ walk g s t w) →
    pathAnswer g s t (Some None)
| answer_path p : s ∈ nodes g → t ∈ nodes g → walk g s t p →
    (∀ w, walk g s t w → length p ≤ length w) → pathAnswer g s t (Some (Some p)).


(** The record that [assignCommunities] stores for [x] under the label
    [lbl], given the records before. *)
Definition labelledRecord {num : Type} (data : list (string * list (string * jsval num)))
  (lbl : string) (x : string) : list (string * jsval num) :=
  spread (default (stubNode x) (jsmap_get x data)) [("communityId", JStr lbl)].

(** A letter a-z occurs in the string. *)
Definition isLowerChar (c : Ascii.ascii) : bool :=
  let n := Ascii.nat_of_ascii c in bool_decide (97 ≤ n ≤ 122).

Fixpoint hasLower (s : string) : bool :=
  match s with
  | EmptyString => false
  | String c s' => isLowerChar c || hasLower s'
  end.

(** The graphs that [new Graph()], [addNode], [addEdge] and
    [assignCommunities] produce: [nodeData] is written by these methods
    only. *)
Inductive Made {num : Type} : Graph num → Prop :=
| Made_new : Made newGraph
| Made_addNode node g g' : Made g → addNode node g = Ok g' → Made g'
| Made_addEdge a b w meta g g' : Made g → addEdge a b w meta g = Ok g' → Made g'
| Made_assign g g' comps : Made g → assignCommunities g = Some (g', comps) → Made g'.

(** No record has a node type other than ['artist']. *)
Definition artistOnly {num : Type} (g : Graph num) : Prop :=
  ∀ x r, jsmap_get x (nodeData g) = Some r →
         jsmap_get "nodeType" r = None ∨ jsmap_get "nodeType" r = Some (JStr "artist").

(** A node of a document whose key [id ?? name] has the declared type
    ([ArtistNode]: [id: string; name: string]): it is a string when it is
    there at all. *)
Definition stringKeyed {num : Type} (n : list (string * jsval num)) : Prop :=
  match nullish (jsmap_get "id" n) (jsmap_get "name" n) with
  | Some (JStr _) | Some JUndefined | Some JNull | None => True
  | Some _ => False
  end.

(** The polynomial [s[0] * 31^(n-1) + ... + s[n-1]] over the character
    codes of [s], by Horner's rule, without wrap-around. *)
Fixpoint polyLoop (h : Z) (s : string) : Z :=
  match s with
  | EmptyString => h
  | String c s' => polyLoop (31 * h + charCode c) s'
  end.

Definition polyHash (s : string) : Z := polyLoop 0 s.

(** * Properties *)

#[local] Set Warnings "-clear-no-such-hyp".

(** ** Insertion-ordered maps and sets *)

Section jsmap_facts.
Context {V : Type}.
Implicit Types (m : list (string * V)) (k : string) (v : V).

Lemma jsmap_get_Some_elem k m v : jsmap_get k m = Some v → (k, v) ∈ m.
Proof.
  induction m as [|[k' v'] m IH]; simpl; [done|].
  case_decide; intros Hg; simplify_eq; [left | right; auto].
Qed.

Lemma jsmap_get_None k m : jsmap_get k m = None ↔ k ∉ jsmap_keys m.
Proof.
  unfold jsmap_keys. induction m as [|[k' v'] m IH]; simpl.
  - split; [intros _; apply not_elem_of_nil | done].
  - case_decide; subst.
    + split; [done | intros Hk; exfalso; apply Hk; left].
    + rewrite IH, not_elem_of_cons. naive_solver.
Qed.

Lemma jsmap_has_keys k m : jsmap_has k m = true ↔ k ∈ jsmap_keys m.
Proof.
  unfold jsmap_has. destruct (jsmap_get k m) eqn:E.
  - split; [intros _ | done]. destruct (decide (k ∈ jsmap_keys m)) as [|Hn]; [done|].
    apply jsmap_get_None in Hn. congruence.
  - apply jsmap_get_None in E. split; [done | intros; contradiction].
Qed.

Lemma jsmap_has_false k m : jsmap_has k m = false ↔ k ∉ jsmap_keys m.
Proof. rewrite <- jsmap_has_keys. destruct (jsmap_has k m); naive_solver. Qed.

Lemma jsmap_get_is_Some k m : is_Some (jsmap_get k m) ↔ k ∈ jsmap_keys m.
Proof.
  rewrite <- jsmap_has_keys. unfold jsmap_has.
  destruct (jsmap_get k m); split; intros Hk; done.
Qed.

Lemma jsmap_get_set k k' v m :
  jsmap_get k' (jsmap_set k v m) = if decide (k = k') then Some v else jsmap_get k' m.
Proof.
  induction m as [|[k0 v0] m IH]; simpl.
  - repeat case_decide; congruence.
  - repeat (case_decide; simpl; subst); congruence.
Qed.

Lemma jsmap_get_set_eq k v m : jsmap_get k (jsmap_set k v m) = Some v.
Proof. rewrite jsmap_get_set. by case_decide. Qed.

Lemma jsmap_get_set_ne k k' v m : k ≠ k' → jsmap_get k' (jsmap_set k v m) = jsmap_get k' m.
Proof. intros. rewrite jsmap_get_set. by case_decide. Qed.

Lemma jsmap_keys_set k v m :
  jsmap_keys (jsmap_set k v m) =
  if jsmap_has k m then jsmap_keys m else jsmap_keys m ++ [k].
Proof.
  unfold jsmap_keys, jsmap_has. induction m as [|[k0 v0] m IH]; csimpl; [done|].
  case_decide; csimpl; subst; [done|].
  rewrite IH. by destruct (jsmap_get k m).
Qed.

Lemma jsmap_keys_set_present k v m :
  k ∈ jsmap_keys m → jsmap_keys (jsmap_set k v m) = jsmap_keys m.
Proof. intros Hk. rewrite jsmap_keys_set. apply jsmap_has_keys in Hk. by rewrite Hk. Qed.

Lemma jsmap_keys_set_fresh k v m :
  k ∉ jsmap_keys m → jsmap_keys (jsmap_set k v m) = jsmap_keys m ++ [k].
Proof. intros Hk. rewrite jsmap_keys_set. apply jsmap_has_false in Hk. by rewrite Hk. Qed.

Lemma jsmap_keys_set_elem k k' v m :
  k' ∈ jsmap_keys (jsmap_set k v m) ↔ k' = k ∨ k' ∈ jsmap_keys m.
Proof.
  rewrite jsmap_keys_set. destruct (jsmap_has k m) eqn:E.
  - apply jsmap_has_keys in E. naive_solver.
  - rewrite elem_of_app, list_elem_of_singleton. naive_solver.
Qed.

Lemma jsmap_keys_set_NoDup k v m :
  NoDup (jsmap_keys m) → NoDup (jsmap_keys (jsmap_set k v m)).
Proof.
  intros Hnd. rewrite jsmap_keys_set. destruct (jsmap_has k m) eqn:E; [done|].
  apply jsmap_has_false in E. apply NoDup_app. split_and!; [done| |apply NoDup_singleton].
  intros x Hx ->%list_elem_of_singleton. done.
Qed.

Lemma jsmap_size_set_present k v m :
  k ∈ jsmap_keys m → jsmap_size (jsmap_set k v m) = jsmap_size m.
Proof.
  intros Hk. unfold jsmap_size.
  rewrite <- (length_fmap fst (jsmap_set k v m)), <- (length_fmap fst m).
  fold (jsmap_keys (jsmap_set k v m)). by rewrite jsmap_keys_set_present.
Qed.

Lemma jsmap_size_set_fresh k v m :
  k ∉ jsmap_keys m → jsmap_size (jsmap_set k v m) = S (jsmap_size m).
Proof.
  intros Hk. unfold jsmap_size.
  rewrite <- (length_fmap fst (jsmap_set k v m)), <- (length_fmap fst m).
  fold (jsmap_keys (jsmap_set k v m)). rewrite jsmap_keys_set_fresh by done.
  rewrite length_app. simpl. unfold jsmap_keys. lia.
Qed.

(** With distinct keys, an entry of the list is what [get] returns. *)
Lemma jsmap_elem_get k v m : NoDup (jsmap_keys m) → (k, v) ∈ m → jsmap_get k m = Some v.
Proof.
  unfold jsmap_keys. induction m as [|[k0 v0] m IH]; simpl; intros Hnd Hin.
  - by apply elem_of_nil in Hin.
  - apply NoDup_cons in Hnd as [Hk0 Hnd]. apply elem_of_cons in Hin as [?|Hin]; simplify_eq.
    + by case_decide.
    + case_decide; [subst|by auto]. exfalso. apply Hk0.
      apply list_elem_of_fmap. by exists (k, v).
Qed.

End jsmap_facts.

Lemma jsset_has_true x (s : list string) : jsset_has x s = true ↔ x ∈ s.
Proof. unfold jsset_has. apply bool_decide_eq_true. Qed.

Lemma jsset_has_false x (s : list string) : jsset_has x s = false ↔ x ∉ s.
Proof. unfold jsset_has. apply bool_decide_eq_false. Qed.

Lemma jsmap_keys_set_add {V : Type} k (v : V) (m : list (string * V)) :
  jsmap_keys (jsmap_set k v m) = jsset_add k (jsmap_keys m).
Proof.
  rewrite jsmap_keys_set. unfold jsset_add. destruct (jsmap_has k m) eqn:E.
  - apply jsmap_has_keys, jsset_has_true in E. by rewrite E.
  - apply jsmap_has_false, jsset_has_false in E. by rewrite E.
Qed.

Lemma jsmap_set_fresh {V : Type} k (v : V) (m : list (string * V)) :
  k ∉ jsmap_keys m → jsmap_set k v m = m ++ [(k, v)].
Proof.
  unfold jsmap_keys. induction m as [|[k0 v0] m IH]; csimpl; [done|].
  intros [Hne Hk]%not_elem_of_cons. case_decide; [congruence|]. by rewrite IH.
Qed.

Lemma jsset_add_fresh x (s : list string) : x ∉ s → jsset_add x s = s ++ [x].
Proof. intros Hx. unfold jsset_add. apply jsset_has_false in Hx. by rewrite Hx. Qed.

Lemma jsset_add_elem x y (s : list string) : y ∈ jsset_add x s ↔ y = x ∨ y ∈ s.
Proof.
  unfold jsset_add. destruct (jsset_has x s) eqn:E.
  - apply jsset_has_true in E. naive_solver.
  - rewrite elem_of_app, list_elem_of_singleton. naive_solver.
Qed.

Lemma jsset_add_NoDup x (s : list string) : NoDup s → NoDup (jsset_add x s).
Proof.
  intros Hnd. unfold jsset_add. destruct (jsset_has x s) eqn:E; [done|].
  apply jsset_has_false in E. apply NoDup_app. split_and!; [done| |apply NoDup_singleton].
  by intros y Hy ->%list_elem_of_singleton.
Qed.

(** ** Strings *)

Lemma append_String (c : Ascii.ascii) (s t : string) :
  String c s +:+ t = String c (s +:+ t).
Proof. reflexivity. Qed.

Lemma append_empty (t : string) : "" +:+ t = t.
Proof. reflexivity. Qed.

Lemma prefix_spec (q s : string) :
  String.prefix q s = true ↔ ∃ post, s = q +:+ post.
Proof.
  revert s. induction q as [|c q IH]; intros s.
  - destruct s; simpl; split; eauto.
  - destruct s as [|c' s]; simpl.
    + split; [done | by intros [? ?]].
    + destruct (Ascii.ascii_dec c c') as [->|Hc].
      * rewrite IH. split; intros [post Hp]; exists post;
          rewrite append_String in *; congruence.
      * split; [done | intros [post Hp]; rewrite append_String in Hp; congruence].
Qed.

(** [includes] finds exactly the substrings. *)
Lemma strIncludes_spec (s q : string) :
  strIncludes s q = true ↔ ∃ pre post, s = pre +:+ q +:+ post.
Proof.
  induction s as [|c s IH].
  - change (strIncludes "" q) with (String.prefix q "" || false).
    rewrite orb_false_r, prefix_spec. split.
    + intros [post Hp]. by exists "", post.
    + intros (pre & post & Hp). destruct pre; [by exists post|done].
  - change (strIncludes (String c s) q)
      with (String.prefix q (String c s) || strIncludes s q).
    rewrite orb_true_iff, prefix_spec, IH. split.
    + intros [[post Hp]|(pre & post & Hp)].
      * by exists "", post.
      * exists (String c pre), post. rewrite append_String. by rewrite Hp.
    + intros (pre & post & Hp). destruct pre as [|c' pre].
      * left. by exists post.
      * right. exists pre, post. rewrite append_String in Hp. congruence.
Qed.

Lemma strIncludes_empty (s : string) : strIncludes s "" = true.
Proof. apply strIncludes_spec. by exists "", s. Qed.


(** ** The graph store *)

Section store_facts.
Context {num : Type}.
Implicit Types (g : Graph num) (a b x y : string) (w : num).

Lemma nodes_has g x : jsmap_has x (adjacency g) = true ↔ x ∈ nodes g.
Proof. apply jsmap_has_keys. Qed.

Lemma neighbors_absent g x : x ∉ nodes g → neighbors g x = [].
Proof. intros Hx. unfold neighbors. apply jsmap_get_None in Hx. by rewrite Hx. Qed.

Lemma degree_neighbors g x : degree g x = length (neighbors g x).
Proof.
  unfold degree, neighbors. destruct (jsmap_get x (adjacency g)); [|done].
  unfold jsmap_size, jsmap_keys. by rewrite length_fmap.
Qed.

Lemma weightOf_neighbors g x y : is_Some (weightOf g x y) ↔ y ∈ neighbors g x.
Proof.
  unfold weightOf, neighbors. destruct (jsmap_get x (adjacency g)) as [nbrs|]; simpl.
  - apply jsmap_get_is_Some.
  - split; [by intros [? ?] | by intros ?%elem_of_nil].
Qed.

Lemma nodeKey_stub a : a ≠ "" → nodeKey (stubNode (num:=num) a) = Ok a.
Proof. intros Ha. unfold nodeKey, stubNode. simpl. by case_decide. Qed.

Lemma nodeKey_nonempty (node : list (string * jsval num)) id :
  nodeKey node = Ok id → id ≠ "".
Proof.
  unfold nodeKey. destruct (nullish _ _) as [[| |[]|s| | |]|]; try done.
  case_decide; [done|]. by intros [= <-].
Qed.

(** What [addNode] writes. *)
Lemma addNode_Ok node g g' :
  addNode node g = Ok g' →
  ∃ id, nodeKey node = Ok id ∧
    adjacency g' =
      (if jsmap_has id (adjacency g) then adjacency g
       else adjacency g ++ [(id, [])]) ∧
    nodeData g' = jsmap_set id (spread [("id", JStr id)] node) (nodeData g).
Proof.
  unfold addNode. destruct (nodeKey node) as [id|] eqn:Hid; simpl; [|done].
  intros [= <-]. exists id. simpl. split_and!; try done.
  destruct (jsmap_has id (adjacency g)) eqn:E; [done|].
  apply jsmap_set_fresh. by apply jsmap_has_false.
Qed.

Lemma addNode_nodes node g g' id :
  addNode node g = Ok g' → nodeKey node = Ok id → nodes g' = jsset_add id (nodes g).
Proof.
  intros (id' & Hid & Hadj & _)%addNode_Ok Hk.
  assert (id' = id) as -> by congruence.
  unfold nodes, jsset_add. rewrite Hadj.
  destruct (jsmap_has id (adjacency g)) eqn:E.
  - apply jsmap_has_keys, jsset_has_true in E. by rewrite E.
  - apply jsmap_has_false, jsset_has_false in E. rewrite E.
    unfold jsmap_keys. by rewrite fmap_app.
Qed.

Lemma addNode_get node g g' x :
  addNode node g = Ok g' →
  jsmap_get x (adjacency g') = jsmap_get x (adjacency g) ∨
  (jsmap_get x (adjacency g') = Some [] ∧ jsmap_get x (adjacency g) = None).
Proof.
  intros (id & Hid & Hadj & _)%addNode_Ok. rewrite Hadj.
  destruct (jsmap_has id (adjacency g)) eqn:E; [by left|].
  apply jsmap_has_false in E. rewrite <- (jsmap_set_fresh id [] (adjacency g)) by done.
  rewrite jsmap_get_set. case_decide; [subst|by left].
  right. split; [done|]. by apply jsmap_get_None.
Qed.

Lemma addNode_neighbors node g g' x :
  addNode node g = Ok g' → neighbors g' x = neighbors g x.
Proof.
  intros Hadd. unfold neighbors.
  by destruct (addNode_get node g g' x Hadd) as [->|[-> ->]].
Qed.

Lemma addNode_weightOf node g g' x y :
  addNode node g = Ok g' → weightOf g' x y = weightOf g x y.
Proof.
  intros Hadd. unfold weightOf.
  by destruct (addNode_get node g g' x Hadd) as [->|[-> ->]].
Qed.

Lemma addNode_degree node g g' x :
  addNode node g = Ok g' → degree g' x = degree g x.
Proof. intros Hadd. by rewrite !degree_neighbors, (addNode_neighbors _ _ _ _ Hadd). Qed.

(** What [adjSet] writes. *)
Lemma adjSet_Ok a b w (adj adj' : list (string * list (string * num))) :
  adjSet a b w adj = Ok adj' →
  ∃ nbrs, jsmap_get a adj = Some nbrs ∧
    jsmap_keys adj' = jsmap_keys adj ∧
    ∀ x, jsmap_get x adj' =
         if decide (a = x) then Some (jsmap_set b w nbrs) else jsmap_get x adj.
Proof.
  unfold adjSet. destruct (jsmap_get a adj) as [nbrs|] eqn:E; [|done].
  intros [= <-]. exists nbrs. split_and!; [done| |].
  - apply jsmap_keys_set_present, jsmap_get_is_Some. by rewrite E.
  - intros x. apply jsmap_get_set.
Qed.

Lemma adjSet_present a b w (adj : list (string * list (string * num))) :
  a ∈ jsmap_keys adj → ∃ adj', adjSet a b w adj = Ok adj'.
Proof.
  intros [nbrs E]%jsmap_get_is_Some. unfold adjSet. rewrite E. by eexists.
Qed.

(** The first two lines of [addEdge]: the endpoint exists afterwards, and
    nothing else changes. *)
Lemma ensureNode_Ok a g g1 :
  ensureNode a g = Ok g1 →
  nodes g1 = jsset_add a (nodes g) ∧
  (∀ x, neighbors g1 x = neighbors g x) ∧
  (∀ x y, weightOf g1 x y = weightOf g x y) ∧
  (∀ x, x ≠ a → jsmap_get x (nodeData g1) = jsmap_get x (nodeData g)).
Proof.
  unfold ensureNode. destruct (jsmap_has a (adjacency g)) eqn:E.
  - intros [= <-]. split_and!; try done.
    unfold jsset_add. apply nodes_has, jsset_has_true in E. by rewrite E.
  - intros Hadd. destruct (addNode_Ok _ _ _ Hadd) as (id & Hid & _ & Hdata).
    assert (id = a) as ->.
    { unfold nodeKey, stubNode in Hid. simpl in Hid. by case_decide; simplify_eq. }
    split_and!.
    + by eapply addNode_nodes.
    + intros x. by eapply addNode_neighbors.
    + intros x y. by eapply addNode_weightOf.
    + intros x Hx. rewrite Hdata. by apply jsmap_get_set_ne.
Qed.

(** What [addEdge] writes: the endpoints are appended to the nodes when
    new, each endpoint is appended to the other's adjacency when new there,
    and the weight of the pair is set in both directions. *)
Lemma addEdge_Ok a b w meta g g' :
  addEdge a b w meta g = Ok g' →
  nodes g' = jsset_add b (jsset_add a (nodes g)) ∧
  (∀ x, neighbors g' x =
        (if decide (b = x) then jsset_add a else id)
          ((if decide (a = x) then jsset_add b else id) (neighbors g x))) ∧
  (∀ x y, weightOf g' x y =
          if decide ((x = a ∧ y = b) ∨ (x = b ∧ y = a)) then Some w
          else weightOf g x y).
Proof.
  unfold addEdge.
  destruct (ensureNode a g) as [g1|] eqn:E1; simpl; [|done].
  destruct (ensureNode b g1) as [g2|] eqn:E2; simpl; [|done].
  destruct (adjSet a b w (adjacency g2)) as [adj1|] eqn:E3; simpl; [|done].
  destruct (adjSet b a w adj1) as [adj2|] eqn:E4; simpl; [|done].
  intros [= <-].
  destruct (ensureNode_Ok _ _ _ E1) as (Hn1 & Hb1 & Hw1 & _).
  destruct (ensureNode_Ok _ _ _ E2) as (Hn2 & Hb2 & Hw2 & _).
  destruct (adjSet_Ok _ _ _ _ _ E3) as (na & Ha & Hk3 & Hg3).
  destruct (adjSet_Ok _ _ _ _ _ E4) as (nb & Hb & Hk4 & Hg4).
  assert (Hnbr : ∀ x, neighbors {| adjacency := adj2; nodeData := nodeData g2 |} x =
        (if decide (b = x) then jsset_add a else id)
          ((if decide (a = x) then jsset_add b else id) (neighbors g2 x))).
  { intros x. unfold neighbors at 1. simpl. rewrite Hg4.
    rewrite Hg3 in Hb. unfold neighbors.
    destruct (decide (b = x)) as [->|Hbx].
    - destruct (decide (a = x)) as [->|Hax]; simplify_eq.
      + rewrite Ha. by rewrite !jsmap_keys_set_add.
      + rewrite Hb. by rewrite jsmap_keys_set_add.
    - rewrite Hg3. destruct (decide (a = x)) as [->|Hax]; [|done].
      rewrite Ha. by rewrite jsmap_keys_set_add. }
  assert (Hwt : ∀ x y, weightOf {| adjacency := adj2; nodeData := nodeData g2 |} x y =
          if decide ((x = a ∧ y = b) ∨ (x = b ∧ y = a)) then Some w
          else weightOf g2 x y).
  { intros x y. unfold weightOf at 1. simpl. rewrite Hg4.
    rewrite Hg3 in Hb. unfold weightOf.
    destruct (decide (b = x)) as [->|Hbx]; simpl.
    - rewrite jsmap_get_set. destruct (decide (a = y)) as [->|Hay].
      + by rewrite decide_True by auto.
      + destruct (decide (a = x)) as [->|Hax]; simplify_eq.
        * rewrite jsmap_get_set. rewrite decide_False by done.
          rewrite decide_False by naive_solver. by rewrite Ha.
        * rewrite decide_False by naive_solver. by rewrite Hb.
    - rewrite Hg3. destruct (decide (a = x)) as [->|Hax]; simpl.
      + rewrite jsmap_get_set. destruct (decide (b = y)) as [->|Hby].
        * by rewrite decide_True by auto.
        * rewrite decide_False by naive_solver. by rewrite Ha.
      + by rewrite decide_False by naive_solver. }
  split_and!.
  - unfold nodes at 1. simpl. rewrite Hk4, Hk3. fold (nodes g2). by rewrite Hn2, Hn1.
  - intros x. rewrite Hnbr, Hb2, Hb1. done.
  - intros x y. rewrite Hwt, Hw2, Hw1. done.
Qed.

(** [addEdge] goes through whenever neither new endpoint is the empty id. *)
Lemma addEdge_succeeds a b w meta g :
  (a ∈ nodes g ∨ a ≠ "") → (b ∈ nodes g ∨ b ≠ "") →
  ∃ g', addEdge a b w meta g = Ok g'.
Proof.
  intros Ha Hb. unfold addEdge.
  assert (∃ g1, ensureNode a g = Ok g1) as [g1 E1].
  { unfold ensureNode. destruct (jsmap_has a (adjacency g)) eqn:E; [by eexists|].
    apply jsmap_has_false in E. destruct Ha as [|Ha]; [done|].
    unfold addNode. rewrite nodeKey_stub by done. simpl. by eexists. }
  rewrite E1. simpl. destruct (ensureNode_Ok _ _ _ E1) as (Hn1 & _).
  assert (∃ g2, ensureNode b g1 = Ok g2) as [g2 E2].
  { unfold ensureNode. destruct (jsmap_has b (adjacency g1)) eqn:E; [by eexists|].
    apply jsmap_has_false in E. destruct Hb as [Hb|Hb].
    - exfalso. apply E. fold (nodes g1). rewrite Hn1. apply jsset_add_elem. auto.
    - unfold addNode. rewrite nodeKey_stub by done. simpl. by eexists. }
  rewrite E2. simpl. destruct (ensureNode_Ok _ _ _ E2) as (Hn2 & _).
  assert (a ∈ nodes g2) as Ha2.
  { rewrite Hn2, Hn1. apply jsset_add_elem. right. apply jsset_add_elem. auto. }
  assert (b ∈ nodes g2) as Hb2.
  { rewrite Hn2. apply jsset_add_elem. auto. }
  destruct (adjSet_present a b w _ Ha2) as [adj1 E3]. rewrite E3. simpl.
  destruct (adjSet_Ok _ _ _ _ _ E3) as (_ & _ & Hk3 & _).
  destruct (adjSet_present b a w adj1) as [adj2 E4]; [by rewrite Hk3|].
  rewrite E4. simpl. by eexists.
Qed.

Lemma newGraph_wellFormed : wellFormed (newGraph (num:=num)).
Proof.
  split; simpl.
  - apply NoDup_nil_2.
  - intros a. apply NoDup_nil_2.
  - intros a b Hb. by apply elem_of_nil in Hb.
  - done.
Qed.

Lemma addNode_wellFormed node g g' :
  wellFormed g → addNode node g = Ok g' → wellFormed g'.
Proof.
  intros [Hn Hi Hc Hs] Hadd.
  destruct (addNode_Ok _ _ _ Hadd) as (id & Hid & _).
  split.
  - rewrite (addNode_nodes _ _ _ _ Hadd Hid). by apply jsset_add_NoDup.
  - intros a. by rewrite (addNode_neighbors _ _ _ _ Hadd).
  - intros a b. rewrite (addNode_neighbors _ _ _ _ Hadd), (addNode_nodes _ _ _ _ Hadd Hid).
    intros Hb. apply jsset_add_elem. right. by eapply Hc.
  - intros a b. by rewrite !(addNode_weightOf _ _ _ _ _ Hadd).
Qed.

Lemma addEdge_wellFormed a b w meta g g' :
  wellFormed g → addEdge a b w meta g = Ok g' → wellFormed g'.
Proof.
  intros [Hn Hi Hc Hs] (Hnodes & Hnbrs & Hwt)%addEdge_Ok.
  split.
  - rewrite Hnodes. by do 2 apply jsset_add_NoDup.
  - intros x. rewrite Hnbrs. repeat case_decide; simpl; repeat apply jsset_add_NoDup; done.
  - intros x y. rewrite Hnbrs, Hnodes. intros Hy.
    assert (y ∈ neighbors g x ∨ y = a ∨ y = b) as [Hy'|Hy'].
    { repeat case_decide; simpl in Hy; repeat (apply jsset_add_elem in Hy as [->|Hy]); auto. }
    + apply jsset_add_elem. right. apply jsset_add_elem. right. by eapply Hc.
    + apply jsset_add_elem. destruct Hy'; [right|by left]. apply jsset_add_elem. by left.
  - intros x y. rewrite !Hwt. rewrite Hs.
    repeat case_decide; naive_solver.
Qed.

Theorem Built_wellFormed g : Built g → wellFormed g.
Proof.
  induction 1 as [|node g g' _ IH Hadd|a b w meta g g' _ IH Hadd|g data _ IH].
  - apply newGraph_wellFormed.
  - by eapply addNode_wellFormed.
  - by eapply addEdge_wellFormed.
  - destruct IH as [Hn Hi Hc Hs]. by split.
Qed.

End store_facts.

(** ** [addNode] *)

Section spread_facts.
Context {num : Type}.
Implicit Types (a b : list (string * jsval num)).

Lemma spread_keys a b k :
  k ∈ jsmap_keys (spread a b) ↔ k ∈ jsmap_keys a ∨ k ∈ jsmap_keys b.
Proof.
  unfold spread. revert a. induction b as [|[k0 v0] b IH]; intros a; simpl.
  - change (jsmap_keys (@nil (string * jsval num))) with (@nil string).
    rewrite elem_of_nil. naive_solver.
  - rewrite IH, jsmap_keys_set_elem.
    change (jsmap_keys ((k0, v0) :: b)) with (k0 :: jsmap_keys b).
    rewrite elem_of_cons. naive_solver.
Qed.

End spread_facts.

(** C6, as the code has it. [addNode] stores [{ id, ...node }] in place of
    the record kept for the id: the stored record has the key [id] and the
    keys of the new record and no others, so a key that only the previous
    record had (a [communityId]) is gone; the records of other ids are
    untouched; the adjacency gets an empty entry, appended, only when the
    id is new, and is otherwise left as it is. *)
Theorem addNode_replaces_record {num : Type} (g : Graph num)
  (node : list (string * jsval num)) (id : string) :
  nodeKey node = Ok id →
  ∃ g', addNode node g = Ok g' ∧
    jsmap_get id (nodeData g') = Some (spread [("id", JStr id)] node) ∧
    (∀ k, k ∈ jsmap_keys (spread [("id", JStr id)] node) ↔
          k = "id" ∨ k ∈ jsmap_keys node) ∧
    (∀ x, x ≠ id → jsmap_get x (nodeData g') = jsmap_get x (nodeData g)) ∧
    adjacency g' =
      (if decide (id ∈ nodes g) then adjacency g else adjacency g ++ [(id, [])]) ∧
    (∀ x, neighbors g' x = neighbors g x).
Proof.
  intros Hid. unfold addNode. rewrite Hid. simpl. eexists. split; [done|].
  set (g' := {| adjacency := _; nodeData := _ |}).
  assert (Hadd : addNode node g = Ok g') by (unfold addNode; by rewrite Hid).
  split_and!; simpl.
  - apply jsmap_get_set_eq.
  - intros k. rewrite spread_keys. unfold jsmap_keys at 1. simpl.
    by rewrite list_elem_of_singleton.
  - intros x Hx. by apply jsmap_get_set_ne.
  - destruct (jsmap_has id (adjacency g)) eqn:E.
    + apply nodes_has in E. by rewrite decide_True.
    + apply jsmap_has_false in E. rewrite decide_False by done.
      by apply jsmap_set_fresh.
  - intros x. by eapply addNode_neighbors.
Qed.

Lemma addNode_replaces_record_witness :
  ∃ g', addNode [("id", JStr "a"); ("name", JStr "New")] Examples.labelled = Ok g' ∧
    jsmap_get "communityId" (dataOf g' "a") = None.
Proof.
  destruct (addNode_replaces_record Examples.labelled
              [("id", JStr "a"); ("name", JStr "New")] "a" eq_refl)
    as (g' & Hadd & Hrec & _).
  exists g'. split; [exact Hadd|]. unfold dataOf. rewrite Hrec. reflexivity.
Defined.

(** C6, as stated, fails: a [communityId] assigned to a node does not
    survive a second [addNode] for the same id. *)
Lemma addNode_drops_communityId :
  jsmap_get "communityId" (dataOf Examples.labelled "a") = Some (JStr "C1") ∧
  ∃ g', addNode [("id", JStr "a"); ("name", JStr "New")] Examples.labelled = Ok g' ∧
    jsmap_get "communityId" (dataOf g' "a") = None ∧
    jsmap_get "name" (dataOf g' "a") = Some (JStr "New").
Proof. split; [reflexivity|]. eexists. split; [reflexivity|]. split; reflexivity. Qed.

(** ** [addEdge], [neighbors], [degree] and [edges] *)

Section edge_facts.
Context {num : Type}.
Implicit Types (g : Graph num) (a b x y : string) (w : num).

(** After [addEdge(a, b, w)] each endpoint is a neighbor of the other and
    the pair has weight [w] in both directions. *)
Lemma addEdge_symmetric a b w meta g g' :
  addEdge a b w meta g = Ok g' →
  b ∈ neighbors g' a ∧ a ∈ neighbors g' b ∧
  weightOf g' a b = Some w ∧ weightOf g' b a = Some w.
Proof.
  intros (_ & _ & Hwt)%addEdge_Ok.
  assert (weightOf g' a b = Some w) as Hab by (rewrite Hwt; apply decide_True; auto).
  assert (weightOf g' b a = Some w) as Hba by (rewrite Hwt; apply decide_True; auto).
  split_and!; try done; apply weightOf_neighbors; by eexists.
Qed.

(** A second [addEdge] for the same pair, in either order, replaces the
    weight and adds no entry. *)
Lemma addEdge_overwrites a b w1 w2 m1 m2 g g1 g2 :
  addEdge a b w1 m1 g = Ok g1 →
  addEdge a b w2 m2 g1 = Ok g2 ∨ addEdge b a w2 m2 g1 = Ok g2 →
  weightOf g2 a b = Some w2 ∧ weightOf g2 b a = Some w2 ∧
  nodes g2 = nodes g1 ∧ (∀ x, neighbors g2 x = neighbors g1 x).
Proof.
  intros H1 H2. destruct (addEdge_symmetric _ _ _ _ _ _ H1) as (Hb & Ha & _).
  assert (∀ x (l : list string), x ∈ l → jsset_add x l = l) as Hadd.
  { intros x l Hx. unfold jsset_add. apply jsset_has_true in Hx. by rewrite Hx. }
  assert (a ∈ nodes g1 ∧ b ∈ nodes g1) as [Han Hbn].
  { apply addEdge_Ok in H1 as (-> & _). rewrite !jsset_add_elem. auto. }
  destruct H2 as [H2|H2]; apply addEdge_Ok in H2 as (Hn & Hnb & Hwt).
  - split_and!.
    + rewrite Hwt. apply decide_True; auto.
    + rewrite Hwt. apply decide_True; auto.
    + rewrite Hn, (Hadd a) by done. by apply Hadd.
    + intros x. rewrite Hnb. repeat case_decide; subst; simpl; rewrite ?Hadd; try done.
      by rewrite Hadd.
  - split_and!.
    + rewrite Hwt. apply decide_True; auto.
    + rewrite Hwt. apply decide_True; auto.
    + rewrite Hn, (Hadd b) by done. by apply Hadd.
    + intros x. rewrite Hnb. repeat case_decide; subst; simpl; rewrite ?Hadd; try done.
      by rewrite Hadd.
Qed.

(** A self-loop is one adjacency entry of its node. *)
Lemma addEdge_self_loop a w meta g g' :
  addEdge a a w meta g = Ok g' →
  a ∈ neighbors g' a ∧ weightOf g' a a = Some w ∧
  neighbors g' a = jsset_add a (neighbors g a) ∧
  degree g' a = (if decide (a ∈ neighbors g a) then degree g a else S (degree g a)).
Proof.
  intros Hadd. destruct (addEdge_symmetric _ _ _ _ _ _ Hadd) as (Ha & _ & Hw & _).
  apply addEdge_Ok in Hadd as (_ & Hnb & _).
  assert (neighbors g' a = jsset_add a (neighbors g a)) as Hn.
  { rewrite Hnb. rewrite !decide_True by done.
    unfold jsset_add at 1. 
    assert (jsset_has a (jsset_add a (neighbors g a)) = true) as ->; [|done].
    apply jsset_has_true, jsset_add_elem. auto. }
  split_and!; try done.
  rewrite !degree_neighbors, Hn. unfold jsset_add.
  case_decide as Hin.
  - apply jsset_has_true in Hin. by rewrite Hin.
  - apply jsset_has_false in Hin. rewrite Hin, length_app. simpl. lia.
Qed.

End edge_facts.

(** ** [edges] *)

Lemma ltb_total (a b : string) : String.ltb a b = false → String.ltb b a = false → a = b.
Proof.
  unfold String.ltb. rewrite (String.compare_antisym b a).
  destruct (String.compare a b) eqn:E; simpl; try done.
  intros _ _. by apply String.compare_eq_iff.
Qed.

Lemma ltb_asym (a b : string) : String.ltb a b = true → String.ltb b a = false.
Proof.
  unfold String.ltb. rewrite (String.compare_antisym b a).
  by destruct (String.compare a b).
Qed.

(** The key does not depend on the order of the pair. *)
Lemma edgeKey_sym (a b : string) : edgeKey a b = edgeKey b a.
Proof.
  unfold edgeKey. destruct (String.ltb a b) eqn:Eab.
  - by rewrite (ltb_asym a b Eab).
  - destruct (String.ltb b a) eqn:Eba; [done|]. by rewrite (ltb_total a b Eab Eba).
Qed.

Lemma noBar_String (c : Ascii.ascii) (s : string) :
  noBar (String c s) → String.prefix "|" (String c s) = false ∧ noBar s.
Proof.
  unfold noBar.
  change (strIncludes (String c s) "|")
    with (String.prefix "|" (String c s) || strIncludes s "|").
  by intros [Hp Hs]%orb_false_iff.
Qed.

(** Without a separator in the first parts, a key splits in one way. *)
Lemma bar_split_inj (x x' y y' : string) :
  noBar x → noBar x' → x +:+ "|" +:+ y = x' +:+ "|" +:+ y' → x = x' ∧ y = y'.
Proof.
  revert x'. induction x as [|c x IH]; intros [|c' x'] Hx Hx' Heq;
    cbv [String.append] in Heq; fold String.append in Heq.
  - by simplify_eq.
  - injection Heq as <- Heq.
    destruct (noBar_String _ _ Hx') as [Hp _]. simpl in Hp. by destruct x'.
  - injection Heq as -> Heq.
    destruct (noBar_String _ _ Hx) as [Hp _]. simpl in Hp. by destruct x.
  - injection Heq as -> Heq.
    destruct (noBar_String _ _ Hx) as [_ Hx1]. destruct (noBar_String _ _ Hx') as [_ Hx1'].
    by destruct (IH x' Hx1 Hx1' Heq) as [-> ->].
Qed.

(** On ids without the separator, equal keys mean the same unordered pair. *)
Lemma edgeKey_inj (a b c d : string) :
  noBar a → noBar b → noBar c → noBar d →
  edgeKey a b = edgeKey c d → (a = c ∧ b = d) ∨ (a = d ∧ b = c).
Proof.
  intros Ha Hb Hc Hd. unfold edgeKey.
  destruct (String.ltb a b), (String.ltb c d); intros Heq;
    apply bar_split_inj in Heq as [-> ->]; auto.
Qed.

Section edges_facts.
Context {num : Type}.
Implicit Types (g : Graph num) (a b : string) (e : string * string).

Lemma edges_flat g : edges g = (fold_left edgesStep (directedPairs g) ([], [])).2.
Proof.
  unfold edges, directedPairs. f_equal. generalize (@nil string, @nil (string * string)).
  induction (adjacency g) as [|[a nbrs] adj IH]; intros st; [done|].
  cbn [fold_left]. rewrite IH. csimpl. rewrite fold_left_app. f_equal.
  generalize (jsmap_keys nbrs). clear. intros ks. revert st.
  induction ks as [|b ks IH]; intros st; [done|]. csimpl. by rewrite IH.
Qed.

Lemma directedPairs_elem g a b :
  wellFormed g → (a, b) ∈ directedPairs g ↔ b ∈ neighbors g a.
Proof.
  intros Hwf. unfold directedPairs, neighbors. rewrite list_elem_of_bind. split.
  - intros ([a' nbrs] & Hin & Hentry). apply list_elem_of_fmap in Hin as (b' & [= -> ->] & Hb).
    simpl in Hb. rewrite (jsmap_elem_get a' nbrs (adjacency g)); [done| |done].
    apply Hwf.
  - destruct (jsmap_get a (adjacency g)) as [nbrs|] eqn:E; [|by intros ?%elem_of_nil].
    intros Hb. exists (a, nbrs). split; [|by apply jsmap_get_Some_elem].
    apply list_elem_of_fmap. by exists b.
Qed.

(** What the loops of [edges()] keep: the keys seen are the keys of the
    pairs emitted, no key is seen twice, every pair emitted was visited and
    every pair visited has its key seen. *)
Lemma edgesStep_fold (l : list (string * string)) :
  let st := fold_left edgesStep l ([], []) in
  st.1 = pairKey <$> st.2 ∧ NoDup st.1 ∧
  (∀ e, e ∈ st.2 → e ∈ l) ∧ (∀ e, e ∈ l → pairKey e ∈ st.1).
Proof.
  induction l as [|e l IH] using rev_ind; simpl.
  - split_and!; [done | apply NoDup_nil_2 | done | by intros e ?%elem_of_nil].
  - rewrite fold_left_app. cbn [fold_left].
    destruct (fold_left edgesStep l ([], [])) as [seen all]. simpl in IH.
    destruct IH as (Hkeys & Hnd & Hsub & Hseen).
    unfold edgesStep, edgesVisit. simpl. fold (pairKey e).
    destruct (jsset_has (pairKey e) seen) eqn:E; simpl.
    + apply jsset_has_true in E. split_and!; [done..| |].
      * intros e' He'. apply elem_of_app. left. auto.
      * intros e' [He'| ->%list_elem_of_singleton]%elem_of_app; auto.
    + apply jsset_has_false in E. rewrite (jsset_add_fresh _ _ E). split_and!.
      * rewrite fmap_app, Hkeys. by destruct e.
      * apply NoDup_app. split_and!; [done| |apply NoDup_singleton].
        by intros k Hk ->%list_elem_of_singleton.
      * intros e' [He'|He']%elem_of_app; apply elem_of_app; [left; auto|].
        right. apply list_elem_of_singleton in He'. subst. destruct e; set_solver.
      * intros e' [He'| ->%list_elem_of_singleton]%elem_of_app; apply elem_of_app;
          [left; auto | right; set_solver].
Qed.

(** On every built graph [edges()] emits adjacent pairs only, and no
    unordered pair twice. *)
Lemma edges_at_most_once g :
  wellFormed g →
  NoDup (edges g) ∧
  (∀ a b, (a, b) ∈ edges g → b ∈ neighbors g a) ∧
  (∀ a b, a ≠ b → (a, b) ∈ edges g → (b, a) ∉ edges g).
Proof.
  intros Hwf. rewrite edges_flat.
  destruct (edgesStep_fold (directedPairs g)) as (Hkeys & Hnd & Hsub & _).
  destruct (fold_left edgesStep (directedPairs g) ([], [])) as [seen all]. simpl in *.
  rewrite Hkeys in Hnd. split_and!.
  - by eapply NoDup_fmap_1.
  - intros a b Hab. by apply directedPairs_elem, Hsub.
  - intros a b Hne [i Hi]%list_elem_of_lookup [j Hj]%list_elem_of_lookup.
    assert (i = j) as ->.
    { eapply (NoDup_lookup _ _ _ _ Hnd); rewrite list_lookup_fmap.
      - by rewrite Hi.
      - rewrite Hj. simpl. f_equal. apply edgeKey_sym. }
    congruence.
Qed.

(** When no id contains the separator, [edges()] emits every adjacent
    unordered pair, in one of its two orders. *)
Lemma edges_exactly_once g a b :
  wellFormed g → (∀ x, x ∈ nodes g → noBar x) →
  b ∈ neighbors g a → (a, b) ∈ edges g ∨ (b, a) ∈ edges g.
Proof.
  intros Hwf Hbar Hab.
  assert (a ∈ nodes g) as Ha.
  { destruct (decide (a ∈ nodes g)) as [|Hn]; [done|].
    rewrite (neighbors_absent g a Hn) in Hab. by apply elem_of_nil in Hab. }
  assert (b ∈ nodes g) as Hb by (by eapply wf_closed).
  destruct (edges_at_most_once g Hwf) as (_ & Hadj & _).
  rewrite edges_flat in *.
  destruct (edgesStep_fold (directedPairs g)) as (Hkeys & _ & _ & Hseen).
  destruct (fold_left edgesStep (directedPairs g) ([], [])) as [seen all]. simpl in *.
  apply directedPairs_elem in Hab; [|done].
  specialize (Hseen (a, b) Hab). rewrite Hkeys in Hseen.
  apply list_elem_of_fmap in Hseen as ([c d] & Hk & Hcd).
  specialize (Hadj c d Hcd).
  assert (c ∈ nodes g) as Hc.
  { destruct (decide (c ∈ nodes g)) as [|Hn]; [done|].
    rewrite (neighbors_absent g c Hn) in Hadj. by apply elem_of_nil in Hadj. }
  assert (d ∈ nodes g) as Hd by (by eapply wf_closed).
  unfold pairKey in Hk. simpl in Hk.
  destruct (edgeKey_inj a b c d) as [[-> ->]|[-> ->]]; auto.
Qed.

End edges_facts.

(** ** [edges] on ids that contain the separator *)

Lemma build_Built (es : list (string * string)) (g0 g : Graph QArith_base.Q) :
  Built g0 →
  foldl (λ r e, g ← r; addEdge e.1 e.2 (QArith_base.inject_Z 1) [] g) (Ok g0) es = Ok g →
  Built g.
Proof.
  revert g0. induction es as [|e es IH]; simpl; intros g0 Hb Hg.
  - by simplify_eq.
  - destruct (addEdge e.1 e.2 (QArith_base.inject_Z 1) [] g0) as [g1|msg] eqn:E; simpl in Hg.
    + eapply IH; [|done]. by eapply Built_addEdge.
    + exfalso. clear -Hg. induction es as [|e' es IH]; simpl in Hg; [done|auto].
Qed.

(** C3 at an input where it fails. The pairs [("x|y", "z")] and
    [("x", "y|z")] have the same key ["x|y|z"] in [edges()]. Submitting the
    second pair again with weight 2 overwrites its weight, symmetrically,
    yet [edges()] lists the first pair only: the re-submitted pair is
    emitted zero times, not once. *)
Theorem edges_misses_resubmitted_pair :
  addEdge "x" "y|z" (QArith_base.inject_Z 2) [] Examples.clash = Ok Examples.clashAgain ∧
  Built Examples.clash ∧ Built Examples.clashAgain ∧
  weightOf Examples.clash "x" "y|z" = Some (QArith_base.inject_Z 1) ∧
  weightOf Examples.clashAgain "x" "y|z" = Some (QArith_base.inject_Z 2) ∧
  weightOf Examples.clashAgain "y|z" "x" = Some (QArith_base.inject_Z 2) ∧
  neighbors Examples.clashAgain "x" = ["y|z"] ∧
  neighbors Examples.clashAgain "y|z" = ["x"] ∧
  edgeKey "x|y" "z" = edgeKey "x" "y|z" ∧
  edges Examples.clashAgain = [("x|y", "z")].
Proof.
  assert (Built Examples.clash) as Hb.
  { apply (build_Built [("x|y", "z"); ("x", "y|z")] newGraph); [apply Built_new|].
    vm_compute. reflexivity. }
  assert (addEdge "x" "y|z" (QArith_base.inject_Z 2) [] Examples.clash
          = Ok Examples.clashAgain) as Hadd by (vm_compute; reflexivity).
  split; [exact Hadd|]. split; [exact Hb|]. split.
  { eapply Built_addEdge; [exact Hb | exact Hadd]. }
  repeat split.
Qed.

(** C10 at an input where it fails. The self-loop on ["x|x"] has the key
    ["x|x|x|x"], which is also the key of the pair [("x", "x|x|x")]. After
    [addEdge("x|x", "x|x")] the node is its own neighbor and has degree 1,
    yet [edges()] does not list the self-loop. *)
Theorem edges_misses_self_loop :
  addEdge "x|x" "x|x" (QArith_base.inject_Z 1) [] (Examples.build [("x", "x|x|x")])
    = Ok Examples.clashLoop ∧
  Built Examples.clashLoop ∧
  neighbors Examples.clashLoop "x|x" = ["x|x"] ∧
  degree Examples.clashLoop "x|x" = 1 ∧
  edgeKey "x|x" "x|x" = edgeKey "x" "x|x|x" ∧
  edges Examples.clashLoop = [("x", "x|x|x")].
Proof.
  split; [vm_compute; reflexivity|]. split.
  { apply (build_Built [("x", "x|x|x"); ("x|x", "x|x")] newGraph); [apply Built_new|].
    vm_compute. reflexivity. }
  repeat split.
Qed.

(** ** [shortestPath] on equal endpoints *)

(** C9. For every node [n] of a graph, [shortestPath(n, n)] is the
    one-element path [[n]]. *)
Theorem shortestPath_same_node {num : Type} (g : Graph num) (n : string) :
  n ∈ nodes g → shortestPath g n n = Some (Some [n]).
Proof.
  intros Hn%nodes_has. unfold shortestPath, shortestPathFuel.
  rewrite Hn. simpl. by rewrite decide_True.
Qed.

Lemma shortestPath_same_node_witness :
  "B" ∈ nodes Examples.pathABCD ∧
  shortestPath Examples.pathABCD "B" "B" = Some (Some ["B"]).
Proof.
  assert ("B" ∈ nodes Examples.pathABCD) as Hn by (vm_compute; set_solver).
  split; [exact Hn|]. exact (shortestPath_same_node Examples.pathABCD "B" Hn).
Defined.

(** ** [degreeCentrality] *)

Lemma jsmap_get_fold_set {V : Type} (f : string → V) (l : list string)
  (m : list (string * V)) (k : string) :
  jsmap_get k (fold_left (λ r id, jsmap_set id (f id) r) l m) =
  if decide (k ∈ l) then Some (f k) else jsmap_get k m.
Proof.
  revert m. induction l as [|x l IH]; intros m; simpl.
  - done.
  - rewrite IH. destruct (decide (k ∈ l)) as [Hk|Hk].
    + rewrite decide_True; [done | by right].
    + rewrite jsmap_get_set. destruct (decide (x = k)) as [->|Hx].
      * rewrite decide_True; [done | left].
      * rewrite decide_False; [done|]. by intros [?|?]%elem_of_cons.
Qed.

(** C4, as the code has it. [degreeCentrality(normalize)] maps each node id
    to [degree(id) * scale] and has no other key; [scale] is 1 when
    [normalize] is false or the graph has at most one node, and [1/(N-1)]
    otherwise, [N] the number of nodes. On a graph whose only node is
    isolated the value of that node is its degree, 0, times 1: it is 0. *)
Theorem degreeCentrality_spec `{JsNumber num} (g : Graph num) (normalize : bool) :
  (∀ id, jsmap_get id (degreeCentrality normalize g) =
         if decide (id ∈ nodes g)
         then Some (mul (ofNat (degree g id)) (centralityScale normalize g))
         else None) ∧
  (normalize = false ∨ length (nodes g) ≤ 1 → centralityScale normalize g = one) ∧
  (normalize = true ∧ 1 < length (nodes g) →
   centralityScale normalize g = div one (ofNat (length (nodes g) - 1))) ∧
  (∀ a, nodes g = [a] → neighbors g a = [] →
        jsmap_get a (degreeCentrality true g) = Some (ofNat 0)).
Proof.
  assert (Hlen : jsmap_size (adjacency g) = length (nodes g)).
  { unfold jsmap_size, nodes, jsmap_keys. by rewrite length_fmap. }
  assert (Hget : ∀ n id, jsmap_get id (degreeCentrality n g) =
         if decide (id ∈ nodes g)
         then Some (mul (ofNat (degree g id)) (centralityScale n g))
         else None).
  { intros n id. unfold degreeCentrality.
    by rewrite (jsmap_get_fold_set (λ id, mul (ofNat (degree g id)) (centralityScale n g))). }
  assert (Hone : ∀ n, n = false ∨ length (nodes g) ≤ 1 → centralityScale n g = one).
  { intros n Hn. unfold centralityScale. rewrite Hlen. destruct Hn as [->|Hn]; [done|].
    rewrite bool_decide_eq_false_2 by lia. by rewrite andb_false_r. }
  split_and!; [apply Hget | apply Hone | |].
  - intros [-> Hn]. unfold centralityScale. rewrite Hlen.
    by rewrite bool_decide_eq_true_2.
  - intros a Hnodes Hnbrs. rewrite Hget, Hnodes.
    rewrite decide_True by left. rewrite degree_neighbors, Hnbrs. simpl.
    rewrite Hone; [|right; rewrite Hnodes; simpl; lia].
    by rewrite mul_0_one.
Qed.

Lemma degreeCentrality_spec_witness :
  nodes Examples.single = ["a"] ∧ neighbors Examples.single "a" = [] ∧
  jsmap_get "a" (degreeCentrality true Examples.single) = Some (ofNat 0).
Proof.
  split; [reflexivity|]. split; [reflexivity|].
  exact (proj2 (proj2 (proj2 (degreeCentrality_spec Examples.single true)))
           "a" eq_refl eq_refl).
Defined.

(** C4, as stated, fails: on the graph with a single isolated node the
    normalized centrality of that node is 0, not 1. *)
Lemma degreeCentrality_single_not_one :
  nodes Examples.single = ["a"] ∧ neighbors Examples.single "a" = [] ∧
  degree Examples.single "a" = 0 ∧
  centralityScale true Examples.single = one ∧
  jsmap_get "a" (degreeCentrality true Examples.single) ≠ Some one.
Proof. repeat split. vm_compute. discriminate. Qed.

(** ** Work credits *)

Section credit_facts.
Context `{JsNumber num}.

Lemma addAll_elem (xs s : list string) x : x ∈ addAll xs s ↔ x ∈ xs ∨ x ∈ s.
Proof.
  unfold addAll. revert s. induction xs as [|y xs IH]; intros s; simpl.
  - rewrite elem_of_nil. naive_solver.
  - rewrite IH, jsset_add_elem, elem_of_cons. naive_solver.
Qed.






End credit_facts.

(** ** Search *)

Section search_facts.
Context `{JsNumber num}.
Implicit Types (g : Graph num).

Lemma mapResult_Ok {A B : Type} (f : A → result B) (h : A → B) (l : list A) :
  (∀ a, a ∈ l → f a = Ok (h a)) → mapResult f l = Ok (h <$> l).
Proof.
  induction l as [|a l IH]; intros Hf; simpl; [done|].
  rewrite (Hf a) by left. simpl. rewrite IH; [done|]. intros b Hb. apply Hf. by right.
Qed.

(** Without a type filter and a limit, [search] returns the node objects of
    the nodes whose lower-cased name contains the lower-cased query, in the
    order of [nodes()]. *)
Lemma querySearch_matches g (query : string) (name : string → string) :
  (∀ id, id ∈ nodes g → searchName g id = Ok (name id)) →
  let ids := List.filter (λ id, strIncludes (name id) (toLowerCase query)) (nodes g) in
  querySearch g query None None =
    Ok ((λ id, createNodeObject id g (degreeCentrality true g)) <$> ids, length ids).
Proof.
  intros Hname ids. unfold querySearch.
  rewrite (mapResult_Ok _
    (λ id, if strIncludes (name id) (toLowerCase query)
           then Some (createNodeObject id g (degreeCentrality true g)) else None)).
  2:{ intros id Hid. unfold searchVisit. by rewrite (Hname id Hid). }
  simpl.
  assert (omap id
     ((λ id0, if strIncludes (name id0) (toLowerCase query)
              then Some (createNodeObject id0 g (degreeCentrality true g))
              else None) <$> nodes g) =
     (λ id, createNodeObject id g (degreeCentrality true g)) <$> ids) as ->.
  { unfold ids. clear. induction (nodes g) as [|x l IH]; csimpl; [done|].
    destruct (strIncludes (name x) (toLowerCase query)); csimpl; by rewrite IH. }
  by rewrite length_fmap.
Qed.

(** On the empty query every node matches. *)
Lemma querySearch_empty_query g (name : string → string) :
  (∀ id, id ∈ nodes g → searchName g id = Ok (name id)) →
  querySearch g "" None None =
    Ok ((λ id, createNodeObject id g (degreeCentrality true g)) <$> nodes g,
        length (nodes g)).
Proof.
  intros Hname. rewrite (querySearch_matches g "" name Hname).
  cbv zeta. change (toLowerCase "") with "".
  assert (List.filter (λ id, strIncludes (name id) "") (nodes g) = nodes g) as ->; [|done].
  clear. induction (nodes g) as [|x l IH]; [done|].
  change (List.filter (λ id, strIncludes (name id) "") (x :: l))
    with (if strIncludes (name x) "" then x :: List.filter (λ id, strIncludes (name id) "") l
          else List.filter (λ id, strIncludes (name id) "") l).
  by rewrite strIncludes_empty, IH.
Qed.

End search_facts.

(** C5 at inputs where it fails. On the graph with the one node named
    "Taylor Swift" the empty query and the query of one space both return
    that node, where the claim has zero matches; the queries "tay" and
    "tax" show the substring match at work. *)
Theorem search_blank_query_matches :
  nodes Examples.single = ["a"] ∧
  searchName Examples.single "a" = Ok "taylor swift" ∧
  (∃ found, querySearch Examples.single "" None None = Ok (found, 1)) ∧
  (∃ found, querySearch Examples.single " " None None = Ok (found, 1)) ∧
  (∃ found, querySearch Examples.single "tay" None None = Ok (found, 1)) ∧
  querySearch Examples.single "tax" None None = Ok ([], 0).
Proof.
  split; [reflexivity|]. split; [reflexivity|].
  split; [eexists; reflexivity|]. split; [eexists; reflexivity|].
  split; [eexists; reflexivity | reflexivity].
Qed.

(** ** Loops *)

Section iterate_facts.
Context {R S : Type} (body : S → flow R S).

Lemma iterate_more (n m : nat) (s : S) (r : R) :
  iterate body n s = Some r → n ≤ m → iterate body m s = Some r.
Proof.
  revert m s. induction n as [|n IH]; intros m s; simpl; [done|].
  intros Hr Hm. destruct m as [|m]; [lia|]. simpl.
  destruct (body s); [done|]. apply IH; [done | lia].
Qed.

(** A loop whose rounds keep an invariant and lower a measure returns
    within the measure plus one rounds, and what it returns is what a round
    that starts in the invariant returns. *)
Lemma iterate_total (Inv : S → Prop) (rounds : S → nat) (Post : R → Prop) :
  (∀ s s', Inv s → body s = Continue s' → Inv s' ∧ rounds s' < rounds s) →
  (∀ s r, Inv s → body s = Return r → Post r) →
  ∀ n s, Inv s → rounds s < n → ∃ r, iterate body n s = Some r ∧ Post r.
Proof.
  intros Hstep Hret. induction n as [|n IH]; intros s Hs Hn; [lia|]. simpl.
  destruct (body s) as [r|s'] eqn:E.
  - exists r. split; [done | by eapply Hret].
  - destruct (Hstep s s' Hs E) as [Hs' Hlt]. apply IH; [done | lia].
Qed.

End iterate_facts.

(** ** Walks, paths and their order *)

Section walk_facts.
Context {num : Type}.
Implicit Types (g : Graph num) (s x y v : string) (w p q : list string).

Lemma walk_last g s v w : walk g s v w → last w = Some v.
Proof. destruct 1; [done | apply last_snoc]. Qed.

Lemma walk_head g s v w : walk g s v w → head w = Some s.
Proof.
  induction 1 as [|x y w Hw IH Hy]; [done|].
  destruct w; [done|]. done.
Qed.

Lemma walk_length g s v w : walk g s v w → 0 < length w.
Proof. destruct 1; [simpl; lia | rewrite length_app; simpl; lia]. Qed.

Lemma walk_snoc_inv g s v w y :
  walk g s v (w ++ [y]) →
  v = y ∧ ((w = [] ∧ y = s) ∨ ∃ x, walk g s x w ∧ y ∈ neighbors g x).
Proof.
  remember (w ++ [y]) as wy eqn:Heq. destruct 1 as [|x y' w' Hw Hy].
  - destruct w as [|? [|]]; simplify_eq/=. auto.
  - apply app_inj_tail in Heq as [-> ->]. split; [done|]. right. eauto.
Qed.

Lemma walk_isPath g s v w : walk g s v w ↔ isPath g s v w.
Proof.
  split.
  - induction 1 as [|x y w Hw (Hh & Hl & Hadj) Hy].
    + split_and!; [done..|]. intros [|i] a b; simpl; [|done]. done.
    + split_and!.
      * destruct w; [done|]. done.
      * apply last_snoc.
      * intros i a b Ha Hb.
        destruct (decide (S i < length w)) as [Hi|Hi].
        -- rewrite lookup_app_l in Ha by lia. rewrite lookup_app_l in Hb by lia.
           by eapply Hadj.
        -- apply lookup_lt_Some in Hb as Hb'. rewrite length_app in Hb'. simpl in Hb'.
           assert (S i = length w) as Hi' by lia.
           rewrite lookup_app_l in Ha by lia.
           rewrite lookup_app_r in Hb by lia.
           replace (S i - length w) with 0 in Hb by lia. simpl in Hb. simplify_eq.
           rewrite last_lookup in Hl. rewrite <- Hi' in Hl. simpl in Hl.
           by simplify_eq.
  - revert v. induction w as [|y w IH] using rev_ind; intros v (Hh & Hl & Hadj).
    + done.
    + rewrite last_snoc in Hl. simplify_eq.
      destruct w as [|x w _] using rev_ind.
      * simpl in Hh. simplify_eq. apply walk_start.
      * apply (walk_step g s x). 
        -- apply IH. split_and!.
           ++ by destruct w.
           ++ apply last_snoc.
           ++ intros i a b Ha Hb. apply (Hadj i a b).
              ** apply lookup_lt_Some in Ha as Hi. by rewrite lookup_app_l.
              ** apply lookup_lt_Some in Hb as Hi. by rewrite lookup_app_l.
        -- apply (Hadj (length w) x v).
           ++ rewrite lookup_app_l by (rewrite length_app; simpl; lia).
              by rewrite list_lookup_middle.
           ++ rewrite lookup_app_r by (rewrite length_app; simpl; lia).
              rewrite length_app. simpl. by replace (S (length w) - (length w + 1)) with 0 by lia.
Qed.

(** *** Positions in an adjacency *)

Lemma indexOf_app_l x (l1 l2 : list string) :
  x ∈ l1 → indexOf x (l1 ++ l2) = indexOf x l1 ∧ indexOf x l1 < length l1.
Proof.
  induction l1 as [|y l1 IH]; simpl; [by intros ?%elem_of_nil|].
  intros Hx. case_decide; [lia|].
  apply elem_of_cons in Hx as [->|Hx]; [done|]. destruct (IH Hx). lia.
Qed.

Lemma indexOf_app_r x (l1 l2 : list string) :
  x ∉ l1 → indexOf x (l1 ++ x :: l2) = length l1.
Proof.
  induction l1 as [|y l1 IH]; simpl; intros Hx.
  - by rewrite decide_True.
  - apply not_elem_of_cons in Hx as [Hne Hx]. rewrite decide_False by done.
    by rewrite IH.
Qed.

Lemma indexOf_inj x y (l : list string) :
  x ∈ l → y ∈ l → indexOf x l = indexOf y l → x = y.
Proof.
  induction l as [|z l IH]; simpl; [by intros ?%elem_of_nil|].
  intros Hx Hy. repeat case_decide; subst; try done.
  intros [= Heq]. apply IH; [| |done].
  - by apply elem_of_cons in Hx as [->|].
  - by apply elem_of_cons in Hy as [->|].
Qed.

(** *** Choice sequences *)

Lemma pathCode_snoc g p x y :
  last p = Some x → pathCode g (p ++ [y]) = pathCode g p ++ [indexOf y (neighbors g x)].
Proof.
  induction p as [|a p IH]; [done|].
  destruct p as [|b p]; simpl.
  - by intros [= ->].
  - intros Hl. f_equal. apply IH. done.
Qed.

Lemma pathCode_length g p : length (pathCode g p) = length p - 1.
Proof.
  induction p as [|a p IH]; [done|].
  destruct p as [|b p]; [done|]. simpl in *. rewrite IH. lia.
Qed.

Lemma lexLt_irrefl (a : list nat) : ¬ lexLt a a.
Proof. induction a as [|x a IH]; simpl; [tauto|]. intros [?|[_ ?]]; [lia|done]. Qed.

Lemma lexLt_trans (a b c : list nat) : lexLt a b → lexLt b c → lexLt a c.
Proof.
  revert b c. induction a as [|x a IH]; intros [|y b] [|z c]; simpl; try done.
  intros [?|[-> Hab]] [?|[-> Hbc]]; [left; lia..|]. right. split; [done|]. by eapply IH.
Qed.

Lemma lexLt_app (a b c d : list nat) :
  length a = length b → lexLt a b → lexLt (a ++ c) (b ++ d).
Proof.
  revert b. induction a as [|x a IH]; intros [|y b]; simpl; try done.
  intros [= Hlen] [?|[-> Hab]]; [by left|]. right. split; [done|]. by apply IH.
Qed.

Lemma lexLt_snoc (a : list nat) (i j : nat) : i < j → lexLt (a ++ [i]) (a ++ [j]).
Proof. intros Hij. induction a as [|x a IH]; simpl; [by left | by right]. Qed.

(** *** The order in which the search finds paths *)

Lemma earlier_irrefl g p : ¬ earlier g p p.
Proof. intros [?|[_ ?%lexLt_irrefl]]; [lia|done]. Qed.

Lemma earlier_trans g p q r : earlier g p q → earlier g q r → earlier g p r.
Proof.
  intros [?|[Hl1 H1]] [?|[Hl2 H2]]; [left; lia..|].
  right. split; [lia|]. by eapply lexLt_trans.
Qed.

Lemma earlier_noLater g p q r : earlier g p q → noLater g q r → earlier g p r.
Proof.
  intros Hpq [Hqr|[Hl Hc]]; [by eapply earlier_trans|].
  destruct Hpq as [?|[Hl1 H1]]; [left; lia|].
  right. split; [lia|]. by rewrite <- Hc.
Qed.

Lemma noLater_length g p q : noLater g p q → length p ≤ length q.
Proof. intros [[?|[? _]]|[? _]]; lia. Qed.

Lemma earlier_length g p q : earlier g p q → length p ≤ length q.
Proof. intros [?|[? _]]; lia. Qed.

Lemma noLater_refl g p : noLater g p p.
Proof. by right. Qed.

(** Extending both paths keeps a strict order. *)
Lemma earlier_snoc g p q x y a b :
  last p = Some a → last q = Some b →
  earlier g p q → earlier g (p ++ [x]) (q ++ [y]).
Proof.
  intros Hp Hq [Hlt|[Hlen Hlex]].
  - left. rewrite !length_app. simpl. lia.
  - right. split; [rewrite !length_app; simpl; lia|].
    rewrite (pathCode_snoc g p a x Hp), (pathCode_snoc g q b y Hq).
    apply lexLt_app; [|done]. rewrite !pathCode_length. lia.
Qed.

(** Extending both paths from the same node by the same step keeps the order. *)
Lemma noLater_snoc g p q x a :
  last p = Some a → last q = Some a →
  noLater g p q → noLater g (p ++ [x]) (q ++ [x]).
Proof.
  intros Hp Hq [He|[Hlen Hc]].
  - left. by eapply earlier_snoc.
  - right. split; [rewrite !length_app; simpl; lia|].
    rewrite (pathCode_snoc g p a x Hp), (pathCode_snoc g q a x Hq). by rewrite Hc.
Qed.

(** Two steps out of the same path are ordered by the adjacency position. *)
Lemma earlier_siblings g p a x y :
  last p = Some a →
  indexOf x (neighbors g a) < indexOf y (neighbors g a) →
  earlier g (p ++ [x]) (p ++ [y]).
Proof.
  intros Hp Hlt. right. split; [by rewrite !length_app|].
  rewrite !(pathCode_snoc g p a _ Hp). by apply lexLt_snoc.
Qed.

(** Walks from the same node that make the same choices are the same walk. *)
Lemma walk_code_inj g s v v' w w' :
  walk g s v w → walk g s v' w' →
  length w = length w' → pathCode g w = pathCode g w' → w = w'.
Proof.
  intros Hw. revert v' w'. induction Hw as [|x y w Hw IH Hy]; intros v' w' Hw' Hlen Hc.
  - destruct Hw' as [|x' y' w' Hw' Hy']; [done|].
    rewrite length_app in Hlen. apply walk_length in Hw'. simpl in Hlen. lia.
  - destruct Hw' as [|x' y' w' Hw' Hy'].
    + rewrite length_app in Hlen. apply walk_length in Hw. simpl in Hlen. lia.
    + rewrite !length_app in Hlen. simpl in Hlen.
      rewrite (pathCode_snoc g w x y (walk_last _ _ _ _ Hw)) in Hc.
      rewrite (pathCode_snoc g w' x' y' (walk_last _ _ _ _ Hw')) in Hc.
      apply app_inj_tail in Hc as [Hc Hi].
      assert (w = w') as <- by (eapply IH; [done | lia | done]).
      assert (x = x') as <-.
      { apply walk_last in Hw, Hw'. congruence. }
      f_equal. f_equal. by eapply indexOf_inj.
Qed.

End walk_facts.

(** ** Breadth-first search *)

Section bfs_facts.
Context {num : Type} (g : Graph num) (s : string).
Implicit Types (tp : string → list string) (P scanned q : list string).
Implicit Types (u v x y nbr : string) (st : bfsState).

Lemma bfsInv_current tp P u scanned st :
  bfsInv g s tp P u scanned st → u ∈ visited st.
Proof. intros Hinv. rewrite (bi_split _ _ _ _ _ _ _ Hinv). set_solver. Qed.

Lemma bfsInv_processed tp P u scanned st x :
  bfsInv g s tp P u scanned st → x ∈ P → x ∈ visited st.
Proof. intros Hinv Hx. rewrite (bi_split _ _ _ _ _ _ _ Hinv). set_solver. Qed.

Lemma bfsInv_last tp P u scanned st v :
  bfsInv g s tp P u scanned st → v ∈ visited st → last (tp v) = Some v.
Proof. intros Hinv Hv. eapply walk_last, bi_walk; eauto. Qed.

(** A node still in the queue was found after the node being expanded. *)
Lemma bfsInv_queue_later tp P u scanned st x :
  bfsInv g s tp P u scanned st → x ∈ queue st → earlier g (tp u) (tp x).
Proof.
  intros Hinv [k Hk]%list_elem_of_lookup.
  apply (bi_sorted _ _ _ _ _ _ _ Hinv (length P) (length P + S k)); [lia| |].
  - rewrite (bi_split _ _ _ _ _ _ _ Hinv). by rewrite list_lookup_middle.
  - rewrite (bi_split _ _ _ _ _ _ _ Hinv). rewrite lookup_app_r by lia.
    by replace (length P + S k - length P) with (S k) by lia.
Qed.

(** An expanded node was found before the node being expanded. *)
Lemma bfsInv_processed_earlier tp P u scanned st x :
  bfsInv g s tp P u scanned st → x ∈ P → earlier g (tp x) (tp u).
Proof.
  intros Hinv [k Hk]%list_elem_of_lookup.
  apply (bi_sorted _ _ _ _ _ _ _ Hinv k (length P)).
  - by apply lookup_lt_Some in Hk.
  - rewrite (bi_split _ _ _ _ _ _ _ Hinv). apply lookup_app_l_Some. done.
  - rewrite (bi_split _ _ _ _ _ _ _ Hinv). by rewrite list_lookup_middle.
Qed.

(** Every walk to a node not yet visited is longer than the path to the
    node being expanded. *)
Lemma bfsInv_far tp P u scanned st y w :
  bfsInv g s tp P u scanned st →
  walk g s y w → y ∉ visited st → length (tp u) < length w.
Proof.
  intros Hinv Hw. induction Hw as [|x y w Hw IH Hy]; intros Hny.
  - exfalso. apply Hny. apply (bi_source _ _ _ _ _ _ _ Hinv).
  - rewrite length_app. simpl.
    destruct (decide (x ∈ visited st)) as [Hx|Hx]; [|specialize (IH Hx); lia].
    pose proof (noLater_length _ _ _ (bi_least _ _ _ _ _ _ _ Hinv x w Hx Hw)) as Hxw.
    rewrite (bi_split _ _ _ _ _ _ _ Hinv) in Hx.
    apply elem_of_app in Hx as [Hx|Hx].
    { exfalso. apply Hny. eapply bi_closed; eauto. }
    apply elem_of_cons in Hx as [->|Hx]; [lia|].
    pose proof (earlier_length _ _ _ (bfsInv_queue_later _ _ _ _ _ _ Hinv Hx)). lia.
Qed.

(** The start of the search. *)
Lemma bfsInv_init :
  s ∈ nodes g →
  bfsInv g s (λ _, [s]) [] s [] {| queue := []; visited := [s]; parent := [] |}.
Proof.
  intros Hs. split; simpl.
  - done.
  - apply NoDup_singleton.
  - by intros v ->%list_elem_of_singleton.
  - split; [by apply list_elem_of_singleton | done].
  - by intros v ->%list_elem_of_singleton.
  - intros v ->%list_elem_of_singleton. apply walk_start.
  - by intros x y ?%elem_of_nil.
  - by intros y ?%elem_of_nil.
  - intros [|i] [|j] a b Hij Ha Hb; simpl in *; try lia; done.
  - intros v w ->%list_elem_of_singleton Hw.
    pose proof (walk_length _ _ _ _ Hw) as Hlen.
    pose proof (walk_head _ _ _ _ Hw) as Hhd.
    destruct w as [|a [|b w]]; simpl in *; [lia| |].
    + simplify_eq. apply noLater_refl.
    + left. left. simpl. lia.
  - intros v _. simpl. lia.
Qed.

(** A neighbor that is already visited is passed over. *)
Lemma bfsInv_skip tp P u scanned st nbr :
  bfsInv g s tp P u scanned st → nbr ∈ visited st →
  bfsInv g s tp P u (scanned ++ [nbr]) st.
Proof.
  intros Hinv Hnbr. destruct Hinv. split; try done.
  - intros v Hv Hvs. destruct (bi_tree0 v Hv Hvs) as (p & ? & ? & Hp).
    exists p. split_and!; [done..|]. set_solver.
  - intros y [Hy| ->%list_elem_of_singleton]%elem_of_app; auto.
Qed.

(** When the adjacency of the current node has been scanned, the next node
    of the queue becomes the current one. *)
Lemma bfsInv_advance tp P u st u' q' :
  bfsInv g s tp P u (neighbors g u) st → queue st = u' :: q' →
  bfsInv g s tp (P ++ [u]) u' []
    {| queue := q'; visited := visited st; parent := parent st |}.
Proof.
  intros Hinv Hq. destruct Hinv. split; simpl; try done.
  - rewrite bi_split0, Hq. by rewrite <- app_assoc.
  - intros v Hv Hvs. destruct (bi_tree0 v Hv Hvs) as (p & ? & ? & Hp).
    exists p. split_and!; [done..|]. left. set_solver.
  - intros x y [Hx| ->%list_elem_of_singleton]%elem_of_app Hy; eauto.
  - by intros y ?%elem_of_nil.
Qed.

(** A neighbor that is not yet visited is marked, given its parent and
    queued; its path is the path of the current node and one more step. *)
Lemma bfsInv_discover tp P u scanned rest st nbr :
  wellFormed g →
  bfsInv g s tp P u scanned st →
  neighbors g u = scanned ++ nbr :: rest → nbr ∉ visited st →
  bfsInv g s (λ x, if decide (x = nbr) then tp u ++ [nbr] else tp x) P u
    (scanned ++ [nbr])
    {| queue := queue st ++ [nbr]; visited := jsset_add nbr (visited st);
       parent := jsmap_set nbr u (parent st) |}.
Proof.
  intros Hwf Hinv Hnbrs Hnew.
  set (tp' := λ x, if decide (x = nbr) then tp u ++ [nbr] else tp x).
  pose proof (bfsInv_current _ _ _ _ _ Hinv) as Hu.
  assert (Htp : ∀ v, v ∈ visited st → tp' v = tp v).
  { intros v Hv. unfold tp'. rewrite decide_False; [done|]. by intros ->. }
  assert (Htpn : tp' nbr = tp u ++ [nbr]) by (unfold tp'; by rewrite decide_True).
  assert (Hadj : nbr ∈ neighbors g u) by (rewrite Hnbrs; set_solver).
  assert (Hlast : ∀ v, v ∈ visited st → last (tp v) = Some v)
    by (intros; by eapply bfsInv_last).
  assert (Hnsc : nbr ∉ scanned) by (intros ?; apply Hnew; by eapply bi_scanned).
  assert (Hns : nbr ≠ s) by (intros ->; apply Hnew, Hinv).
  rewrite (jsset_add_fresh _ _ Hnew).
  split; simpl.
  - rewrite (bi_split _ _ _ _ _ _ _ Hinv). by rewrite <- app_assoc.
  - apply NoDup_app. split_and!; [apply Hinv | | apply NoDup_singleton].
    by intros x Hx ->%list_elem_of_singleton.
  - intros v [Hv| ->%list_elem_of_singleton]%elem_of_app.
    + by eapply bi_nodes.
    + eapply wf_closed; eauto.
  - destruct (bi_source _ _ _ _ _ _ _ Hinv) as [Hs Hts].
    split; [set_solver|]. by rewrite Htp.
  - intros v [Hv| ->%list_elem_of_singleton]%elem_of_app Hvs.
    + destruct (bi_tree _ _ _ _ _ _ _ Hinv v Hv Hvs) as (p & Hp & Htpv & Hside).
      exists p. split_and!.
      * rewrite jsmap_get_set_ne; [done|]. by intros ->.
      * rewrite (Htp v Hv), Htpv. f_equal. symmetry. apply Htp.
        destruct Hside as [Hp'|[-> _]]; [by eapply bfsInv_processed | done].
      * set_solver.
    + exists u. split_and!.
      * apply jsmap_get_set_eq.
      * by rewrite Htpn, (Htp u Hu).
      * right. set_solver.
  - intros v [Hv| ->%list_elem_of_singleton]%elem_of_app.
    + rewrite Htp by done. by eapply bi_walk.
    + rewrite Htpn. eapply walk_step; [by eapply bi_walk | done].
  - intros x y Hx Hy. apply elem_of_app. left. by eapply bi_closed.
  - intros y [Hy| ->%list_elem_of_singleton]%elem_of_app; apply elem_of_app.
    + left. by eapply bi_scanned.
    + right. set_solver.
  - intros i j a b Hij Ha Hb.
    apply lookup_snoc_Some in Hb as [[Hj Hb]|[Hj <-]].
    + rewrite lookup_app_l in Ha by lia.
      rewrite !Htp by (by eapply list_elem_of_lookup_2).
      exact (bi_sorted _ _ _ _ _ _ _ Hinv i j a b Hij Ha Hb).
    + rewrite lookup_app_l in Ha by lia.
      assert (a ∈ visited st) as Hav by (by eapply list_elem_of_lookup_2).
      rewrite Htpn, (Htp a Hav).
      destruct (decide (a = s)) as [->|Has].
      * left. rewrite (proj2 (bi_source _ _ _ _ _ _ _ Hinv)). rewrite length_app. simpl.
        pose proof (walk_length _ _ _ _ (bi_walk _ _ _ _ _ _ _ Hinv u Hu)). lia.
      * destruct (bi_tree _ _ _ _ _ _ _ Hinv a Hav Has) as (p & _ & -> & [Hp|[-> Hsc]]).
        -- eapply earlier_snoc.
           ++ apply Hlast. by eapply bfsInv_processed.
           ++ by apply Hlast.
           ++ by eapply bfsInv_processed_earlier.
        -- eapply earlier_siblings; [by apply Hlast|]. rewrite Hnbrs.
           destruct (indexOf_app_l a scanned (nbr :: rest) Hsc) as [-> Hlt].
           by rewrite indexOf_app_r.
  - intros v w [Hv| ->%list_elem_of_singleton]%elem_of_app Hw.
    + rewrite Htp by done. by eapply bi_least.
    + rewrite Htpn. inversion Hw as [Heq|x y w' Hw' Hy]; subst; [done|].
      destruct (decide (x ∈ visited st)) as [Hx|Hx].
      * pose proof (bi_least _ _ _ _ _ _ _ Hinv x w' Hx Hw') as Hxw.
        pose proof (Hlast x Hx) as Hlx.
        rewrite (bi_split _ _ _ _ _ _ _ Hinv) in Hx.
        apply elem_of_app in Hx as [Hx|Hx].
        { exfalso. apply Hnew. by eapply bi_closed. }
        apply elem_of_cons in Hx as [->|Hx].
        -- eapply noLater_snoc; [done | by eapply walk_last | done].
        -- left. eapply earlier_snoc; [by apply Hlast | by eapply walk_last |].
           eapply earlier_noLater; [by eapply bfsInv_queue_later | done].
      * left. left. rewrite !length_app. simpl.
        pose proof (bfsInv_far _ _ _ _ _ _ _ Hinv Hw' Hx). lia.
  - intros v [Hv| ->%list_elem_of_singleton]%elem_of_app; rewrite length_app; simpl.
    + rewrite Htp by done. pose proof (bi_short _ _ _ _ _ _ _ Hinv v Hv). lia.
    + rewrite Htpn, length_app. simpl. pose proof (bi_short _ _ _ _ _ _ _ Hinv u Hu). lia.
Qed.

Lemma bfsInv_size tp P u scanned st :
  bfsInv g s tp P u scanned st → length (visited st) ≤ length (nodes g).
Proof.
  intros Hinv. apply submseteq_length, NoDup_submseteq.
  - apply Hinv.
  - apply Hinv.
Qed.

(** [reconstructPath] follows the parents back to the source and returns
    the path by which the node was reached. *)
Lemma reconstruct_loop tp P u scanned st :
  bfsInv g s tp P u scanned st →
  ∀ n cur path sfx,
    cur ∈ visited st → length (tp cur) ≤ n → rev path = cur :: sfx →
    iterate (reconstructBody (parent st) s) n (cur, path) = Some (Some (tp cur ++ sfx)).
Proof.
  intros Hinv. induction n as [|n IH]; intros cur path sfx Hcur Hlen Hrev.
  - pose proof (walk_length _ _ _ _ (bi_walk _ _ _ _ _ _ _ Hinv cur Hcur)). lia.
  - simpl. unfold reconstructBody at 1. simpl.
    destruct (decide (cur = s)) as [->|Hne].
    + rewrite Hrev. by rewrite (proj2 (bi_source _ _ _ _ _ _ _ Hinv)).
    + destruct (bi_tree _ _ _ _ _ _ _ Hinv cur Hcur Hne) as (p & Hp & Htp & Hside).
      rewrite Hp. rewrite (IH p (path ++ [p]) (cur :: sfx)).
      * rewrite Htp. by rewrite <- app_assoc.
      * destruct Hside as [?|[-> _]];
          [by eapply bfsInv_processed | by eapply bfsInv_current].
      * rewrite Htp, length_app in Hlen. simpl in Hlen. lia.
      * rewrite rev_unit. by rewrite Hrev.
Qed.

Lemma reconstructPath_spec tp P u scanned st fuel v :
  bfsInv g s tp P u scanned st → v ∈ visited st → length (visited st) ≤ fuel →
  reconstructPath fuel (parent st) s v = Some (Some (tp v)).
Proof.
  intros Hinv Hv Hfuel. unfold reconstructPath.
  rewrite (reconstruct_loop _ _ _ _ _ Hinv fuel v [v] []); [by rewrite app_nil_r|done| |done].
  pose proof (bi_short _ _ _ _ _ _ _ Hinv v Hv). lia.
Qed.

(** The scan of the adjacency of the current node: either it reaches the
    target and returns its path, or it ends with the whole adjacency
    scanned, having queued every node it marked. *)
Lemma bfsScan_spec (t : string) (fuel : nat) P u :
  wellFormed g → length (nodes g) ≤ fuel →
  ∀ rest scanned tp st,
    neighbors g u = scanned ++ rest → bfsInv g s tp P u scanned st →
    t ∉ visited st →
    match bfsScan fuel s t u rest st with
    | Continue st' =>
        (∃ tp', bfsInv g s tp' P u (neighbors g u) st') ∧ (t ∉ visited st') ∧
        length (visited st') + length (queue st) =
        length (visited st) + length (queue st')
    | Return r => bfsFound g s t r
    end.
Proof.
  intros Hwf Hfuel. induction rest as [|nbr rest IH]; intros scanned tp st Hn Hinv Ht; simpl.
  - rewrite app_nil_r in Hn. rewrite Hn. split_and!; [by exists tp | done | done].
  - destruct (jsset_has nbr (visited st)) eqn:E.
    + apply jsset_has_true in E.
      apply (IH (scanned ++ [nbr]) tp st);
        [by rewrite <- app_assoc | by apply bfsInv_skip | done].
    + apply jsset_has_false in E.
      pose proof (bfsInv_discover _ _ _ _ _ _ _ Hwf Hinv Hn E) as Hinv'.
      destruct (decide (nbr = t)) as [->|Hne].
      * eexists. split_and!.
        -- apply (reconstructPath_spec _ _ _ _ _ fuel t Hinv').
           ++ simpl. apply jsset_add_elem. by left.
           ++ pose proof (bfsInv_size _ _ _ _ _ Hinv'). lia.
        -- apply (bi_walk _ _ _ _ _ _ _ Hinv'). simpl. apply jsset_add_elem. by left.
        -- intros w Hw. apply (bi_least _ _ _ _ _ _ _ Hinv'); [|done].
           simpl. apply jsset_add_elem. by left.
      * specialize (IH (scanned ++ [nbr]) _ _ ltac:(by rewrite <- app_assoc) Hinv').
        simpl in IH.
        assert (t ∉ jsset_add nbr (visited st)) as Ht'.
        { rewrite jsset_add_elem. intros [?|?]; [congruence|done]. }
        specialize (IH Ht').
        destruct (bfsScan fuel s t u rest _) as [r|st'']; [done|].
        destruct IH as (Htp'' & Ht'' & Hlen). split_and!; [done..|].
        rewrite (jsset_add_fresh _ _ E), !length_app in Hlen. simpl in Hlen. lia.
Qed.

(** One round of the loop of the search. *)
Lemma bfsBody_spec (t : string) (fuel : nat) st :
  wellFormed g → length (nodes g) ≤ fuel → bfsHead g s t st →
  match bfsBody fuel g s t st with
  | Continue st' => bfsHead g s t st' ∧ bfsRounds g st' < bfsRounds g st
  | Return r => bfsResult g s t r
  end.
Proof.
  intros Hwf Hfuel [Ht Hhead]. unfold bfsBody.
  destruct (queue st) as [|u q] eqn:Hq.
  - right. split; [done|]. destruct Hhead as [Hs Hclosed].
    assert (∀ v w, walk g s v w → v ∈ visited st) as Hall.
    { intros v w. induction 1; eauto. }
    intros w Hw. apply Ht. by eapply Hall.
  - destruct Hhead as (tp & P & Hinv).
    pose proof (bfsScan_spec t fuel P u Hwf Hfuel (neighbors g u) [] tp _ eq_refl Hinv Ht)
      as Hscan.
    destruct (bfsScan fuel s t u (neighbors g u) _) as [r|st']; [by left|].
    destruct Hscan as ([tp' Hinv'] & Ht' & Hlen). simpl in Hlen.
    split.
    + split; [done|]. destruct (queue st') as [|u' q'] eqn:Hq'.
      * split; [apply Hinv'|]. intros x y Hx Hy.
        rewrite (bi_split _ _ _ _ _ _ _ Hinv'), Hq' in Hx.
        apply elem_of_app in Hx as [Hx| ->%list_elem_of_singleton].
        -- by eapply bi_closed.
        -- by eapply bi_scanned.
      * exists tp', (P ++ [u]). by apply bfsInv_advance.
    + unfold bfsRounds. rewrite Hq. simpl.
      pose proof (bfsInv_size _ _ _ _ _ Hinv') as Hs'.
      pose proof (bfsInv_size _ _ _ _ _ Hinv) as Hs. simpl in Hs. lia.
Qed.

(** The search returns, and returns a first path or reports that there is
    none. *)
Lemma shortestPathFuel_spec (t : string) (fuel : nat) :
  wellFormed g → s ∈ nodes g → t ∈ nodes g → s ≠ t → length (nodes g) < fuel →
  bfsResult g s t (shortestPathFuel fuel g s t).
Proof.
  intros Hwf Hs Ht Hst Hfuel. unfold shortestPathFuel.
  apply nodes_has in Hs as Hs'. apply nodes_has in Ht as Ht'. rewrite Hs', Ht'. simpl.
  rewrite decide_False by done.
  destruct (iterate_total (bfsBody fuel g s t) (bfsHead g s t) (bfsRounds g)
              (bfsResult g s t)) with (n := fuel)
      (s := {| queue := [s]; visited := [s]; parent := [] |}) as (r & -> & Hr).
  - intros st st' Hst' Hbody.
    pose proof (bfsBody_spec t fuel st Hwf ltac:(lia) Hst') as Hspec.
    by rewrite Hbody in Hspec.
  - intros st r Hst' Hbody.
    pose proof (bfsBody_spec t fuel st Hwf ltac:(lia) Hst') as Hspec.
    by rewrite Hbody in Hspec.
  - split; simpl.
    + by intros ->%list_elem_of_singleton.
    + exists (λ _, [s]), []. by apply bfsInv_init.
  - unfold bfsRounds. simpl. lia.
  - done.
Qed.

End bfs_facts.

(** ** Connected components *)

Section dfs_facts.
Context {num : Type} (g : Graph num).
Implicit Types (V S new nbrs comp : list string) (st : ccState).

Lemma elem_of_concat (x : string) (ls : list (list string)) :
  x ∈ concat ls ↔ ∃ l, x ∈ l ∧ l ∈ ls.
Proof.
  induction ls as [|l ls IH]; simpl.
  - rewrite elem_of_nil. split; [done|]. by intros (l & _ & ?%elem_of_nil).
  - rewrite elem_of_app, IH. split.
    + intros [Hx|(l' & Hx & Hl')]; [exists l; split; [done|left] | exists l'; split; [done|by right]].
    + intros (l' & Hx & [->|Hl']%elem_of_cons); [by left | right; eauto].
Qed.

Lemma neighbors_sym a b : wellFormed g → b ∈ neighbors g a → a ∈ neighbors g b.
Proof.
  intros Hwf. rewrite <- !weightOf_neighbors. by rewrite (wf_sym _ Hwf a b).
Qed.

(** The scan marks and pushes the neighbors that are not yet visited, each
    once, in adjacency order. *)
Lemma ccScan_spec nbrs V S :
  ∃ new, ccScan nbrs (V, S) = (V ++ new, reverse new ++ S) ∧
    NoDup new ∧ (∀ x, x ∈ new → x ∈ nbrs ∧ x ∉ V) ∧
    (∀ x, x ∈ nbrs → x ∈ V ++ new).
Proof.
  revert V S. induction nbrs as [|nbr rest IH]; intros V S; simpl.
  - exists []. rewrite app_nil_r. split_and!; [done|apply NoDup_nil_2| |].
    + by intros x ?%elem_of_nil.
    + by intros x ?%elem_of_nil.
  - destruct (jsset_has nbr V) eqn:E.
    + apply jsset_has_true in E. destruct (IH V S) as (new & Hscan & Hnd & Hnew & Hall).
      exists new. split_and!; [done..| |].
      * intros x Hx. destruct (Hnew x Hx). split; [by right|done].
      * intros x [->|Hx]%elem_of_cons; [set_solver|auto].
    + apply jsset_has_false in E. rewrite (jsset_add_fresh _ _ E).
      destruct (IH (V ++ [nbr]) (nbr :: S)) as (new & Hscan & Hnd & Hnew & Hall).
      exists (nbr :: new). split_and!.
      * rewrite Hscan, reverse_cons. by rewrite <- !app_assoc.
      * apply NoDup_cons. split; [|done]. intros Hx. destruct (Hnew _ Hx) as [_ Hn].
        apply Hn. set_solver.
      * intros x [->|Hx]%elem_of_cons; [split; [left|done]|].
        destruct (Hnew x Hx) as [? Hn]. split; [by right|]. set_solver.
      * intros x [->|Hx]%elem_of_cons; [set_solver|].
        specialize (Hall x Hx). set_solver.
Qed.

Lemma ccInv_size start V0 st : ccInv g start V0 st → length (ccVisited st) ≤ length (nodes g).
Proof.
  intros Hinv. apply submseteq_length, NoDup_submseteq; apply Hinv.
Qed.

(** One round of the traversal. *)
Lemma ccBody_spec start V0 st :
  wellFormed g → ccInv g start V0 st →
  match ccBody g st with
  | Continue st' => ccInv g start V0 st' ∧ ccRounds g st' < ccRounds g st
  | Return r => ccDone g start V0 r
  end.
Proof.
  intros Hwf Hinv. unfold ccBody. destruct (ccStack st) as [|node rest] eqn:Hst.
  - destruct Hinv as [Hperm Hnd Hnodes Hhead Hreach Hclosed].
    rewrite Hst, app_nil_r in *. by split.
  - destruct (ccScan_spec (neighbors g node) (ccVisited st) rest)
      as (new & -> & Hndn & Hnew & Hall). simpl.
    assert (Hinv' : ccInv g start V0
      {| ccVisited := ccVisited st ++ new; ccStack := reverse new ++ rest;
         ccComp := ccComp st ++ [node] |}).
    { destruct Hinv as [Hperm Hnd Hnodes Hhead Hreach Hclosed]. rewrite Hst in *.
      split; simpl.
      - rewrite Hperm, reverse_Permutation. solve_Permutation.
      - apply NoDup_app. split_and!; [done| |done].
        intros x Hx Hx'. by destruct (Hnew x Hx').
      - intros x [Hx|Hx]%elem_of_app; [auto|].
        destruct (Hnew x Hx) as [Hx' _]. by eapply wf_closed.
      - destruct (ccComp st); simpl in *; done.
      - intros x Hx.
        assert (x ∈ ccComp st ++ node :: rest ∨ x ∈ new) as [Hx'|Hx'].
        { rewrite <- app_assoc in Hx. simpl in Hx. clear -Hx.
          rewrite elem_of_app, elem_of_cons, elem_of_app, elem_of_reverse in Hx.
          rewrite elem_of_app, elem_of_cons. naive_solver. }
        + by apply Hreach.
        + destruct (Hnew x Hx') as [Hadj _].
          destruct (Hreach node) as [w Hw]; [set_solver|].
          exists (w ++ [x]). by eapply walk_step.
      - intros x y [Hx| ->%list_elem_of_singleton]%elem_of_app Hy.
        + apply elem_of_app. left. by eapply Hclosed.
        + by apply Hall. }
    split; [done|].
    unfold ccRounds. rewrite Hst. simpl.
    pose proof (ccInv_size _ _ _ Hinv') as Hs'. simpl in Hs'.
    rewrite !length_app, length_reverse in *. lia.
Qed.

(** The traversal from a start that is not yet visited. *)
Lemma ccTraversal_spec (fuel : nat) start V0 :
  wellFormed g → length (nodes g) < fuel →
  NoDup V0 → (∀ x, x ∈ V0 → x ∈ nodes g) → start ∈ nodes g → start ∉ V0 →
  ∃ r, iterate (ccBody g) fuel
         {| ccVisited := jsset_add start V0; ccStack := [start]; ccComp := [] |} = Some r ∧
       ccDone g start V0 r.
Proof.
  intros Hwf Hfuel Hnd Hsub Hstart Hnew.
  apply (iterate_total (ccBody g) (ccInv g start V0) (ccRounds g) (ccDone g start V0)).
  - intros st st' Hinv Hbody. pose proof (ccBody_spec start V0 st Hwf Hinv) as Hspec.
    by rewrite Hbody in Hspec.
  - intros st r Hinv Hbody. pose proof (ccBody_spec start V0 st Hwf Hinv) as Hspec.
    by rewrite Hbody in Hspec.
  - rewrite (jsset_add_fresh _ _ Hnew). split; simpl.
    + done.
    + apply NoDup_app. split_and!; [done| |apply NoDup_singleton].
      by intros x Hx ->%list_elem_of_singleton.
    + intros x [Hx| ->%list_elem_of_singleton]%elem_of_app; auto.
    + done.
    + intros x ->%list_elem_of_singleton. exists [start]. apply walk_start.
    + by intros x y ?%elem_of_nil.
  - unfold ccRounds. simpl. rewrite (jsset_add_fresh _ _ Hnew), length_app. simpl. lia.
Qed.

Lemma startsInOrder_snoc comps c start before after :
  startsInOrder g comps →
  head c = Some start → nodes g = before ++ start :: after →
  (∀ x, x ∈ before → x ∈ concat comps) → start ∉ concat comps →
  startsInOrder g (comps ++ [c]).
Proof.
  intros Hord Hhd Hnodes Hbefore Hstart i c' Hc'.
  apply lookup_snoc_Some in Hc' as [[Hi Hc']|[-> <-]].
  - rewrite take_app_le by lia. by apply Hord.
  - exists start, before, after. rewrite take_app_length. done.
Qed.

(** One round of the loop over the nodes. *)
Lemma ccStart_spec (fuel : nat) pre start post V comps :
  wellFormed g → length (nodes g) < fuel →
  nodes g = pre ++ start :: post → ccOuter g pre V comps →
  ∃ V' comps', ccStart fuel g (Some (V, comps)) start = Some (V', comps') ∧
    ccOuter g (pre ++ [start]) V' comps'.
Proof.
  intros Hwf Hfuel Hnodes [Hperm Hnd Hsub Hpre Hcomp Hord]. unfold ccStart. simpl.
  destruct (jsset_has start V) eqn:E.
  - apply jsset_has_true in E. exists V, comps. split; [done|]. split; try done.
    intros x [Hx| ->%list_elem_of_singleton]%elem_of_app; auto.
  - apply jsset_has_false in E.
    assert (start ∈ nodes g) as Hstart by (rewrite Hnodes; set_solver).
    destruct (ccTraversal_spec fuel start V Hwf Hfuel Hnd Hsub Hstart E)
      as ([V' comp] & -> & [Hp' Hnd' Hsub' Hhd' Hreach' Hclosed']).
    simpl in *. exists V', (comps ++ [comp]). split; [done|].
    assert (Hdisj : ∀ x, x ∈ comp → x ∉ V).
    { intros x Hx Hx'. rewrite Hp' in Hnd'. apply NoDup_app in Hnd' as (_ & Hd & _).
      by apply (Hd x). }
    split.
    + rewrite concat_app. simpl. rewrite app_nil_r, <- Hperm. done.
    + done.
    + done.
    + intros x [Hx| ->%list_elem_of_singleton]%elem_of_app; rewrite Hp'.
      * apply elem_of_app. left. auto.
      * apply elem_of_app. right. by destruct comp; simplify_eq/=; left.
    + intros c [Hc| ->%list_elem_of_singleton]%elem_of_app; [auto|].
      exists start. split_and!; [done..|].
      intros x y Hx Hy. specialize (Hclosed' x y Hx Hy).
      rewrite Hp' in Hclosed'. apply elem_of_app in Hclosed' as [Hy'|Hy']; [|done].
      exfalso. rewrite Hperm in Hy'. apply elem_of_concat in Hy' as (c' & Hyc' & Hc').
      destruct (Hcomp c' Hc') as (start' & _ & _ & Hcl).
      apply (Hdisj x Hx). rewrite Hperm. apply elem_of_concat. exists c'. split; [|done].
      apply (Hcl y x Hyc'). by apply neighbors_sym.
    + eapply startsInOrder_snoc; [done..| |].
      * intros x Hx. rewrite <- Hperm. auto.
      * by rewrite <- Hperm.
Qed.

(** The loop over the nodes. *)
Lemma ccLoop_spec (fuel : nat) :
  wellFormed g → length (nodes g) < fuel →
  ∀ post pre V comps,
    nodes g = pre ++ post → ccOuter g pre V comps →
    ∃ V' comps', fold_left (ccStart fuel g) post (Some (V, comps)) = Some (V', comps') ∧
      ccOuter g (nodes g) V' comps'.
Proof.
  intros Hwf Hfuel. induction post as [|start post IH]; intros pre V comps Hnodes Hout.
  - rewrite app_nil_r in Hnodes. subst pre. by exists V, comps.
  - cbn [fold_left].
    destruct (ccStart_spec fuel pre start post V comps Hwf Hfuel Hnodes Hout)
      as (V' & comps' & -> & Hout').
    apply (IH (pre ++ [start])); [|done]. by rewrite <- app_assoc.
Qed.

Lemma NoDup_concat_unique (ls : list (list string)) i j c c' x :
  NoDup (concat ls) → ls !! i = Some c → ls !! j = Some c' → x ∈ c → x ∈ c' → i = j.
Proof.
  revert i j. induction ls as [|l ls IH]; intros i j Hnd Hi Hj Hx Hx'; [done|].
  simpl in Hnd. apply NoDup_app in Hnd as (_ & Hd & Hnd).
  destruct i as [|i], j as [|j]; simplify_eq/=; try done.
  - exfalso. apply (Hd x Hx). apply elem_of_concat. exists c'. split; [done|].
    by eapply list_elem_of_lookup_2.
  - exfalso. apply (Hd x Hx'). apply elem_of_concat. exists c. split; [done|].
    by eapply list_elem_of_lookup_2.
  - f_equal. by eapply IH.
Qed.

(** [connectedComponents] returns, and what it returns partitions the
    nodes into components. *)
Lemma connectedComponentsFuel_spec (fuel : nat) :
  wellFormed g → length (nodes g) < fuel →
  ∃ comps, connectedComponentsFuel fuel g = Some comps ∧
    concat comps ≡ₚ nodes g ∧
    (∀ c, c ∈ comps → isComponent g c) ∧
    startsInOrder g comps.
Proof.
  intros Hwf Hfuel. unfold connectedComponentsFuel.
  destruct (ccLoop_spec fuel Hwf Hfuel (nodes g) [] [] []) as (V & comps & -> & Hout).
  - done.
  - split; simpl.
    + done.
    + apply NoDup_nil_2.
    + by intros x ?%elem_of_nil.
    + by intros x ?%elem_of_nil.
    + by intros c ?%elem_of_nil.
    + by intros i c ?.
  - exists comps. simpl. destruct Hout as [Hperm Hnd Hsub Hpre Hcomp Hord].
    split_and!; [done| |done..].
    rewrite <- Hperm. apply NoDup_Permutation; [done | apply Hwf|].
    intros x. split; auto.
Qed.

Lemma ccLoop_None (fuel : nat) (l : list string) :
  fold_left (ccStart fuel g) l None = None.
Proof. by induction l. Qed.

Lemma ccStart_more (fuel fuel' : nat) acc start r :
  ccStart fuel g acc start = Some r → fuel ≤ fuel' →
  ccStart fuel' g acc start = Some r.
Proof.
  unfold ccStart. destruct acc as [vc|]; simpl; [|done].
  destruct (jsset_has start vc.1); [done|].
  destruct (iterate (ccBody g) fuel _) as [r'|] eqn:E; simpl; [|done].
  intros [= <-] Hle. by rewrite (iterate_more _ _ _ _ _ E Hle).
Qed.

Lemma ccLoop_more (fuel fuel' : nat) (l : list string) acc r :
  fold_left (ccStart fuel g) l acc = Some r → fuel ≤ fuel' →
  fold_left (ccStart fuel' g) l acc = Some r.
Proof.
  revert acc. induction l as [|x l IH]; intros acc; [done|]. cbn [fold_left].
  intros Hr Hle. destruct (ccStart fuel g acc x) as [r'|] eqn:E.
  - rewrite (ccStart_more _ _ _ _ _ E Hle). by apply IH.
  - by rewrite ccLoop_None in Hr.
Qed.

(** A larger step budget does not change what [connectedComponents]
    returns. *)
Lemma connectedComponentsFuel_stable (fuel : nat) :
  wellFormed g → length (nodes g) < fuel →
  connectedComponentsFuel fuel g = connectedComponents g.
Proof.
  intros Hwf Hfuel.
  destruct (connectedComponentsFuel_spec (S (length (nodes g))) Hwf ltac:(lia))
    as (comps & Hc & _).
  unfold connectedComponents. rewrite Hc. unfold connectedComponentsFuel in *.
  destruct (fold_left (ccStart (S (length (nodes g))) g) (nodes g) (Some ([], [])))
    as [r|] eqn:E; [|done].
  by rewrite (ccLoop_more _ fuel _ _ _ E ltac:(lia)).
Qed.

End dfs_facts.

(** ** Connectivity *)

Section connectivity_facts.
Context {num : Type} (g : Graph num).
Implicit Types (a b x y : string) (w p q : list string).

Lemma walk_trans a b (c : string) w1 w2 :
  walk g a b w1 → walk g b c w2 → ∃ w, walk g a c w.
Proof.
  intros H1 H2. induction H2 as [|x y w2 H2 [w IH] Hy]; [by exists w1|].
  exists (w ++ [y]). by eapply walk_step.
Qed.

Lemma walk_reverse a b w :
  wellFormed g → walk g a b w → ∃ w', walk g b a w'.
Proof.
  intros Hwf Hw. induction Hw as [|x y w Hw [w' IH] Hy].
  - exists [a]. apply walk_start.
  - apply (walk_trans y x a [y; x] w'); [|done].
    apply (walk_step g y y x [y]); [apply walk_start|]. by apply neighbors_sym.
Qed.

Lemma connected_walk a b : connected g a b ↔ ∃ w, walk g a b w.
Proof. unfold connected. split; intros [w Hw]; exists w; by apply walk_isPath. Qed.

Lemma component_closed_walk (c : list string) a b w :
  isComponent g c → a ∈ c → walk g a b w → b ∈ c.
Proof.
  intros (start & _ & _ & Hcl) Ha Hw. induction Hw; [done|]. eauto.
Qed.

(** Two nodes are in one component exactly when a path joins them. *)
Lemma components_connected (comps : list (list string)) a b :
  wellFormed g →
  (∀ c, c ∈ comps → isComponent g c) → (∀ x, x ∈ nodes g → x ∈ concat comps) →
  a ∈ nodes g →
  (∃ c, c ∈ comps ∧ a ∈ c ∧ b ∈ c) ↔ connected g a b.
Proof.
  intros Hwf Hcomp Hcover Ha. rewrite connected_walk. split.
  - intros (c & Hc & Hac & Hbc). destruct (Hcomp c Hc) as (start & _ & Hreach & _).
    destruct (Hreach a Hac) as [wa Hwa]. destruct (Hreach b Hbc) as [wb Hwb].
    destruct (walk_reverse _ _ _ Hwf Hwa) as [wa' Hwa'].
    by eapply walk_trans.
  - intros [w Hw]. apply Hcover, elem_of_concat in Ha as (c & Hac & Hc).
    exists c. split_and!; [done..|]. eapply component_closed_walk; eauto.
Qed.

Lemma noLater_antisym p q :
  noLater g p q → noLater g q p → length p = length q ∧ pathCode g p = pathCode g q.
Proof.
  intros [H1|[Hl1 Hc1]] [H2|[Hl2 Hc2]]; [exfalso..|done].
  - eapply earlier_irrefl, earlier_trans; eauto.
  - eapply earlier_irrefl, earlier_noLater; [exact H1|]. by right.
  - eapply earlier_irrefl, earlier_noLater; [exact H2|]. by right.
Qed.

(** Walks, and the order on them, depend on the adjacency lists only. *)
Lemma walk_ext (g' : Graph num) a b w :
  (∀ x, neighbors g' x = neighbors g x) → walk g a b w → walk g' a b w.
Proof.
  intros Hn. induction 1 as [|x y w Hw IH Hy]; [apply walk_start|].
  eapply walk_step; [done|]. by rewrite Hn.
Qed.

Lemma pathCode_ext (g' : Graph num) p :
  (∀ x, neighbors g' x = neighbors g x) → pathCode g' p = pathCode g p.
Proof.
  intros Hn. induction p as [|a p IH]; [done|].
  destruct p as [|b p]; [done|]. simpl in *. by rewrite Hn, IH.
Qed.

Lemma noLater_ext (g' : Graph num) p q :
  (∀ x, neighbors g' x = neighbors g x) → noLater g' p q → noLater g p q.
Proof.
  intros Hn. unfold noLater, earlier. by rewrite !(pathCode_ext g' _ Hn).
Qed.

End connectivity_facts.

(** ** The search and the components on built graphs *)

Lemma walk_first_step {num : Type} (g : Graph num) (a b : string) (w : list string) :
  walk g a b w → a ≠ b → neighbors g a ≠ [].
Proof.
  induction 1 as [|x y w Hw IH Hy]; [done|]. intros Hne.
  destruct (decide (a = x)) as [->|Hax]; [|by apply IH].
  intros Hnil. rewrite Hnil in Hy. by apply elem_of_nil in Hy.
Qed.

Lemma walk_end_node {num : Type} (g : Graph num) (a b : string) (w : list string) :
  wellFormed g → walk g a b w → a ∈ nodes g → b ∈ nodes g.
Proof. intros Hwf. destruct 1; [done|]. intros _. by eapply wf_closed. Qed.

(** Two results of the search for the same endpoints are the same. *)
Lemma bfsResult_unique {num : Type} (g : Graph num) (s t : string)
  (r1 r2 : option (option (list string))) :
  bfsResult g s t r1 → bfsResult g s t r2 → r1 = r2.
Proof.
  intros [(p1 & -> & Hw1 & Hl1)|[-> Hn1]] [(p2 & -> & Hw2 & Hl2)|[-> Hn2]].
  - destruct (noLater_antisym g p1 p2 (Hl1 _ Hw2) (Hl2 _ Hw1)) as [Hlen Hc].
    by rewrite (walk_code_inj g s t t p1 p2 Hw1 Hw2 Hlen Hc).
  - by destruct (Hn2 p1).
  - by destruct (Hn1 p2).
  - done.
Qed.

(** A larger step budget does not change what [shortestPath] returns. *)
Lemma shortestPathFuel_stable {num : Type} (g : Graph num) (s t : string) (fuel : nat) :
  Built g → length (nodes g) < fuel → shortestPathFuel fuel g s t = shortestPath g s t.
Proof.
  intros Hb%Built_wellFormed Hfuel. unfold shortestPath.
  destruct (decide (s ∈ nodes g ∧ t ∈ nodes g ∧ s ≠ t)) as [(Hs & Ht & Hst)|Hno].
  - apply (bfsResult_unique g s t); apply shortestPathFuel_spec; auto.
  - unfold shortestPathFuel.
    destruct (jsmap_has s (adjacency g)) eqn:Es; [|done].
    destruct (jsmap_has t (adjacency g)) eqn:Et; [|done]. simpl.
    apply nodes_has in Es, Et. destruct (decide (s = t)); [done|]. naive_solver.
Qed.

(** [Query.shortestPath] returns the node objects of the path and its
    number of hops. *)
Lemma queryShortestPath_hops `{JsNumber num} (g : Graph num) (from to : string)
  (p : list string) :
  shortestPath g from to = Some (Some p) →
  ∃ objects, queryShortestPath g from to = Some (Some (objects, length p - 1)) ∧
    noId <$> objects = p.
Proof.
  intros Hp. unfold queryShortestPath. rewrite Hp. simpl. eexists. split; [done|].
  rewrite <- list_fmap_compose. rewrite <- (list_fmap_id p) at 2. by apply list_fmap_ext.
Qed.

Lemma queryShortestPath_none `{JsNumber num} (g : Graph num) (from to : string) :
  shortestPath g from to = Some None → queryShortestPath g from to = Some None.
Proof. intros Hp. unfold queryShortestPath. by rewrite Hp. Qed.

(** C1. On a built graph, for distinct present endpoints joined by a path,
    [shortestPath] returns a path from [from] to [to], both included, whose
    consecutive nodes are adjacent; no path between the endpoints is
    shorter; among the paths of that length it is the first that
    breadth-first expansion in adjacency insertion order discovers, that is
    the one whose sequence of adjacency positions is lexicographically
    least; and it is determined by the adjacency lists alone: every built
    graph with the same adjacency lists gives the same path. On the path
    graph A - B - C - D the result is [A, B, C, D], with hop count 3. *)
Theorem shortestPath_first_shortest :
  (∀ (num : Type) (g : Graph num) (from to : string),
     Built g → from ≠ to → from ∈ nodes g → to ∈ nodes g → connected g from to →
     ∃ p, shortestPath g from to = Some (Some p) ∧
       isPath g from to p ∧
       (∀ q, isPath g from to q → length p ≤ length q) ∧
       (∀ q, isPath g from to q → length q = length p →
             q = p ∨ lexLt (pathCode g p) (pathCode g q)) ∧
       (∀ g' : Graph num, Built g' → (∀ x, neighbors g' x = neighbors g x) →
             shortestPath g' from to = Some (Some p))) ∧
  shortestPath Examples.pathABCD "A" "D" = Some (Some ["A"; "B"; "C"; "D"]) ∧
  shortestPath Examples.pathDCBA "A" "D" = Some (Some ["A"; "B"; "C"; "D"]) ∧
  (∃ objects, queryShortestPath Examples.pathABCD "A" "D" = Some (Some (objects, 3)) ∧
     noId <$> objects = ["A"; "B"; "C"; "D"]).
Proof.
  split.
  2:{ split; [by vm_compute|]. split; [by vm_compute|].
      eexists. split; [vm_compute; reflexivity | reflexivity]. }
  intros num g from to Hb Hne Hfrom Hto [q0 Hq0].
  pose proof (Built_wellFormed g Hb) as Hwf.
  apply walk_isPath in Hq0.
  destruct (shortestPathFuel_spec g from to (S (length (nodes g))) Hwf Hfrom Hto Hne
              ltac:(lia)) as [(p & Hp & Hw & Hleast)|[_ Hnone]]; [|by destruct (Hnone q0)].
  exists p. split_and!.
  - done.
  - by apply walk_isPath.
  - intros q Hq%walk_isPath. by eapply noLater_length, Hleast.
  - intros q Hq%walk_isPath Hlen.
    destruct (Hleast q Hq) as [[Hlt|[_ Hlex]]|[_ Hc]]; [lia | by right | left].
    symmetry. by eapply (walk_code_inj g from to to p q).
  - intros g' Hb' Hnbrs.
    pose proof (Built_wellFormed g' Hb') as Hwf'.
    assert (walk g' from to p) as Hw' by (by eapply walk_ext).
    assert (from ∈ nodes g') as Hfrom'.
    { destruct (decide (from ∈ nodes g')) as [|Hn]; [done|].
      apply neighbors_absent in Hn. by destruct (walk_first_step g' from to p Hw' Hne). }
    assert (to ∈ nodes g') as Hto' by (by eapply walk_end_node).
    destruct (shortestPathFuel_spec g' from to (S (length (nodes g'))) Hwf' Hfrom' Hto' Hne
                ltac:(lia)) as [(p' & Hp' & Hwp' & Hleast')|[_ Hnone]];
      [|by destruct (Hnone p)].
    unfold shortestPath. rewrite Hp'. do 2 f_equal.
    assert (walk g from to p') as Hwp by (eapply (walk_ext g'); [by intros; rewrite Hnbrs|done]).
    destruct (noLater_antisym g p' p) as [Hlen Hc].
    + eapply (noLater_ext g g'); [done|]. by apply Hleast'.
    + by apply Hleast.
    + by eapply (walk_code_inj g from to to p' p).
Qed.

Lemma shortestPath_first_shortest_witness :
  Built Examples.pathABCD ∧ "A" ∈ nodes Examples.pathABCD ∧
  "D" ∈ nodes Examples.pathABCD ∧ connected Examples.pathABCD "A" "D" ∧
  ∃ p, shortestPath Examples.pathABCD "A" "D" = Some (Some p) ∧
    isPath Examples.pathABCD "A" "D" p ∧
    ∀ q, isPath Examples.pathABCD "A" "D" q → length p ≤ length q.
Proof.
  assert (Built Examples.pathABCD) as Hb.
  { apply (build_Built [("A", "B"); ("B", "C"); ("C", "D")] newGraph); [apply Built_new|].
    vm_compute. reflexivity. }
  assert ("A" ∈ nodes Examples.pathABCD) as Ha by (apply (bool_decide_unpack _); vm_compute; exact I).
  assert ("D" ∈ nodes Examples.pathABCD) as Hd by (apply (bool_decide_unpack _); vm_compute; exact I).
  assert (connected Examples.pathABCD "A" "D") as Hc.
  { exists ["A"; "B"; "C"; "D"]. split; [reflexivity|]. split; [reflexivity|].
    intros [|[|[|[|i]]]] a b Ha' Hb'; simpl in Ha', Hb'; simplify_eq;
      apply (bool_decide_unpack _); vm_compute; exact I. }
  split; [exact Hb|]. split; [exact Ha|]. split; [exact Hd|]. split; [exact Hc|].
  destruct (proj1 shortestPath_first_shortest _ Examples.pathABCD "A" "D" Hb
              ltac:(discriminate) Ha Hd Hc) as (p & Hp & Hpath & Hmin & _).
  exists p. split; [exact Hp|]. split; [exact Hpath | exact Hmin].
Defined.

(** C8. On a built graph [shortestPath(x, y)] always returns, without an
    error, and it returns [null] exactly when [x] or [y] is not a node or
    no path joins them; for two nodes, no path joins them exactly when
    [connectedComponents()] puts them in different components. *)
Theorem shortestPath_none_iff {num : Type} (g : Graph num) (x y : string) :
  Built g →
  ∃ r, shortestPath g x y = Some r ∧
    (r = None ↔ x ∉ nodes g ∨ y ∉ nodes g ∨ ¬ connected g x y) ∧
    ∃ comps, connectedComponents g = Some comps ∧
      (x ∈ nodes g → y ∈ nodes g →
       (¬ connected g x y ↔ ¬ ∃ c, c ∈ comps ∧ x ∈ c ∧ y ∈ c)).
Proof.
  intros Hb. pose proof (Built_wellFormed g Hb) as Hwf.
  assert (∃ r, shortestPath g x y = Some r ∧
            (r = None ↔ x ∉ nodes g ∨ y ∉ nodes g ∨ ¬ connected g x y))
    as (r & Hr & Hiff).
  { unfold shortestPath, shortestPathFuel.
    destruct (jsmap_has x (adjacency g)) eqn:Ex; simpl.
    2:{ apply jsmap_has_false in Ex. exists None. split; [done|]. split; [auto|done]. }
    destruct (jsmap_has y (adjacency g)) eqn:Ey; simpl.
    2:{ apply jsmap_has_false in Ey. exists None. split; [done|]. split; [auto|done]. }
    apply nodes_has in Ex, Ey.
    destruct (decide (x = y)) as [->|Hne].
    { exists (Some [y]). split; [done|]. split; [done|].
      intros [?|[?|Hnc]]; [done..|]. exfalso. apply Hnc, connected_walk.
      exists [y]. apply walk_start. }
    pose proof (shortestPathFuel_spec g x y (S (length (nodes g))) Hwf Ex Ey Hne
                  ltac:(lia)) as Hres.
    unfold shortestPathFuel in Hres.
    apply nodes_has in Ex as Ex', Ey as Ey'. rewrite Ex', Ey' in Hres. simpl in Hres.
    rewrite decide_False in Hres by done.
    destruct Hres as [(p & -> & Hw & _)|[-> Hnone]].
    - exists (Some p). split; [done|]. split; [done|].
      intros [?|[?|Hnc]]; [done..|]. exfalso. apply Hnc, connected_walk. by exists p.
    - exists None. split; [done|]. split; [|done]. intros _. right. right.
      intros [w Hw]%connected_walk. by destruct (Hnone w). }
  exists r. split; [done|]. split; [done|].
  destruct (connectedComponentsFuel_spec g (S (length (nodes g))) Hwf ltac:(lia))
    as (comps & Hcomps & Hperm & Hcomp & _).
  exists comps. split; [done|]. intros Hx Hy.
  rewrite (components_connected g comps x y Hwf Hcomp); [done| |done].
  intros z Hz. by rewrite Hperm.
Qed.

Lemma shortestPath_none_iff_witness :
  Built Examples.twoParts ∧
  shortestPath Examples.twoParts "A" "C" = Some None ∧
  ¬ connected Examples.twoParts "A" "C".
Proof.
  assert (Built Examples.twoParts) as Hb.
  { apply (build_Built [("A", "B"); ("C", "D"); ("B", "E")] newGraph); [apply Built_new|].
    vm_compute. reflexivity. }
  split; [exact Hb|].
  destruct (shortestPath_none_iff Examples.twoParts "A" "C" Hb)
    as (r & Hr & Hiff & _).
  assert (r = None) as -> by (vm_compute in Hr; congruence).
  split; [exact Hr|].
  destruct (proj1 Hiff eq_refl) as [Hn|[Hn|Hn]]; [exfalso..|exact Hn].
  - apply Hn. apply (bool_decide_unpack _). vm_compute. exact I.
  - apply Hn. apply (bool_decide_unpack _). vm_compute. exact I.
Defined.

(** C2. On a built graph [connectedComponents()] returns a sequence of
    components that partitions the nodes: every id of [nodes()] is in
    exactly one component, no component repeats an id, and the components
    together hold the ids of [nodes()] and nothing else. The i-th component
    starts at the first node, in [nodes()] order, that the earlier
    components do not hold; its members are the nodes that a walk from this
    start reaches, and it is closed under adjacency. *)
Theorem connectedComponents_partition {num : Type} (g : Graph num) :
  Built g →
  ∃ comps, connectedComponents g = Some comps ∧
    (∀ x, x ∈ nodes g →
          ∃ i c, comps !! i = Some c ∧ x ∈ c ∧
                 ∀ j c', comps !! j = Some c' → x ∈ c' → j = i) ∧
    (∀ c, c ∈ comps → NoDup c) ∧
    (∀ x, x ∈ concat comps ↔ x ∈ nodes g) ∧
    concat comps ≡ₚ nodes g ∧
    startsInOrder g comps ∧
    (∀ c, c ∈ comps → isComponent g c).
Proof.
  intros Hb. pose proof (Built_wellFormed g Hb) as Hwf.
  destruct (connectedComponentsFuel_spec g (S (length (nodes g))) Hwf ltac:(lia))
    as (comps & Hcomps & Hperm & Hcomp & Hord).
  assert (NoDup (concat comps)) as Hnd by (rewrite Hperm; apply Hwf).
  exists comps. split_and!; try done.
  - intros x Hx. rewrite <- Hperm in Hx.
    apply elem_of_concat in Hx as (c & Hxc & [i Hi]%list_elem_of_lookup).
    exists i, c. split_and!; [done..|].
    intros j c' Hj Hxc'. by eapply (NoDup_concat_unique comps j i).
  - intros c [i Hi]%list_elem_of_lookup.
    clear -Hnd Hi. revert i Hi. induction comps as [|c0 comps IH]; intros i Hi; [done|].
    simpl in Hnd. apply NoDup_app in Hnd as (Hc0 & _ & Hrest).
    destruct i as [|i]; simplify_eq/=; [done|]. by eapply IH.
  - intros x. by rewrite Hperm.
Qed.

Lemma connectedComponents_partition_witness :
  Built Examples.twoParts ∧
  connectedComponents Examples.twoParts = Some [["A"; "B"; "E"]; ["C"; "D"]] ∧
  nodes Examples.twoParts = ["A"; "B"; "C"; "D"; "E"].
Proof.
  assert (Built Examples.twoParts) as Hb.
  { apply (build_Built [("A", "B"); ("C", "D"); ("B", "E")] newGraph); [apply Built_new|].
    vm_compute. reflexivity. }
  split; [exact Hb|].
  destruct (connectedComponents_partition Examples.twoParts Hb) as (comps & Hc & _).
  split; [|reflexivity].
  rewrite Hc. vm_compute in Hc. congruence.
Defined.

(** * Further properties *)

(** ** The store *)

Section store_more.
Context {num : Type}.
Implicit Types (g : Graph num) (a b x y : string) (w : num).

Lemma jsmap_set_same {V : Type} (k : string) (v : V) (m : list (string * V)) :
  jsmap_get k m = Some v → jsmap_set k v m = m.
Proof.
  induction m as [|[k' v'] m IH]; simpl; [done|].
  case_decide; [by intros [= ->]; subst | intros Hg; by rewrite IH].
Qed.

Lemma jsset_add_prefix (x : string) (l : list string) : l `prefix_of` jsset_add x l.
Proof.
  unfold jsset_add. destruct (jsset_has x l); [done|]. by apply prefix_app_r.
Qed.

Lemma ensureNode_data a g g1 :
  ensureNode a g = Ok g1 →
  jsmap_get a (nodeData g1) =
    if decide (a ∈ nodes g) then jsmap_get a (nodeData g) else Some (stubNode a).
Proof.
  unfold ensureNode. destruct (jsmap_has a (adjacency g)) eqn:E.
  - intros [= <-]. apply nodes_has in E. by rewrite decide_True.
  - apply jsmap_has_false in E. rewrite decide_False by done.
    intros (id & Hid & _ & ->)%addNode_Ok.
    assert (id = a) as ->.
    { unfold nodeKey, stubNode in Hid. simpl in Hid. by case_decide; simplify_eq. }
    by rewrite jsmap_get_set_eq.
Qed.

Lemma ensureNode_Ok_iff a g :
  (∃ g1, ensureNode a g = Ok g1) ↔ a ∈ nodes g ∨ a ≠ "".
Proof.
  unfold ensureNode. destruct (jsmap_has a (adjacency g)) eqn:E.
  - apply nodes_has in E. split; [auto | by eexists].
  - apply jsmap_has_false in E. unfold addNode. split.
    + intros [g1 Hg1]. right. intros ->. by vm_compute in Hg1.
    + intros [?|Ha]; [done|]. rewrite nodeKey_stub by done. by eexists.
Qed.

Lemma addEdge_data a b w meta g g' x :
  addEdge a b w meta g = Ok g' →
  jsmap_get x (nodeData g') =
    if decide ((x ∉ nodes g) ∧ (x = a ∨ x = b)) then Some (stubNode x)
    else jsmap_get x (nodeData g).
Proof.
  unfold addEdge.
  destruct (ensureNode a g) as [g1|] eqn:E1; simpl; [|done].
  destruct (ensureNode b g1) as [g2|] eqn:E2; simpl; [|done].
  destruct (adjSet a b w (adjacency g2)) as [adj1|]; simpl; [|done].
  destruct (adjSet b a w adj1) as [adj2|]; simpl; [|done].
  intros [= <-]. simpl.
  destruct (ensureNode_Ok _ _ _ E1) as (Hn1 & _ & _ & Ho1).
  destruct (ensureNode_Ok _ _ _ E2) as (_ & _ & _ & Ho2).
  pose proof (ensureNode_data _ _ _ E1) as Ha. pose proof (ensureNode_data _ _ _ E2) as Hb.
  assert (b ∈ nodes g1 ↔ b = a ∨ b ∈ nodes g) as Hb1 by (rewrite Hn1; apply jsset_add_elem).
  destruct (decide (x = b)) as [->|Hxb].
  - rewrite Hb. destruct (decide (b ∈ nodes g1)) as [Hin|Hnin].
    + destruct (decide (b = a)) as [->|Hba].
      * rewrite Ha. repeat case_decide; naive_solver.
      * rewrite Ho1 by done. rewrite decide_False; [done|]. naive_solver.
    + rewrite decide_True; [done|]. naive_solver.
  - rewrite Ho2 by done. destruct (decide (x = a)) as [->|Hxa].
    + rewrite Ha. repeat case_decide; naive_solver.
    + rewrite Ho1 by done. rewrite decide_False; [done|]. naive_solver.
Qed.

End store_more.

(** X1. Every graph built through [addNode] and [addEdge] keeps the
    invariants of the store: node ids are not repeated, no adjacency
    repeats a neighbor, both ends of an adjacency entry are nodes, and
    adjacency is symmetric with the same weight in both directions. *)
Theorem built_store_invariants {num : Type} (g : Graph num) :
  Built g →
  NoDup (nodes g) ∧
  (∀ a, NoDup (neighbors g a) ∧ degree g a = length (neighbors g a)) ∧
  (∀ a b, b ∈ neighbors g a →
     a ∈ nodes g ∧ b ∈ nodes g ∧ a ∈ neighbors g b ∧
     ∃ w, weightOf g a b = Some w ∧ weightOf g b a = Some w).
Proof.
  intros Hwf%Built_wellFormed. split_and!.
  - apply Hwf.
  - intros a. split; [apply Hwf | apply degree_neighbors].
  - intros a b Hb. split_and!.
    + destruct (decide (a ∈ nodes g)) as [|Hn]; [done|].
      rewrite (neighbors_absent g a Hn) in Hb. by apply elem_of_nil in Hb.
    + by eapply wf_closed.
    + by apply neighbors_sym.
    + apply weightOf_neighbors in Hb as [w Hw]. exists w. split; [done|].
      by rewrite <- (wf_sym g Hwf a b).
Qed.

Lemma built_store_invariants_witness :
  Built Examples.twoParts ∧ NoDup (nodes Examples.twoParts).
Proof.
  assert (Built Examples.twoParts) as Hb.
  { apply (build_Built [("A", "B"); ("C", "D"); ("B", "E")] newGraph); [apply Built_new|].
    vm_compute. reflexivity. }
  split; [exact Hb|]. exact (proj1 (built_store_invariants Examples.twoParts Hb)).
Defined.

Lemma addEdge_Ok_endpoints {num : Type} (g g' : Graph num) (a b : string) (w : num)
  (meta : list (string * jsval num)) :
  addEdge a b w meta g = Ok g' → (a ∈ nodes g ∨ a ≠ "") ∧ (b ∈ nodes g ∨ b ≠ "").
Proof.
  intros Hadd. unfold addEdge in Hadd.
  destruct (ensureNode a g) as [g1|] eqn:E1; simpl in Hadd; [|done].
  destruct (ensureNode b g1) as [g2|] eqn:E2; simpl in Hadd; [|done].
  assert (a ∈ nodes g ∨ a ≠ "") as Ha by (apply ensureNode_Ok_iff; eauto).
  split; [done|].
  assert (b ∈ nodes g1 ∨ b ≠ "") as [Hb|Hb] by (apply ensureNode_Ok_iff; eauto); [|auto].
  destruct (ensureNode_Ok _ _ _ E1) as (Hn1 & _).
  rewrite Hn1 in Hb. apply jsset_add_elem in Hb as [->|Hb]; auto.
Qed.

(** X2. [addEdge] goes through exactly when each endpoint is a node already
    or is not the empty id; otherwise the stub's [addNode] throws. *)
Theorem addEdge_ok_iff {num : Type} (g : Graph num) (a b : string) (w : num)
  (meta : list (string * jsval num)) :
  (∃ g', addEdge a b w meta g = Ok g') ↔
  (a ∈ nodes g ∨ a ≠ "") ∧ (b ∈ nodes g ∨ b ≠ "").
Proof.
  split; [|intros [Ha Hb]; by apply addEdge_succeeds].
  intros [g' Hadd]. by eapply addEdge_Ok_endpoints.
Qed.

(** X3. [addEdge] creates the record [{ id, name: id }] for an endpoint that
    is not a node yet, appends the new endpoints to [nodes()] ([a] before
    [b]), and leaves every other record as it is. *)
Theorem addEdge_stubs_missing_endpoints {num : Type} (g g' : Graph num)
  (a b : string) (w : num) (meta : list (string * jsval num)) :
  addEdge a b w meta g = Ok g' →
  nodes g' = jsset_add b (jsset_add a (nodes g)) ∧
  ∀ x, jsmap_get x (nodeData g') =
       if decide ((x ∉ nodes g) ∧ (x = a ∨ x = b)) then Some (stubNode x)
       else jsmap_get x (nodeData g).
Proof.
  intros Hadd. split; [by apply addEdge_Ok in Hadd as (? & _) | intros x].
  by eapply addEdge_data.
Qed.

Lemma addEdge_stubs_missing_endpoints_witness :
  nodes (Examples.build [("A", "B")]) = ["A"; "B"] ∧
  jsmap_get "B" (nodeData (Examples.build [("A", "B")])) = Some (stubNode "B").
Proof.
  assert (addEdge "A" "B" (QArith_base.inject_Z 1) [] newGraph
          = Ok (Examples.build [("A", "B")])) as Hadd by (vm_compute; reflexivity).
  destruct (addEdge_stubs_missing_endpoints _ _ _ _ _ _ Hadd) as [Hn Hd].
  split; [exact Hn|]. rewrite Hd. reflexivity.
Defined.

(** X4. Submitting an edge again with the weight it already has, in the
    same order of endpoints, leaves the whole graph as it is. *)
Theorem addEdge_resubmit_same {num : Type} (g : Graph num) (a b : string) (w : num)
  (meta : list (string * jsval num)) :
  weightOf g a b = Some w → weightOf g b a = Some w →
  addEdge a b w meta g = Ok g.
Proof.
  unfold weightOf. intros Hab Hba.
  destruct (jsmap_get a (adjacency g)) as [na|] eqn:Ea; simpl in Hab; [|done].
  destruct (jsmap_get b (adjacency g)) as [nb|] eqn:Eb; simpl in Hba; [|done].
  assert (jsmap_has a (adjacency g) = true) as Ha by (unfold jsmap_has; by rewrite Ea).
  assert (jsmap_has b (adjacency g) = true) as Hb by (unfold jsmap_has; by rewrite Eb).
  unfold addEdge, ensureNode. rewrite Ha. simpl. rewrite Hb. simpl.
  unfold adjSet. rewrite Ea. simpl.
  rewrite (jsmap_set_same b w na Hab), (jsmap_set_same a na _ Ea).
  rewrite Eb. simpl.
  rewrite (jsmap_set_same a w nb Hba), (jsmap_set_same b nb _ Eb).
  by destruct g.
Qed.

Lemma addEdge_resubmit_same_witness :
  addEdge "A" "B" (QArith_base.inject_Z 1) [] Examples.pathABCD = Ok Examples.pathABCD.
Proof. exact (addEdge_resubmit_same Examples.pathABCD "A" "B" _ [] eq_refl eq_refl). Defined.

Lemma build_Extends (es : list (string * string)) (g0 g1 g : Graph QArith_base.Q) :
  Extends g0 g1 →
  foldl (λ r e, g ← r; addEdge e.1 e.2 (QArith_base.inject_Z 1) [] g) (Ok g1) es = Ok g →
  Extends g0 g.
Proof.
  revert g1. induction es as [|e es IH]; simpl; intros g1 Hb Hg.
  - by simplify_eq.
  - destruct (addEdge e.1 e.2 (QArith_base.inject_Z 1) [] g1) as [g2|msg] eqn:E; simpl in Hg.
    + eapply IH; [|done]. by eapply Extends_addEdge.
    + exfalso. clear -Hg. induction es as [|e' es IH]; simpl in Hg; [done|auto].
Qed.

Lemma Extends_Built {num : Type} (g g' : Graph num) : Extends g g' → Built g → Built g'.
Proof.
  induction 1; intros Hb; [done| | |].
  - eapply Built_addNode; [apply IHExtends|]; done.
  - eapply Built_addEdge; [apply IHExtends|]; done.
  - apply Built_nodeData. auto.
Qed.

Lemma Extends_nodes {num : Type} (g g' : Graph num) :
  Extends g g' → nodes g `prefix_of` nodes g'.
Proof.
  induction 1 as [|node g1 g2 _ IH Hadd|a b w meta g1 g2 _ IH Hadd|g1 data _ IH];
    [done| | |done].
  - destruct (addNode_Ok _ _ _ Hadd) as (id & Hid & _).
    rewrite (addNode_nodes _ _ _ _ Hadd Hid).
    etrans; [exact IH | apply jsset_add_prefix].
  - apply addEdge_Ok in Hadd as (-> & _).
    etrans; [exact IH|]. etrans; apply jsset_add_prefix.
Qed.

Lemma Extends_neighbors {num : Type} (g g' : Graph num) (x : string) :
  Extends g g' → neighbors g x `prefix_of` neighbors g' x.
Proof.
  induction 1 as [|node g1 g2 _ IH Hadd|a b w meta g1 g2 _ IH Hadd|g1 data _ IH];
    [done| | |done].
  - by rewrite (addNode_neighbors _ _ _ _ Hadd).
  - apply addEdge_Ok in Hadd as (_ & -> & _).
    etrans; [exact IH|]. repeat case_decide; simpl;
      repeat (etrans; [|apply jsset_add_prefix]); done.
Qed.

(** X5. Calls of the interface never remove or reorder anything: the nodes
    of the graph before are a prefix of the nodes after, the neighbors of
    each node before are a prefix of its neighbors after, and a built graph
    stays built. *)
Theorem extends_only_appends {num : Type} (g g' : Graph num) :
  Extends g g' →
  nodes g `prefix_of` nodes g' ∧
  (∀ x, neighbors g x `prefix_of` neighbors g' x) ∧
  (Built g → Built g').
Proof.
  intros Hext. split_and!; [by apply Extends_nodes | | by apply Extends_Built].
  intros x. by apply Extends_neighbors.
Qed.

Lemma extends_only_appends_witness :
  Extends (Examples.build [("A", "B")]) Examples.pathABCD ∧
  nodes (Examples.build [("A", "B")]) `prefix_of` nodes Examples.pathABCD.
Proof.
  assert (Extends (Examples.build [("A", "B")]) Examples.pathABCD) as Hext.
  { apply (build_Extends [("B", "C"); ("C", "D")] _ (Examples.build [("A", "B")]));
      [apply Extends_refl|]. vm_compute. reflexivity. }
  split; [exact Hext|]. exact (proj1 (extends_only_appends _ _ Hext)).
Defined.

(** X6. On a built graph [edges()] repeats no pair, lists adjacent pairs
    only, and lists no unordered pair in both of its orders, whatever the
    ids are; when no id contains the character [|] it lists every adjacent
    unordered pair, self-loops included, in one of its two orders. *)
Theorem edges_lists_pairs_once {num : Type} (g : Graph num) :
  Built g →
  NoDup (edges g) ∧
  (∀ a b, (a, b) ∈ edges g → b ∈ neighbors g a ∧ a ∈ neighbors g b) ∧
  (∀ a b, a ≠ b → (a, b) ∈ edges g → (b, a) ∉ edges g) ∧
  ((∀ x, x ∈ nodes g → noBar x) →
   ∀ a b, b ∈ neighbors g a → (a, b) ∈ edges g ∨ (b, a) ∈ edges g).
Proof.
  intros Hwf%Built_wellFormed.
  destruct (edges_at_most_once g Hwf) as (Hnd & Hadj & Hone).
  split_and!; [done| |done|].
  - intros a b Hab. split; [auto|]. apply neighbors_sym; auto.
  - intros Hbar a b Hab. by apply edges_exactly_once.
Qed.

Lemma edges_lists_pairs_once_witness :
  Built Examples.pathABCD ∧ NoDup (edges Examples.pathABCD) ∧
  (("C", "B") ∈ edges Examples.pathABCD ∨ ("B", "C") ∈ edges Examples.pathABCD).
Proof.
  assert (Built Examples.pathABCD) as Hb.
  { apply (build_Built [("A", "B"); ("B", "C"); ("C", "D")] newGraph); [apply Built_new|].
    vm_compute. reflexivity. }
  split; [exact Hb|].
  destruct (edges_lists_pairs_once Examples.pathABCD Hb) as (Hnd & _ & _ & Hall).
  split; [exact Hnd|]. apply Hall.
  - intros x Hx. change (nodes Examples.pathABCD) with ["A"; "B"; "C"; "D"] in Hx.
    repeat (apply elem_of_cons in Hx as [->|Hx]; [reflexivity|]).
    by apply elem_of_nil in Hx.
  - apply (bool_decide_unpack _). vm_compute. exact I.
Defined.

(** X7. On a built graph the degree of a node is at most the number of
    nodes, and at most that number less one when the node has no
    self-loop: the normalised centrality [degree / (N - 1)] then stays
    within 1. *)
Theorem degree_bound {num : Type} (g : Graph num) (x : string) :
  Built g →
  degree g x ≤ length (nodes g) ∧
  (x ∈ nodes g → x ∉ neighbors g x → degree g x ≤ length (nodes g) - 1).
Proof.
  intros Hwf%Built_wellFormed. rewrite degree_neighbors. split.
  - apply submseteq_length, NoDup_submseteq; [apply Hwf|].
    intros y Hy. by eapply wf_closed.
  - intros Hx Hself.
    assert (length (x :: neighbors g x) ≤ length (nodes g)) as Hlen.
    { apply submseteq_length, NoDup_submseteq.
      - apply NoDup_cons. split; [done | apply Hwf].
      - intros y [->|Hy]%elem_of_cons; [done|]. by eapply wf_closed. }
    simpl in Hlen. lia.
Qed.

Lemma degree_bound_witness :
  Built Examples.pathABCD ∧ degree Examples.pathABCD "B" ≤ 4 - 1.
Proof.
  assert (Built Examples.pathABCD) as Hb.
  { apply (build_Built [("A", "B"); ("B", "C"); ("C", "D")] newGraph); [apply Built_new|].
    vm_compute. reflexivity. }
  split; [exact Hb|].
  apply (proj2 (degree_bound Examples.pathABCD "B" Hb)).
  - apply (bool_decide_unpack _). vm_compute. exact I.
  - apply (bool_decide_unpack _). vm_compute. exact I.
Defined.

(** ** Walks: reversal, composition, repetition *)

Section walk_more.
Context {num : Type} (g : Graph num).
Implicit Types (a b c x y s t : string) (w p q : list string).

Lemma walk_cons x y t w : walk g x t w → x ∈ neighbors g y → walk g y t (y :: w).
Proof.
  intros Hw Hx. induction Hw as [|u v w Hw IH Hv].
  - apply (walk_step g y y x [y]); [apply walk_start | done].
  - change (y :: w ++ [v]) with ((y :: w) ++ [v]). by eapply walk_step.
Qed.

Lemma walk_reverse_path a b w : wellFormed g → walk g a b w → walk g b a (reverse w).
Proof.
  intros Hwf. induction 1 as [|x y w Hw IH Hy]; [apply walk_start|].
  rewrite reverse_snoc. eapply walk_cons; [exact IH|]. by apply neighbors_sym.
Qed.

Lemma walk_app a b c w1 w2 : walk g a b w1 → walk g b c w2 → walk g a c (w1 ++ tail w2).
Proof.
  intros H1. induction 1 as [|x y w Hw IH Hy]; [by rewrite app_nil_r|].
  apply walk_length in Hw as Hlen. destruct w as [|z w]; [simpl in Hlen; lia|].
  simpl. simpl in IH. rewrite app_assoc. by eapply walk_step.
Qed.

Lemma walk_prefix s v l1 y l2 : walk g s v (l1 ++ y :: l2) → walk g s y (l1 ++ [y]).
Proof.
  revert v. induction l2 as [|z l2 IH] using rev_ind; intros v Hw.
  - by apply walk_snoc_inv in Hw as Hv; destruct Hv as [-> _].
  - replace (l1 ++ y :: l2 ++ [z]) with ((l1 ++ y :: l2) ++ [z]) in Hw
      by (by rewrite <- app_assoc).
    apply walk_snoc_inv in Hw as [_ [[Hnil _]|(x & Hx & _)]]; [by destruct l1|].
    by eapply IH.
Qed.

(** A walk that repeats a node can be cut short. *)
Lemma walk_cut s t w :
  walk g s t w → NoDup w ∨ ∃ w', walk g s t w' ∧ length w' < length w.
Proof.
  induction 1 as [|x y w Hw IH Hy].
  - left. apply NoDup_singleton.
  - destruct IH as [Hnd|(w' & Hw' & Hlen)].
    + destruct (decide (y ∈ w)) as [Hin|Hnin].
      * right. apply list_elem_of_split in Hin as (l1 & l2 & ->).
        exists (l1 ++ [y]). split; [by eapply walk_prefix|].
        rewrite !length_app. simpl. lia.
      * left. apply NoDup_app. split_and!; [done| |apply NoDup_singleton].
        intros z Hz ->%list_elem_of_singleton. done.
    + right. exists (w' ++ [y]). split; [by eapply walk_step|].
      rewrite !length_app. simpl. lia.
Qed.

Lemma walk_nodes s t w x :
  wellFormed g → s ∈ nodes g → walk g s t w → x ∈ w → x ∈ nodes g.
Proof.
  intros Hwf Hs. induction 1 as [|u v w Hw IH Hv].
  - by intros ->%list_elem_of_singleton.
  - intros [Hx| ->%list_elem_of_singleton]%elem_of_app; [auto|]. by eapply wf_closed.
Qed.

Lemma connected_refl a : connected g a a.
Proof. apply connected_walk. exists [a]. apply walk_start. Qed.

Lemma connected_trans a b c : connected g a b → connected g b c → connected g a c.
Proof.
  rewrite !connected_walk. intros [w1 H1] [w2 H2]. by eapply walk_trans.
Qed.

Lemma connected_sym a b : wellFormed g → connected g a b → connected g b a.
Proof.
  rewrite !connected_walk. intros Hwf [w Hw]. by eapply walk_reverse.
Qed.

End walk_more.

Lemma walk_mono {num : Type} (g g' : Graph num) (a b : string) (w : list string) :
  (∀ x y, y ∈ neighbors g x → y ∈ neighbors g' x) → walk g a b w → walk g' a b w.
Proof.
  intros Hsub. induction 1 as [|x y w Hw IH Hy]; [apply walk_start|].
  eapply walk_step; eauto.
Qed.

Lemma Extends_walk {num : Type} (g g' : Graph num) (a b : string) (w : list string) :
  Extends g g' → walk g a b w → walk g' a b w.
Proof.
  intros Hext. apply walk_mono. intros x y Hy.
  destruct (Extends_neighbors g g' x Hext) as [k ->]. apply elem_of_app. by left.
Qed.

(** ** What [shortestPath] returns, case by case *)

Lemma shortestPath_answer {num : Type} (g : Graph num) (s t : string) :
  Built g → pathAnswer g s t (shortestPath g s t).
Proof.
  intros Hwf%Built_wellFormed.
  destruct (decide (s ∈ nodes g)) as [Hs|Hs]; last first.
  { unfold shortestPath, shortestPathFuel.
    apply jsmap_has_false in Hs as Hs'. unfold nodes in Hs'. rewrite Hs'. simpl.
    apply answer_absent. by left. }
  destruct (decide (t ∈ nodes g)) as [Ht|Ht]; last first.
  { unfold shortestPath, shortestPathFuel.
    apply jsmap_has_false in Ht as Ht'. unfold nodes in Ht'. rewrite Ht'.
    rewrite orb_true_r. apply answer_absent. by right. }
  destruct (decide (s = t)) as [->|Hst].
  - unfold shortestPath, shortestPathFuel.
    apply nodes_has in Ht as Ht'. rewrite Ht'. simpl. rewrite decide_True by done.
    apply answer_path; [done..|apply walk_start|].
    intros w Hw%walk_length. simpl. lia.
  - destruct (shortestPathFuel_spec g s t (S (length (nodes g))) Hwf Hs Ht Hst) as
      [(p & Hp & Hw & Hleast)|[Hp Hno]]; [lia|..].
    + unfold shortestPath. rewrite Hp. apply answer_path; [done..|].
      intros w Hw'. by eapply noLater_length, Hleast.
    + unfold shortestPath. rewrite Hp. by apply answer_apart.
Qed.

(** ** Properties of [shortestPath] *)

(** X8. On a built graph the number of hops does not depend on the
    direction: [shortestPath(a, b)] and [shortestPath(b, a)] are both [null]
    or are paths of the same length. *)
Theorem shortestPath_hops_symmetric {num : Type} (g : Graph num) (a b : string) :
  Built g →
  fmap (M:=option) (fmap (M:=option) (length (A:=string))) (shortestPath g a b) =
  fmap (M:=option) (fmap (M:=option) (length (A:=string))) (shortestPath g b a).
Proof.
  intros Hb. pose proof (Built_wellFormed _ Hb) as Hwf.
  destruct (shortestPath_answer g a b Hb) as [Hab|Ha Hb' Hno|p Ha Hb' Hp Hmin];
    destruct (shortestPath_answer g b a Hb) as [Hba|Ha2 Hb2 Hno2|q Ha2 Hb2 Hq Hmin2];
    try done; try tauto.
  - destruct (Hno (reverse q)). by apply walk_reverse_path.
  - destruct (Hno2 (reverse p)). by apply walk_reverse_path.
  - simpl. do 2 f_equal.
    pose proof (Hmin _ (walk_reverse_path g _ _ _ Hwf Hq)) as H1.
    pose proof (Hmin2 _ (walk_reverse_path g _ _ _ Hwf Hp)) as H2.
    rewrite length_reverse in H1, H2. lia.
Qed.

Lemma shortestPath_hops_symmetric_witness :
  Built Examples.pathABCD ∧
  fmap (M:=option) (fmap (M:=option) (length (A:=string)))
    (shortestPath Examples.pathABCD "D" "A") = Some (Some 4).
Proof.
  assert (Built Examples.pathABCD) as Hb.
  { apply (build_Built [("A", "B"); ("B", "C"); ("C", "D")] newGraph); [apply Built_new|].
    vm_compute. reflexivity. }
  split; [exact Hb|].
  rewrite <- (shortestPath_hops_symmetric Examples.pathABCD "A" "D" Hb).
  vm_compute. reflexivity.
Defined.

(** X9. On a built graph the number of hops obeys the triangle
    inequality: when [shortestPath(a, b)] and [shortestPath(b, c)] are
    paths, [shortestPath(a, c)] is a path with no more hops than the two
    together. *)
Theorem shortestPath_triangle {num : Type} (g : Graph num) (a b c : string)
  (p q : list string) :
  Built g →
  shortestPath g a b = Some (Some p) → shortestPath g b c = Some (Some q) →
  ∃ r, shortestPath g a c = Some (Some r) ∧
       length r - 1 ≤ (length p - 1) + (length q - 1).
Proof.
  intros Hb Hp Hq.
  pose proof (shortestPath_answer g a b Hb) as Hab. rewrite Hp in Hab.
  pose proof (shortestPath_answer g b c Hb) as Hbc. rewrite Hq in Hbc.
  inversion Hab as [| |p' Ha _ Hwp _]; subst.
  inversion Hbc as [| |q' _ Hc Hwq _]; subst.
  pose proof (walk_app g _ _ _ _ _ Hwp Hwq) as Hw.
  destruct (shortestPath_answer g a c Hb) as [Hac|_ _ Hno|r _ _ Hr Hmin].
  - tauto.
  - by destruct (Hno _ Hw).
  - exists r. split; [done|]. apply Hmin in Hw.
    apply walk_length in Hwq. rewrite length_app in Hw.
    destruct q; simpl in *; lia.
Qed.

Lemma shortestPath_triangle_witness :
  Built Examples.pathABCD ∧
  ∃ r, shortestPath Examples.pathABCD "A" "D" = Some (Some r) ∧
       length r - 1 ≤ (2 - 1) + (3 - 1).
Proof.
  assert (Built Examples.pathABCD) as Hb.
  { apply (build_Built [("A", "B"); ("B", "C"); ("C", "D")] newGraph); [apply Built_new|].
    vm_compute. reflexivity. }
  split; [exact Hb|].
  apply (shortestPath_triangle Examples.pathABCD "A" "B" "D" ["A"; "B"] ["B"; "C"; "D"] Hb).
  - vm_compute. reflexivity.
  - vm_compute. reflexivity.
Defined.

(** X10. On a built graph the path that [shortestPath] returns visits no
    node twice and consists of nodes of the graph, so it has at most as
    many elements as the graph has nodes. *)
Theorem shortestPath_simple {num : Type} (g : Graph num) (a b : string)
  (p : list string) :
  Built g → shortestPath g a b = Some (Some p) →
  NoDup p ∧ (∀ x, x ∈ p → x ∈ nodes g) ∧ length p ≤ length (nodes g).
Proof.
  intros Hb Hp. pose proof (Built_wellFormed _ Hb) as Hwf.
  pose proof (shortestPath_answer g a b Hb) as Hab. rewrite Hp in Hab.
  inversion Hab as [| |p' Ha _ Hw Hmin]; subst.
  assert (NoDup p) as Hnd.
  { destruct (walk_cut g _ _ _ Hw) as [Hnd|(w' & Hw' & Hlen)]; [done|].
    apply Hmin in Hw'. lia. }
  assert (∀ x, x ∈ p → x ∈ nodes g) as Hsub by (intros x; by eapply walk_nodes).
  split_and!; [done..|].
  by apply submseteq_length, NoDup_submseteq.
Qed.

Lemma shortestPath_simple_witness :
  Built Examples.pathABCD ∧ NoDup ["A"; "B"; "C"; "D"].
Proof.
  assert (Built Examples.pathABCD) as Hb.
  { apply (build_Built [("A", "B"); ("B", "C"); ("C", "D")] newGraph); [apply Built_new|].
    vm_compute. reflexivity. }
  split; [exact Hb|].
  apply (shortestPath_simple Examples.pathABCD "A" "D" ["A"; "B"; "C"; "D"] Hb).
  vm_compute. reflexivity.
Defined.

(** X11. Further calls of the interface never lengthen a shortest path:
    when [shortestPath(a, b)] is a path in a built graph, it is a path with
    no more hops in every graph made from it by [addNode] and [addEdge]. *)
Theorem shortestPath_never_longer {num : Type} (g g' : Graph num) (a b : string)
  (p : list string) :
  Built g → Extends g g' → shortestPath g a b = Some (Some p) →
  ∃ q, shortestPath g' a b = Some (Some q) ∧ length q ≤ length p.
Proof.
  intros Hb Hext Hp.
  pose proof (shortestPath_answer g a b Hb) as Hab. rewrite Hp in Hab.
  inversion Hab as [| |p' Ha Hb' Hw _]; subst.
  apply (Extends_walk g g') in Hw; [|done].
  destruct (shortestPath_answer g' a b (Extends_Built _ _ Hext Hb))
    as [Hno|_ _ Hno|q _ _ Hq Hmin].
  - destruct (Extends_nodes g g' Hext) as [k Hk]. rewrite Hk in Hno.
    destruct Hno as [Hno|Hno]; destruct Hno; apply elem_of_app; by left.
  - by destruct (Hno _ Hw).
  - exists q. split; [done|]. by apply Hmin.
Qed.

Lemma shortestPath_never_longer_witness :
  Built (Examples.build [("A", "B")]) ∧
  Extends (Examples.build [("A", "B")]) Examples.pathABCD ∧
  ∃ q, shortestPath Examples.pathABCD "A" "B" = Some (Some q) ∧ length q ≤ 2.
Proof.
  assert (Built (Examples.build [("A", "B")])) as Hb.
  { apply (build_Built [("A", "B")] newGraph); [apply Built_new|].
    vm_compute. reflexivity. }
  assert (Extends (Examples.build [("A", "B")]) Examples.pathABCD) as Hext.
  { apply (build_Extends [("B", "C"); ("C", "D")] _ (Examples.build [("A", "B")]));
      [apply Extends_refl|]. vm_compute. reflexivity. }
  split; [exact Hb|]. split; [exact Hext|].
  apply (shortestPath_never_longer _ _ "A" "B" ["A"; "B"] Hb Hext).
  vm_compute. reflexivity.
Defined.

(** X12. [addEdge(a, b)] joins the parts of its two endpoints and nothing
    else: afterwards a path joins [x] and [y] exactly when one did before,
    or paths joined [x] to one endpoint and the other endpoint to [y]. *)
Theorem addEdge_connects {num : Type} (g g' : Graph num) (a b : string) (w : num)
  (meta : list (string * jsval num)) (x y : string) :
  addEdge a b w meta g = Ok g' →
  connected g' x y ↔
    connected g x y ∨ (connected g x a ∧ connected g b y) ∨
    (connected g x b ∧ connected g a y).
Proof.
  intros (_ & Hnbr & _)%addEdge_Ok.
  assert (∀ u v, v ∈ neighbors g' u ↔
            v ∈ neighbors g u ∨ (u = a ∧ v = b) ∨ (u = b ∧ v = a)) as Hadj.
  { intros u v. rewrite Hnbr. repeat case_decide; simpl; rewrite ?jsset_add_elem;
      naive_solver. }
  assert (∀ u v, connected g u v → connected g' u v) as Hup.
  { intros u v. rewrite !connected_walk. intros [p Hp]. exists p.
    eapply walk_mono; [|done]. intros ???. apply Hadj. by left. }
  assert (connected g' a b) as Hab.
  { apply connected_walk. exists [a; b]. apply (walk_step g' a a b [a]); [apply walk_start|].
    apply Hadj. auto. }
  assert (connected g' b a) as Hba.
  { apply connected_walk. exists [b; a]. apply (walk_step g' b b a [b]); [apply walk_start|].
    apply Hadj. auto. }
  split.
  - rewrite (connected_walk g'). intros [p Hp].
    induction Hp as [|u v p Hp IH Hv].
    + left. apply connected_refl.
    + assert (∀ z, connected g z u → v ∈ neighbors g u → connected g z v) as Hstep.
      { intros z Hz Hn. eapply connected_trans; [exact Hz|].
        apply connected_walk. exists [u; v].
        apply (walk_step g u u v [u]); [apply walk_start|done]. }
      apply Hadj in Hv as [Hv|[[-> ->]|[-> ->]]].
      * destruct IH as [IH|[[IH1 IH2]|[IH1 IH2]]]; eauto.
      * destruct IH as [IH|[[IH1 IH2]|[IH1 IH2]]].
        -- right; left. split; [done|apply connected_refl].
        -- right; left. split; [done|apply connected_refl].
        -- by left.
      * destruct IH as [IH|[[IH1 IH2]|[IH1 IH2]]].
        -- right; right. split; [done|apply connected_refl].
        -- by left.
        -- right; right. split; [done|apply connected_refl].
  - intros [Hxy|[[Hxa Hby]|[Hxb Hay]]]; [auto|..].
    + eapply connected_trans; [apply Hup, Hxa|]. eapply connected_trans; [exact Hab|auto].
    + eapply connected_trans; [apply Hup, Hxb|]. eapply connected_trans; [exact Hba|auto].
Qed.

Lemma addEdge_connects_witness :
  connected Examples.twoParts "A" "E" ∧ ¬ connected (Examples.build [("A", "B"); ("C", "D")]) "A" "E".
Proof.
  assert (addEdge "B" "E" (QArith_base.inject_Z 1) [] (Examples.build [("A", "B"); ("C", "D")])
          = Ok Examples.twoParts) as Hadd by (vm_compute; reflexivity).
  pose proof (addEdge_connects _ _ _ _ _ _ "A" "E" Hadd) as Hiff.
  assert (Built (Examples.build [("A", "B"); ("C", "D")])) as Hb.
  { apply (build_Built [("A", "B"); ("C", "D")] newGraph); [apply Built_new|].
    vm_compute. reflexivity. }
  split.
  - apply Hiff. right; left. split; [|apply connected_refl].
    apply connected_walk. exists ["A"; "B"].
    apply (walk_step _ "A" "A" "B" ["A"]); [apply walk_start|].
    apply (bool_decide_unpack _). vm_compute. exact I.
  - intros [w Hw]%connected_walk.
    apply (walk_end_node _ _ _ _ (Built_wellFormed _ Hb)) in Hw.
    + revert Hw. apply (bool_decide_unpack _). vm_compute. exact I.
    + apply (bool_decide_unpack _). vm_compute. exact I.
Defined.

(** ** [assignCommunities] *)

Lemma communityLabel_inj (i j : nat) : communityLabel i = communityLabel j → i = j.
Proof.
  unfold communityLabel. intros Heq.
  assert (NilEmpty.string_of_uint (Nat.to_uint (S i)) =
          NilEmpty.string_of_uint (Nat.to_uint (S j))) as Hs.
  { cbv [String.append] in Heq. fold String.append in Heq. by injection Heq. }
  assert (Some (Nat.to_uint (S i)) = Some (Nat.to_uint (S j))) as Hu.
  { by rewrite <- !NilEmpty.usu, Hs. }
  injection Hu as Hu. apply DecimalNat.Unsigned.to_uint_inj in Hu. lia.
Qed.

Lemma imap_pair_elem {A : Type} (l : list A) (i : nat) (x : A) :
  (i, x) ∈ imap pair l ↔ l !! i = Some x.
Proof.
  rewrite elem_of_lookup_imap. split.
  - by intros (j & y & [= -> ->] & Hy).
  - intros Hx. by exists i, x.
Qed.

Lemma imap_pair_snd {A : Type} (l : list A) : (imap pair l).*2 = l.
Proof.
  rewrite fmap_imap. rewrite <- (list_fmap_id l) at 2. rewrite <- imap_const.
  by apply imap_ext.
Qed.

Section assign_facts.
Context {num : Type}.
Implicit Types (g : Graph num) (data : list (string * list (string * jsval num))).
Implicit Types (ics : list (nat * list string)).

Lemma labelledRecord_get data lbl x k :
  jsmap_get k (labelledRecord data lbl x) =
  if decide (k = "communityId") then Some (JStr lbl)
  else jsmap_get k (default (stubNode x) (jsmap_get x data)).
Proof.
  unfold labelledRecord, spread. simpl. rewrite jsmap_get_set.
  repeat case_decide; congruence.
Qed.

Lemma assignOne_get lbl data id x :
  jsmap_get x (assignOne lbl data id) =
  if decide (x = id) then Some (labelledRecord data lbl id) else jsmap_get x data.
Proof.
  unfold assignOne, labelledRecord. rewrite jsmap_get_set.
  repeat case_decide; congruence.
Qed.

Lemma assignOne_fold_get lbl (c : list string) data x :
  NoDup c →
  jsmap_get x (fold_left (assignOne lbl) c data) =
  if decide (x ∈ c) then Some (labelledRecord data lbl x) else jsmap_get x data.
Proof.
  revert data. induction c as [|id c IH]; intros data Hnd; cbn [fold_left].
  - rewrite decide_False; [done | apply not_elem_of_nil].
  - apply NoDup_cons in Hnd as [Hid Hnd]. rewrite IH by done.
    rewrite assignOne_get. destruct (decide (x = id)) as [->|Hne].
    + rewrite decide_False by done. rewrite decide_True; [done | left].
    + destruct (decide (x ∈ c)) as [Hc|Hc].
      * rewrite decide_True by (by right). unfold labelledRecord.
        rewrite assignOne_get. by rewrite decide_False.
      * rewrite decide_False; [done|]. by intros [?|?]%elem_of_cons.
Qed.

Lemma assign_fold_get ics data x :
  NoDup (concat ics.*2) →
  let data' := fold_left (λ data ic, fold_left (assignOne (communityLabel ic.1)) ic.2 data)
                 ics data in
  (x ∉ concat ics.*2 → jsmap_get x data' = jsmap_get x data) ∧
  (∀ i c, (i, c) ∈ ics → x ∈ c →
     jsmap_get x data' = Some (labelledRecord data (communityLabel i) x)).
Proof.
  revert data. induction ics as [|[i0 c0] ics IH]; intros data Hnd; simpl.
  - split; [done|]. by intros i c ?%elem_of_nil.
  - csimpl in Hnd. apply NoDup_app in Hnd as (Hc0 & Hdisj & Hrest).
    destruct (IH (fold_left (assignOne (communityLabel i0)) c0 data) Hrest) as [IH1 IH2].
    split.
    + csimpl. intros [Hx0 Hx]%not_elem_of_app. rewrite IH1 by done.
      rewrite assignOne_fold_get by done. by rewrite decide_False.
    + intros i c [[= -> ->]|Hic]%elem_of_cons Hx.
      * rewrite IH1 by (by apply Hdisj). rewrite assignOne_fold_get by done.
        by rewrite decide_True.
      * assert (x ∈ concat ics.*2) as Hin.
        { apply elem_of_concat. exists c. split; [done|].
          apply list_elem_of_fmap. by exists (i, c). }
        rewrite (IH2 i c Hic Hx). unfold labelledRecord.
        rewrite assignOne_fold_get by done. rewrite decide_False; [done|].
        intros Hx0. by apply (Hdisj x).
Qed.

Lemma spread_same (r : list (string * jsval num)) k v :
  jsmap_get k r = Some v → spread r [(k, v)] = r.
Proof. intros Hk. unfold spread. simpl. by apply jsmap_set_same. Qed.

Lemma assign_fold_fixed ics data :
  (∀ i c x, (i, c) ∈ ics → x ∈ c →
     ∃ r, jsmap_get x data = Some r ∧
          jsmap_get "communityId" r = Some (JStr (communityLabel i))) →
  fold_left (λ data ic, fold_left (assignOne (communityLabel ic.1)) ic.2 data) ics data
  = data.
Proof.
  induction ics as [|[i0 c0] ics IH]; intros Hfix; simpl; [done|].
  assert (fold_left (assignOne (communityLabel i0)) c0 data = data) as ->.
  { assert (∀ x, x ∈ c0 → ∃ r, jsmap_get x data = Some r ∧
              jsmap_get "communityId" r = Some (JStr (communityLabel i0))) as Hc0.
    { intros x Hx. apply (Hfix i0 c0 x); [left | done]. }
    clear -Hc0. induction c0 as [|x c0 IH]; simpl; [done|].
    destruct (Hc0 x) as (r & Hr & Hid); [left|].
    assert (assignOne (communityLabel i0) data x = data) as ->.
    { unfold assignOne. rewrite Hr. change (default (stubNode x) (Some r)) with r.
      rewrite (spread_same r _ _ Hid).
      by apply jsmap_set_same. }
    apply IH. intros y Hy. apply Hc0. by right. }
  apply IH. intros i c x Hic Hx. apply (Hfix i c x); [by right | done].
Qed.

Lemma connectedComponents_facts g :
  Built g →
  ∃ comps, connectedComponents g = Some comps ∧
    concat comps ≡ₚ nodes g ∧ NoDup (concat comps) ∧
    (∀ c, c ∈ comps → isComponent g c) ∧
    startsInOrder g comps.
Proof.
  intros Hwf%Built_wellFormed.
  destruct (connectedComponentsFuel_spec g (S (length (nodes g))) Hwf) as
    (comps & Hc & Hperm & Hcomp & Hord); [lia|].
  exists comps. split_and!; [done..| |done|done].
  rewrite Hperm. apply Hwf.
Qed.

Lemma connectedComponents_nodeData g data :
  connectedComponents {| adjacency := adjacency g; nodeData := data |} =
  connectedComponents g.
Proof. reflexivity. Qed.

(** What [assignCommunities] does, in one statement. *)
Lemma assignCommunities_spec g :
  Built g →
  ∃ g' comps, assignCommunities g = Some (g', comps) ∧
    connectedComponents g = Some comps ∧
    adjacency g' = adjacency g ∧ Built g' ∧
    (∀ i c x, comps !! i = Some c → x ∈ c →
       jsmap_get x (nodeData g') =
       Some (labelledRecord (nodeData g) (communityLabel i) x)) ∧
    (∀ x, x ∉ nodes g → jsmap_get x (nodeData g') = jsmap_get x (nodeData g)).
Proof.
  intros Hb. destruct (connectedComponents_facts g Hb) as (comps & Hc & Hperm & Hnd & _).
  unfold assignCommunities. rewrite Hc. simpl. eexists _, comps. split; [done|].
  simpl. split_and!; [done..|by apply Built_nodeData| |].
  - intros i c x Hi Hx.
    pose proof (assign_fold_get (imap pair comps) (nodeData g) x) as Hget.
    rewrite imap_pair_snd in Hget. destruct (Hget Hnd) as [_ H2].
    apply (H2 i c); [by apply imap_pair_elem | done].
  - intros x Hx.
    pose proof (assign_fold_get (imap pair comps) (nodeData g) x) as Hget.
    rewrite imap_pair_snd in Hget. destruct (Hget Hnd) as [H1 _].
    apply H1. by rewrite Hperm.
Qed.

End assign_facts.

(** X13. On a built graph [assignCommunities] returns the components of
    [connectedComponents()] and leaves the adjacency as it is; every node
    of the i-th component gets the community id [C] followed by [i + 1] in
    decimal, keeps every other property of its record, and the record of
    an id that is not a node is not touched. *)
Theorem assignCommunities_labels {num : Type} (g : Graph num) :
  Built g →
  ∃ g' comps, assignCommunities g = Some (g', comps) ∧
    connectedComponents g = Some comps ∧
    adjacency g' = adjacency g ∧
    (∀ i c x, comps !! i = Some c → x ∈ c →
       communityOf g' x = Some (JStr (communityLabel i)) ∧
       ∀ k, k ≠ "communityId" →
            (jsmap_get x (nodeData g') ≫= jsmap_get k) =
            jsmap_get k (default (stubNode x) (jsmap_get x (nodeData g)))) ∧
    (∀ x, x ∉ nodes g → jsmap_get x (nodeData g') = jsmap_get x (nodeData g)).
Proof.
  intros Hb.
  destruct (assignCommunities_spec g Hb) as (g' & comps & Ha & Hc & Hadj & _ & Hin & Hout).
  exists g', comps. split_and!; [done..| |done].
  intros i c x Hi Hx. unfold communityOf. rewrite (Hin i c x Hi Hx). simpl. split.
  - by rewrite labelledRecord_get, decide_True.
  - intros k Hk. by rewrite labelledRecord_get, decide_False.
Qed.

Lemma assignCommunities_labels_witness :
  Built Examples.twoParts ∧
  ∃ g', assignCommunities Examples.twoParts = Some (g', [["A"; "B"; "E"]; ["C"; "D"]]) ∧
        communityOf g' "E" = Some (JStr "C1") ∧ communityOf g' "D" = Some (JStr "C2").
Proof.
  assert (Built Examples.twoParts) as Hb.
  { apply (build_Built [("A", "B"); ("C", "D"); ("B", "E")] newGraph); [apply Built_new|].
    vm_compute. reflexivity. }
  split; [exact Hb|].
  destruct (assignCommunities_labels Examples.twoParts Hb)
    as (g' & comps & Ha & Hc & _ & Hlab & _).
  assert (connectedComponents Examples.twoParts = Some [["A"; "B"; "E"]; ["C"; "D"]])
    as Hc' by (vm_compute; reflexivity).
  assert (comps = [["A"; "B"; "E"]; ["C"; "D"]]) as ->.
  { rewrite Hc' in Hc. by injection Hc as <-. }
  exists g'. split; [exact Ha|].
  destruct (Hlab 0 ["A"; "B"; "E"] "E" eq_refl) as [H1 _];
    [apply (bool_decide_unpack _); vm_compute; exact I|].
  destruct (Hlab 1 ["C"; "D"] "D" eq_refl) as [H2 _];
    [apply (bool_decide_unpack _); vm_compute; exact I|].
  rewrite H1, H2. split; vm_compute; reflexivity.
Defined.

Lemma assigned_same_community {num : Type} (g g' : Graph num)
  (comps : list (list string)) (x y : string) :
  Built g → assignCommunities g = Some (g', comps) →
  x ∈ nodes g → y ∈ nodes g →
  communityOf g' x = communityOf g' y ↔ connected g x y.
Proof.
  intros Hb Ha Hx Hy. pose proof (Built_wellFormed _ Hb) as Hwf.
  destruct (assignCommunities_spec g Hb) as (g2 & comps2 & Ha2 & Hc & _ & _ & Hin & _).
  rewrite Ha in Ha2. injection Ha2 as <- <-.
  destruct (connectedComponents_facts g Hb) as (comps' & Hc' & Hperm & Hnd & Hcomp & _).
  rewrite Hc in Hc'. injection Hc' as <-.
  assert (∀ z, z ∈ nodes g → z ∈ concat comps) as Hcover by (intros z; by rewrite Hperm).
  assert (∀ z, z ∈ nodes g → ∃ i c, comps !! i = Some c ∧ z ∈ c ∧
            communityOf g' z = Some (JStr (communityLabel i))) as Hlab.
  { intros z (c & Hzc & [i Hi]%list_elem_of_lookup)%Hcover%elem_of_concat.
    exists i, c. split_and!; [done..|]. unfold communityOf.
    rewrite (Hin i c z Hi Hzc). simpl. by rewrite labelledRecord_get, decide_True. }
  destruct (Hlab x Hx) as (i & cx & Hi & Hxc & ->).
  destruct (Hlab y Hy) as (j & cy & Hj & Hyc & ->).
  rewrite <- (components_connected g comps x y Hwf Hcomp Hcover Hx). split.
  - intros Heq.
    assert (communityLabel i = communityLabel j) as Hij%communityLabel_inj.
    { apply (f_equal (λ o, match o with Some (JStr s) => s | _ => "" end)) in Heq.
      exact Heq. }
    subst j. exists cx.
    split_and!; [by eapply list_elem_of_lookup_2|done|]. congruence.
  - intros (c & [k Hk]%list_elem_of_lookup & Hxc' & Hyc').
    assert (k = i) as -> by (by eapply (NoDup_concat_unique comps k i c cx x)).
    assert (i = j) as -> by (by eapply (NoDup_concat_unique comps i j c cy y)).
    done.
Qed.

(** X14. After [assignCommunities] on a built graph two nodes carry the
    same community id exactly when a path joins them. *)
Theorem same_community_iff_connected {num : Type} (g g' : Graph num)
  (comps : list (list string)) (x y : string) :
  Built g → assignCommunities g = Some (g', comps) →
  x ∈ nodes g → y ∈ nodes g →
  communityOf g' x = communityOf g' y ↔ connected g x y.
Proof.
  intros Hb Ha Hx Hy.
  split; intros Hxy; by eapply (assigned_same_community g g' comps x y).
Qed.

Lemma same_community_iff_connected_witness :
  Built Examples.twoParts ∧
  ∃ g', assignCommunities Examples.twoParts = Some (g', [["A"; "B"; "E"]; ["C"; "D"]]) ∧
        communityOf g' "A" = communityOf g' "E" ∧ connected Examples.twoParts "A" "E".
Proof.
  assert (Built Examples.twoParts) as Hb.
  { apply (build_Built [("A", "B"); ("C", "D"); ("B", "E")] newGraph); [apply Built_new|].
    vm_compute. reflexivity. }
  split; [exact Hb|].
  destruct (assignCommunities Examples.twoParts) as [[g' comps]|] eqn:Ha;
    [|vm_compute in Ha; discriminate].
  assert (comps = [["A"; "B"; "E"]; ["C"; "D"]]) as ->.
  { vm_compute in Ha. by injection Ha as _ <-. }
  exists g'. split; [reflexivity|].
  assert ("A" ∈ nodes Examples.twoParts) as HA
    by (apply (bool_decide_unpack _); vm_compute; exact I).
  assert ("E" ∈ nodes Examples.twoParts) as HE
    by (apply (bool_decide_unpack _); vm_compute; exact I).
  pose proof (same_community_iff_connected Examples.twoParts g' _ "A" "E" Hb Ha HA HE)
    as Hiff.
  assert (communityOf g' "A" = communityOf g' "E") as Heq.
  { vm_compute in Ha. injection Ha as <-. vm_compute. reflexivity. }
  split; [exact Heq|]. by apply Hiff.
Defined.

(** X15. [assignCommunities] is idempotent on built graphs: a second call
    returns the same components and changes no record. *)
Theorem assignCommunities_idempotent {num : Type} (g g' : Graph num)
  (comps : list (list string)) :
  Built g → assignCommunities g = Some (g', comps) →
  assignCommunities g' = Some (g', comps).
Proof.
  intros Hb Ha.
  destruct (assignCommunities_spec g Hb) as (g2 & comps2 & Ha2 & Hc & Hadj & _ & Hin & _).
  rewrite Ha in Ha2. injection Ha2 as <- <-.
  assert (connectedComponents g' = Some comps) as Hc'.
  { rewrite <- Hc. destruct g' as [adj data]. simpl in Hadj. subst adj.
    apply connectedComponents_nodeData. }
  unfold assignCommunities. rewrite Hc'. simpl.
  rewrite assign_fold_fixed; [by destruct g'|].
  intros i c x Hic%imap_pair_elem Hx. eexists. split; [by eapply Hin|].
  by rewrite labelledRecord_get, decide_True.
Qed.

Lemma assignCommunities_idempotent_witness :
  Built Examples.single ∧
  assignCommunities Examples.labelled = Some (Examples.labelled, [["a"]]).
Proof.
  assert (Built Examples.single) as Hb.
  { apply (Built_addNode [("id", JStr "a"); ("name", JStr "Taylor Swift")] newGraph);
      [apply Built_new|]. vm_compute. reflexivity. }
  split; [exact Hb|].
  apply (assignCommunities_idempotent Examples.single Examples.labelled [["a"]] Hb).
  vm_compute. reflexivity.
Defined.

(** ** The resolvers *)

Lemma filter_all {A : Type} (p : A → bool) (l : list A) :
  (∀ x, x ∈ l → p x = true) → List.filter p l = l.
Proof.
  induction l as [|a l IH]; intros Hp; simpl; [done|].
  rewrite (Hp a) by left. rewrite IH; [done|]. intros x Hx. apply Hp. by right.
Qed.

Lemma filter_none {A : Type} (p : A → bool) (l : list A) :
  (∀ x, x ∈ l → p x = false) → List.filter p l = [].
Proof.
  induction l as [|a l IH]; intros Hp; simpl; [done|].
  rewrite (Hp a) by left. apply IH. intros x Hx. apply Hp. by right.
Qed.

Lemma elem_of_List_filter {A : Type} (p : A → bool) (l : list A) (x : A) :
  x ∈ List.filter p l ↔ x ∈ l ∧ p x = true.
Proof. rewrite !list_elem_of_In. apply List.filter_In. Qed.

Lemma omap_all {A B : Type} (f : A → option B) (h : A → B) (l : list A) :
  (∀ x, x ∈ l → f x = Some (h x)) → omap f l = h <$> l.
Proof.
  induction l as [|a l IH]; intros Hf; csimpl; [done|].
  rewrite (Hf a) by left. rewrite IH; [done|]. intros x Hx. apply Hf. by right.
Qed.

Lemma omap_none {A B : Type} (f : A → option B) (l : list A) :
  (∀ x, x ∈ l → f x = None) → omap f l = [].
Proof.
  induction l as [|a l IH]; intros Hf; csimpl; [done|].
  rewrite (Hf a) by left. apply IH. intros x Hx. apply Hf. by right.
Qed.

Lemma NoDup_concat_elem (ls : list (list string)) (c : list string) :
  NoDup (concat ls) → c ∈ ls → NoDup c.
Proof.
  induction ls as [|l ls IH]; simpl; intros Hnd Hc; [by apply elem_of_nil in Hc|].
  apply NoDup_app in Hnd as (Hl & _ & Hls).
  apply elem_of_cons in Hc as [->|Hc]; auto.
Qed.

(** *** Upper case *)

Lemma upperChar_not_lower (c : Ascii.ascii) : isLowerChar (upperChar c) = false.
Proof.
  unfold isLowerChar, upperChar. cbv zeta.
  pose proof (Ascii.nat_ascii_bounded c) as Hc.
  apply bool_decide_eq_false.
  destruct (bool_decide (97 ≤ Ascii.nat_of_ascii c ≤ 122)) eqn:Hlow.
  - apply bool_decide_eq_true in Hlow.
    rewrite Ascii.nat_ascii_embedding by lia. lia.
  - by apply bool_decide_eq_false in Hlow.
Qed.

Lemma toUpperCase_no_lower (s : string) : hasLower (toUpperCase s) = false.
Proof.
  induction s as [|c s IH]; simpl; [done|].
  rewrite upperChar_not_lower. exact IH.
Qed.

Section query_more.
Context `{JsNumber num}.
Implicit Types (g : Graph num) (cen : list (string * num)).

Lemma toNodeTypeEnum_no_lower (t : option (jsval num)) : hasLower (toNodeTypeEnum t) = false.
Proof.
  unfold toNodeTypeEnum. destruct t as [[| | |s| | |]|]; try reflexivity.
  case_decide; [reflexivity | apply toUpperCase_no_lower].
Qed.

Lemma findNode_created g cen (ids : list string) (x : string) :
  findNode ((λ id, createNodeObject id g cen) <$> ids) x =
  if decide (x ∈ ids) then Some (createNodeObject x g cen) else None.
Proof.
  unfold findNode. induction ids as [|a ids IH]; csimpl.
  - done.
  - case_bool_decide as Ha.
    + subst a. rewrite decide_True; [done | left].
    + rewrite IH. destruct (decide (x ∈ ids)) as [Hx|Hx].
      * rewrite decide_True; [done | by right].
      * rewrite decide_False; [done|]. intros [?|?]%elem_of_cons; congruence.
Qed.

Lemma findNode_Some (nodes : list (NodeObject num)) (id : string) (n : NodeObject num) :
  findNode nodes id = Some n → n ∈ nodes ∧ noId n = id.
Proof.
  unfold findNode. intros [Hin Hid]%List.find_some. split.
  - by apply list_elem_of_In.
  - by apply bool_decide_eq_true in Hid.
Qed.

Lemma created_ids g cen (ids : list string) :
  noId <$> ((λ id, createNodeObject id g cen) <$> ids) = ids.
Proof.
  rewrite <- list_fmap_compose. rewrite <- (list_fmap_id ids) at 2.
  by apply list_fmap_ext.
Qed.

Lemma filterByNodeType_sub (nodes : list (NodeObject num)) nt (n : NodeObject num) :
  n ∈ filterByNodeType nodes nt → n ∈ nodes.
Proof.
  destruct nt as [[|t ts]|]; simpl; [done | | done].
  by intros [? _]%elem_of_List_filter.
Qed.

Lemma filterByNodeType_lower g cen (ids ts : list string) :
  ts ≠ [] → (∀ t, t ∈ ts → hasLower t = true) →
  filterByNodeType ((λ id, createNodeObject id g cen) <$> ids) (Some ts) = [].
Proof.
  intros Hne Hlow. destruct ts as [|t ts]; [done|]. unfold filterByNodeType.
  apply filter_none. intros n (id & -> & _)%list_elem_of_fmap.
  apply bool_decide_eq_false. intros Hin. apply Hlow in Hin.
  simpl in Hin. by rewrite toNodeTypeEnum_no_lower in Hin.
Qed.

Lemma edges_nodes g a b : wellFormed g → (a, b) ∈ edges g → a ∈ nodes g ∧ b ∈ nodes g.
Proof.
  intros Hwf Hab. destruct (edges_at_most_once g Hwf) as (_ & Hadj & _).
  apply Hadj in Hab. split; [|by eapply wf_closed].
  destruct (decide (a ∈ nodes g)) as [|Hn]; [done|].
  rewrite (neighbors_absent g a Hn) in Hab. by apply elem_of_nil in Hab.
Qed.

Lemma component_nodes g (comps : list (list string)) (comp : list string) (x : string) :
  concat comps ≡ₚ nodes g → comp ∈ comps → x ∈ comp → x ∈ nodes g.
Proof. intros Hperm Hc Hx. rewrite <- Hperm. apply elem_of_concat. eauto. Qed.

Lemma component_nonempty g (comps : list (list string)) (comp : list string) :
  (∀ c, c ∈ comps → isComponent g c) → comp ∈ comps → 0 < length comp.
Proof.
  intros Hcomp Hc. destruct (Hcomp comp Hc) as (start & Hs & _).
  destruct comp; [done | simpl; lia].
Qed.

(** The response of [Query.graph] without a type filter. *)
Lemma queryGraph_all g (comps : list (list string)) :
  Built g → connectedComponents g = Some comps →
  let mk := λ id, createNodeObject id g (degreeCentrality true g) in
  queryGraph g None =
  Some {| goNodes := mk <$> nodes g;
          goEdges := (λ e, {| eoSource := e.1; eoTarget := e.2;
                              eoRelation := "connected" |}) <$> edges g;
          goCommunities :=
            imap (λ i comp, {| coId := JStr (communityLabel i); coNodes := mk <$> comp;
                               coNodeCount := length comp |}) comps;
          goNodeCount := length (nodes g);
          goEdgeCount := length (edges g) |}.
Proof.
  intros Hb Hc mk. pose proof (Built_wellFormed _ Hb) as Hwf.
  destruct (connectedComponents_facts g Hb) as (comps' & Hc' & Hperm & _ & Hcomp & _).
  rewrite Hc in Hc'. injection Hc' as <-.
  unfold queryGraph. cbn [typesGiven]. rewrite Hc. cbn [mbind option_bind].
  fold mk.
  assert (omap (graphEdge (mk <$> nodes g)) (edges g) =
          (λ e, {| eoSource := e.1; eoTarget := e.2; eoRelation := "connected" |})
            <$> edges g) as ->.
  { apply omap_all. intros [a b] [Ha Hb']%(edges_nodes g a b Hwf).
    unfold graphEdge, mk. rewrite !findNode_created. simpl.
    by rewrite !decide_True. }
  assert (imap (graphCommunity g (degreeCentrality true g) (mk <$> nodes g)) comps =
          imap (λ i comp, {| coId := JStr (communityLabel i); coNodes := mk <$> comp;
                             coNodeCount := length comp |}) comps) as ->.
  { apply imap_ext. intros i comp Hi. unfold graphCommunity.
    assert (omap (λ nodeId, match findNode (mk <$> nodes g) nodeId with
                            | Some _ => Some (createNodeObject nodeId g (degreeCentrality true g))
                            | None => None
                            end) comp = mk <$> comp) as ->.
    { apply omap_all. intros x Hx. unfold mk. rewrite findNode_created.
      rewrite decide_True; [done|].
      eapply component_nodes; [done| |done]. by eapply list_elem_of_lookup_2. }
    by rewrite length_fmap. }
  rewrite filter_all.
  - by rewrite !length_fmap.
  - intros cm (i & comp & -> & Hi)%elem_of_lookup_imap. simpl.
    apply bool_decide_eq_true. rewrite length_fmap.
    eapply component_nonempty; [done|]. by eapply list_elem_of_lookup_2.
Qed.

Lemma find_component (comps : list (list string)) (id : string) :
  match List.find (λ c, bool_decide (id ∈ c)) comps with
  | Some c => c ∈ comps ∧ id ∈ c
  | None => id ∉ concat comps
  end.
Proof.
  induction comps as [|c comps IH]; simpl; [apply not_elem_of_nil|].
  case_bool_decide as Hc.
  - split; [left | done].
  - destruct (List.find _ comps) as [c'|].
    + destruct IH. split; [by right | done].
    + by intros [?|?]%elem_of_app.
Qed.

End query_more.

(** X16. A type filter whose names contain a lower-case letter (such as
    the values [artist], [song], [album] of the [NodeType] map) matches no
    node object, since [createNodeObject] reports node types in upper
    case: [filterByNodeType] returns nothing, [Query.neighbors] returns
    no node, and on a built graph [Query.graph] with such a filter
    returns the response with no node, no edge, no community and both
    counts zero. *)
Theorem lower_case_filter_matches_nothing `{JsNumber num} (g : Graph num)
  (ts : list string) :
  ts ≠ [] → (∀ t, t ∈ ts → hasLower t = true) →
  (∀ ids c, filterByNodeType ((λ id, createNodeObject id g c) <$> ids) (Some ts) = []) ∧
  (∀ id, queryNeighbors g id (Some ts) = []) ∧
  (Built g →
   queryGraph g (Some ts) =
   Some {| goNodes := []; goEdges := []; goCommunities := [];
           goNodeCount := 0; goEdgeCount := 0 |}).
Proof.
  intros Hne Hlow.
  assert (typesGiven (Some ts) = true) as Hgiven by (by destruct ts).
  split_and!.
  - intros ids c. by apply filterByNodeType_lower.
  - intros id. unfold queryNeighbors. rewrite Hgiven. by apply filterByNodeType_lower.
  - intros Hb. destruct (connectedComponents_facts g Hb) as (comps & Hc & _).
    unfold queryGraph. rewrite Hgiven.
    rewrite (filterByNodeType_lower g _ (nodes g) ts Hne Hlow).
    rewrite Hc. cbn [mbind option_bind].
    assert (omap (graphEdge (num:=num) []) (edges g) = []) as ->
      by (by apply omap_none).
    rewrite filter_none; [done|].
    intros cm (i & comp & -> & Hi)%elem_of_lookup_imap.
    apply bool_decide_eq_false. unfold graphCommunity. cbn [coNodes].
    rewrite omap_none; [simpl; lia | done].
Qed.

Lemma lower_case_filter_matches_nothing_witness :
  Built Examples.twoParts ∧
  queryNeighbors Examples.twoParts "B" (Some ["artist"; "song"; "album"]) = [] ∧
  length (queryNeighbors Examples.twoParts "B" None) = 2 ∧
  (goNodeCount <$> queryGraph Examples.twoParts (Some ["artist"; "song"; "album"])) = Some 0 ∧
  (goNodeCount <$> queryGraph Examples.twoParts None) = Some 5.
Proof.
  assert (Built Examples.twoParts) as Hb.
  { apply (build_Built [("A", "B"); ("C", "D"); ("B", "E")] newGraph); [apply Built_new|].
    vm_compute. reflexivity. }
  split; [exact Hb|].
  destruct (lower_case_filter_matches_nothing Examples.twoParts
              ["artist"; "song"; "album"]) as (_ & Hn & Hg).
  - done.
  - intros t Ht. repeat (apply elem_of_cons in Ht as [->|Ht]; [reflexivity|]).
    by apply elem_of_nil in Ht.
  - split; [apply Hn|]. split; [vm_compute; reflexivity|].
    split; [by rewrite (Hg Hb)|]. vm_compute. reflexivity.
Defined.

(** X17. On a built graph [Query.graph] without a type filter returns the
    whole graph: the node objects of [nodes()] in order, the pairs of
    [edges()] in order, the components of [connectedComponents()] as
    communities labelled [C1], [C2], ... with their sizes, and the two
    counts. *)
Theorem queryGraph_unfiltered `{JsNumber num} (g : Graph num) :
  Built g →
  ∃ r comps, queryGraph g None = Some r ∧ connectedComponents g = Some comps ∧
    noId <$> goNodes r = nodes g ∧
    (λ e, (eoSource e, eoTarget e)) <$> goEdges r = edges g ∧
    (λ cm, (coId cm, noId <$> coNodes cm, coNodeCount cm)) <$> goCommunities r =
      imap (λ i comp, (JStr (communityLabel i), comp, length comp)) comps ∧
    goNodeCount r = length (nodes g) ∧ goEdgeCount r = length (edges g).
Proof.
  intros Hb. destruct (connectedComponents_facts g Hb) as (comps & Hc & _).
  eexists _, comps. split; [by apply queryGraph_all|]. split; [done|].
  cbn [goNodes goEdges goCommunities goNodeCount goEdgeCount]. split_and!; [| | |done..].
  - apply created_ids.
  - rewrite <- list_fmap_compose. rewrite <- (list_fmap_id (edges g)) at 2.
    apply list_fmap_ext. by intros i [a b].
  - rewrite fmap_imap. apply imap_ext. intros i comp _. simpl.
    by rewrite created_ids.
Qed.

Lemma queryGraph_unfiltered_witness :
  Built Examples.twoParts ∧
  ∃ r, queryGraph Examples.twoParts None = Some r ∧
       noId <$> goNodes r = ["A"; "B"; "C"; "D"; "E"] ∧ goEdgeCount r = 3.
Proof.
  assert (Built Examples.twoParts) as Hb.
  { apply (build_Built [("A", "B"); ("C", "D"); ("B", "E")] newGraph); [apply Built_new|].
    vm_compute. reflexivity. }
  split; [exact Hb|].
  destruct (queryGraph_unfiltered Examples.twoParts Hb)
    as (r & comps & Hr & _ & Hn & _ & _ & _ & He).
  exists r. split; [exact Hr|]. rewrite Hn, He. split; vm_compute; reflexivity.
Defined.

(** X18. On a built graph [Query.graph] returns a response whatever the
    type filter, and the response has no dangling reference: its nodes
    are the node objects of [nodes()] that pass the filter, every edge is
    a pair of [edges()] with both ends among the returned nodes, every
    community is non-empty, counts its nodes, and holds returned nodes
    only, and the two counts are the lengths of the two lists. *)
Theorem queryGraph_consistent `{JsNumber num} (g : Graph num)
  (nodeTypes : option (list string)) :
  Built g →
  ∃ r, queryGraph g nodeTypes = Some r ∧
    let ids := noId <$> goNodes r in
    let all := (λ id, createNodeObject id g (degreeCentrality true g)) <$> nodes g in
    goNodes r = (if typesGiven nodeTypes then filterByNodeType all nodeTypes else all) ∧
    (∀ id, id ∈ ids → id ∈ nodes g) ∧
    (∀ e, e ∈ goEdges r →
          (eoSource e, eoTarget e) ∈ edges g ∧ eoSource e ∈ ids ∧ eoTarget e ∈ ids) ∧
    (∀ cm, cm ∈ goCommunities r →
          coNodes cm ≠ [] ∧ coNodeCount cm = length (coNodes cm) ∧
          ∀ n, n ∈ coNodes cm → noId n ∈ ids) ∧
    goNodeCount r = length (goNodes r) ∧ goEdgeCount r = length (goEdges r).
Proof.
  intros Hb. destruct (connectedComponents_facts g Hb) as (comps & Hc & _).
  unfold queryGraph. rewrite Hc. cbn [mbind option_bind].
  set (cen := degreeCentrality true g).
  set (nodes' := if typesGiven nodeTypes then _ else _).
  eexists. split; [reflexivity|].
  cbn [goNodes goEdges goCommunities goNodeCount goEdgeCount].
  set (ids := noId <$> nodes').
  assert (∀ n, n ∈ nodes' → noId n ∈ nodes g) as Hsub.
  { intros n Hn.
    assert (n ∈ (λ id, createNodeObject id g cen) <$> nodes g) as Hn'.
    { unfold nodes' in Hn. destruct (typesGiven nodeTypes); [|done].
      by eapply filterByNodeType_sub. }
    by apply list_elem_of_fmap in Hn' as (id & -> & Hid). }
  assert (∀ x n, findNode nodes' x = Some n → x ∈ ids) as Hfound.
  { intros x n [Hn <-]%findNode_Some. apply list_elem_of_fmap. by exists n. }
  split_and!; [done| | | |done..].
  - intros id (n & -> & Hn)%list_elem_of_fmap. by apply Hsub.
  - intros e ([a b] & Hab & He)%list_elem_of_omap. unfold graphEdge in He. simpl in He.
    destruct (findNode nodes' a) as [na|] eqn:Ea; [|done].
    destruct (findNode nodes' b) as [nb|] eqn:Eb; [|done].
    injection He as <-. simpl. eauto.
  - intros cm [(i & comp & -> & Hi)%elem_of_lookup_imap Hlen]%elem_of_List_filter.
    apply bool_decide_eq_true in Hlen. unfold graphCommunity in *. cbn [coNodes] in *.
    split_and!.
    + intros Hnil. rewrite Hnil in Hlen. simpl in Hlen. lia.
    + done.
    + intros n (x & Hx & Hn)%list_elem_of_omap.
      destruct (findNode nodes' x) as [n'|] eqn:Ex; [|done].
      injection Hn as <-. simpl. by eapply Hfound.
Qed.

Lemma queryGraph_consistent_witness :
  Built Examples.twoParts ∧
  ∃ r, queryGraph Examples.twoParts (Some ["ARTIST"]) = Some r ∧
       goNodeCount r = length (goNodes r) ∧ goNodeCount r = 5.
Proof.
  assert (Built Examples.twoParts) as Hb.
  { apply (build_Built [("A", "B"); ("C", "D"); ("B", "E")] newGraph); [apply Built_new|].
    vm_compute. reflexivity. }
  split; [exact Hb|].
  destruct (queryGraph_consistent Examples.twoParts (Some ["ARTIST"]) Hb)
    as (r & Hr & _ & _ & _ & _ & Hn & _).
  exists r. split; [exact Hr|]. split; [exact Hn|].
  vm_compute in Hr. by injection Hr as <-.
Defined.

(** X19. [Query.neighbors] of an id that is not a node is empty. On a
    built graph every object it returns is a node that has the queried id
    among its own neighbors, so its degree is at least one; without a type
    filter the objects are those of [neighbors(id)], in order. *)
Theorem queryNeighbors_adjacent `{JsNumber num} (g : Graph num) (id : string)
  (nodeTypes : option (list string)) :
  Built g →
  (id ∉ nodes g → queryNeighbors g id nodeTypes = []) ∧
  (∀ n, n ∈ queryNeighbors g id nodeTypes →
        noId n ∈ neighbors g id ∧ id ∈ neighbors g (noId n) ∧
        noId n ∈ nodes g ∧ 0 < noDegree n) ∧
  noId <$> queryNeighbors g id None = neighbors g id ∧
  length (queryNeighbors g id None) = degree g id.
Proof.
  intros Hwf%Built_wellFormed. split_and!.
  - intros Hid. unfold queryNeighbors. rewrite (neighbors_absent g id Hid).
    destruct nodeTypes as [[|??]|]; reflexivity.
  - intros n Hn.
    assert (n ∈ (λ x, createNodeObject x g (degreeCentrality true g)) <$> neighbors g id)
      as (x & -> & Hx)%list_elem_of_fmap.
    { unfold queryNeighbors in Hn. destruct (typesGiven nodeTypes); [|done].
      by eapply filterByNodeType_sub. }
    cbn [noId noDegree createNodeObject].
    pose proof (neighbors_sym g id x Hwf Hx) as Hsym.
    split_and!; [done..|by eapply wf_closed|].
    rewrite degree_neighbors. destruct (neighbors g x); [by apply elem_of_nil in Hsym|].
    simpl. lia.
  - unfold queryNeighbors. cbn [typesGiven]. apply created_ids.
  - unfold queryNeighbors. cbn [typesGiven]. by rewrite length_fmap, degree_neighbors.
Qed.

Lemma queryNeighbors_adjacent_witness :
  Built Examples.pathABCD ∧
  noId <$> queryNeighbors Examples.pathABCD "B" None = ["A"; "C"] ∧
  queryNeighbors Examples.pathABCD "Z" (Some ["ARTIST"]) = [].
Proof.
  assert (Built Examples.pathABCD) as Hb.
  { apply (build_Built [("A", "B"); ("B", "C"); ("C", "D")] newGraph); [apply Built_new|].
    vm_compute. reflexivity. }
  split; [exact Hb|].
  destruct (queryNeighbors_adjacent Examples.pathABCD "B" None Hb) as (_ & _ & Hids & _).
  destruct (queryNeighbors_adjacent Examples.pathABCD "Z" (Some ["ARTIST"]) Hb)
    as (Hnone & _).
  split; [rewrite Hids; vm_compute; reflexivity|].
  apply Hnone. apply (bool_decide_unpack _). vm_compute. exact I.
Defined.

(** X20. On a built graph [Query.community(id)] is [null] exactly when
    [id] is not a node; otherwise its nodes are, without repetition, the
    nodes that a path joins to [id], and [nodeCount] is their number. *)
Theorem queryCommunity_members `{JsNumber num, JsTruthy num} (g : Graph num) (id : string) :
  Built g →
  ∃ r, queryCommunity g id = Some r ∧
    (r = None ↔ id ∉ nodes g) ∧
    ∀ cm, r = Some cm →
      (∀ x, x ∈ noId <$> coNodes cm ↔ connected g id x) ∧
      NoDup (noId <$> coNodes cm) ∧
      coNodeCount cm = length (coNodes cm) ∧ 0 < coNodeCount cm.
Proof.
  intros Hb. pose proof (Built_wellFormed _ Hb) as Hwf.
  destruct (connectedComponents_facts g Hb) as (comps & Hc & Hperm & Hnd & Hcomp & _).
  unfold queryCommunity. rewrite Hc. cbn [mbind option_bind]. eexists. split; [done|].
  pose proof (find_component comps id) as Hfind.
  destruct (List.find _ comps) as [comp|]; cbn [mbind option_bind].
  - destruct Hfind as [Hin Hid].
    assert (id ∈ nodes g) as Hnode by (by eapply component_nodes).
    split; [split; [done | by intros ?]|].
    intros cm [= <-]. cbn [coNodes coNodeCount]. rewrite created_ids.
    split_and!.
    + intros x.
      rewrite <- (components_connected g comps id x Hwf Hcomp); [|by intros z; rewrite Hperm|done].
      split; [by exists comp|].
      intros (c' & [j Hj]%list_elem_of_lookup & Hid' & Hx).
      apply list_elem_of_lookup in Hin as [i Hi].
      assert (j = i) as -> by (by eapply (NoDup_concat_unique comps j i c' comp id)).
      congruence.
    + by eapply NoDup_concat_elem.
    + done.
    + rewrite length_fmap. by eapply component_nonempty.
  - split; [|done]. split; [|done]. intros _. by rewrite <- Hperm.
Qed.

Lemma queryCommunity_members_witness :
  Built Examples.twoParts ∧
  ∃ cm, queryCommunity Examples.twoParts "E" = Some (Some cm) ∧
        noId <$> coNodes cm = ["A"; "B"; "E"] ∧ connected Examples.twoParts "E" "A".
Proof.
  assert (Built Examples.twoParts) as Hb.
  { apply (build_Built [("A", "B"); ("C", "D"); ("B", "E")] newGraph); [apply Built_new|].
    vm_compute. reflexivity. }
  split; [exact Hb|].
  destruct (queryCommunity_members Examples.twoParts "E" Hb) as (r & Hr & _ & Hmem).
  destruct r as [cm|]; [|vm_compute in Hr; discriminate].
  exists cm. split; [exact Hr|].
  assert (noId <$> coNodes cm = ["A"; "B"; "E"]) as Hids.
  { vm_compute in Hr. by injection Hr as <-. }
  split; [exact Hids|].
  destruct (Hmem cm eq_refl) as (Hconn & _). apply Hconn. rewrite Hids.
  apply (bool_decide_unpack _). vm_compute. exact I.
Defined.

(** X21. After [assignCommunities] on a built graph the community ids
    agree everywhere: [Query.communities] lists the components under the
    labels [C1], [C2], ..., every node object of the i-th component
    carries the i-th label as its [communityId], and [Query.community] of
    such a node returns that label (never the fallback [C0]) with the
    nodes of the component. *)
Theorem community_ids_agree `{JsNumber num, JsTruthy num} (g g' : Graph num)
  (comps : list (list string)) :
  Built g → assignCommunities g = Some (g', comps) →
  let mk := λ x, createNodeObject x g' (degreeCentrality true g') in
  queryCommunities g' =
    Some (imap (λ i comp, {| coId := JStr (communityLabel i); coNodes := mk <$> comp;
                             coNodeCount := length comp |}) comps) ∧
  ∀ i comp x, comps !! i = Some comp → x ∈ comp →
    noCommunityId (mk x) = Some (JStr (communityLabel i)) ∧
    queryCommunity g' x =
      Some (Some {| coId := JStr (communityLabel i); coNodes := mk <$> comp;
                    coNodeCount := length comp |}).
Proof.
  intros Hb Ha mk.
  destruct (assignCommunities_spec g Hb) as (g2 & comps2 & Ha2 & Hc & Hadj & _ & Hin & _).
  rewrite Ha in Ha2. injection Ha2 as <- <-.
  destruct (connectedComponents_facts g Hb) as (comps' & Hc2 & _ & Hnd & _).
  rewrite Hc in Hc2. injection Hc2 as <-.
  assert (connectedComponents g' = Some comps) as Hc'.
  { rewrite <- Hc. destruct g' as [adj data]. simpl in Hadj. subst adj.
    apply connectedComponents_nodeData. }
  split.
  - unfold queryCommunities. rewrite Hc'. reflexivity.
  - intros i comp x Hi Hx.
    assert (communityOf g' x = Some (JStr (communityLabel i))) as Hlab.
    { unfold communityOf. rewrite (Hin i comp x Hi Hx). cbn [mbind option_bind].
      by rewrite labelledRecord_get, decide_True. }
    split.
    + unfold mk. cbn [noCommunityId createNodeObject]. unfold dataOf.
      rewrite (Hin i comp x Hi Hx). cbn [default from_option id].
      by rewrite labelledRecord_get, decide_True.
    + unfold queryCommunity. rewrite Hc'. cbn [mbind option_bind].
      pose proof (find_component comps x) as Hfind.
      destruct (List.find _ comps) as [c'|]; cbn [mbind option_bind].
      * destruct Hfind as [[j Hj]%list_elem_of_lookup Hx'].
        assert (j = i) as -> by (by eapply (NoDup_concat_unique comps j i c' comp x)).
        assert (c' = comp) as -> by congruence.
        rewrite Hlab. unfold jsOr, truthy.
        assert (bool_decide (communityLabel i = "") = false) as ->.
        { apply bool_decide_eq_false. unfold communityLabel.
          cbv [String.append]. done. }
        cbn [negb]. by rewrite length_fmap.
      * destruct Hfind. apply elem_of_concat. exists comp.
        split; [done | by eapply list_elem_of_lookup_2].
Qed.

Lemma community_ids_agree_witness :
  Built Examples.single ∧
  ∃ cm, queryCommunity Examples.labelled "a" = Some (Some cm) ∧ coId cm = JStr "C1".
Proof.
  assert (Built Examples.single) as Hb.
  { apply (Built_addNode [("id", JStr "a"); ("name", JStr "Taylor Swift")] newGraph);
      [apply Built_new|]. vm_compute. reflexivity. }
  split; [exact Hb|].
  assert (assignCommunities Examples.single = Some (Examples.labelled, [["a"]])) as Ha
    by (vm_compute; reflexivity).
  destruct (community_ids_agree Examples.single Examples.labelled [["a"]] Hb Ha)
    as [_ Hq].
  destruct (Hq 0 ["a"] "a" eq_refl) as [_ Hcm].
  { apply (bool_decide_unpack _). vm_compute. exact I. }
  eexists. split; [exact Hcm|]. vm_compute. reflexivity.
Defined.

(** ** Graphs made by the interface *)

Section made_facts.
Context {num : Type}.
Implicit Types (g : Graph num).

Lemma Made_Built g : Made g → Built g.
Proof.
  induction 1 as [|node g g' _ IH Hadd|a b w meta g g' _ IH Hadd|g g' comps _ IH Ha].
  - apply Built_new.
  - by eapply Built_addNode.
  - by eapply Built_addEdge.
  - destruct (assignCommunities_spec g IH) as (g2 & comps2 & Ha2 & _ & _ & Hb & _).
    rewrite Ha in Ha2. by injection Ha2 as <- <-.
Qed.

Lemma Built_no_empty g : Built g → "" ∉ nodes g.
Proof.
  induction 1 as [|node g g' _ IH Hadd|a b w meta g g' _ IH Hadd|g data _ IH].
  - apply not_elem_of_nil.
  - destruct (addNode_Ok _ _ _ Hadd) as (id & Hid & _).
    rewrite (addNode_nodes _ _ _ _ Hadd Hid).
    intros [<-|?]%jsset_add_elem; [|done]. by apply nodeKey_nonempty in Hid.
  - destruct (addEdge_Ok_endpoints _ _ _ _ _ _ Hadd) as [Ha Hb].
    apply addEdge_Ok in Hadd as (-> & _).
    intros [<-|[<-|?]%jsset_add_elem]%jsset_add_elem; naive_solver.
  - done.
Qed.

Lemma jsset_add_present (x : string) (s : list string) : x ∈ s → jsset_add x s = s.
Proof. intros Hx. unfold jsset_add. apply jsset_has_true in Hx. by rewrite Hx. Qed.

Lemma jsset_add_twice (x : string) (s : list string) :
  jsset_add x (jsset_add x s) = jsset_add x s.
Proof. apply jsset_add_present, jsset_add_elem. by left. Qed.

Lemma assign_fold_keys (ics : list (nat * list string))
  (data : list (string * list (string * jsval num))) :
  (∀ i c x, (i, c) ∈ ics → x ∈ c → x ∈ jsmap_keys data) →
  jsmap_keys (fold_left (λ data ic, fold_left (assignOne (communityLabel ic.1)) ic.2 data)
                ics data) = jsmap_keys data.
Proof.
  revert data. induction ics as [|[i0 c0] ics IH]; intros data Hin; simpl; [done|].
  assert (jsmap_keys (fold_left (assignOne (communityLabel i0)) c0 data) = jsmap_keys data)
    as Hc0.
  { assert (∀ x, x ∈ c0 → x ∈ jsmap_keys data) as Hc0
      by (intros x Hx; apply (Hin i0 c0 x); [left | done]).
    clear -Hc0. revert data Hc0. induction c0 as [|x c0 IH]; intros data Hc0; simpl; [done|].
    assert (jsmap_keys (assignOne (communityLabel i0) data x) = jsmap_keys data) as Hx.
    { unfold assignOne. apply jsmap_keys_set_present. apply Hc0. left. }
    rewrite IH; [done|]. intros y Hy. rewrite Hx. apply Hc0. by right. }
  rewrite IH; [done|]. intros i c x Hic Hx. rewrite Hc0.
  apply (Hin i c x); [by right | done].
Qed.

Lemma addNode_keys node g g' :
  jsmap_keys (nodeData g) = nodes g → addNode node g = Ok g' →
  jsmap_keys (nodeData g') = nodes g'.
Proof.
  intros Hk Hadd. destruct (addNode_Ok _ _ _ Hadd) as (id & Hid & _ & Hdata).
  rewrite (addNode_nodes _ _ _ _ Hadd Hid), Hdata, jsmap_keys_set_add. by rewrite Hk.
Qed.

Lemma ensureNode_keys a g g1 :
  jsmap_keys (nodeData g) = nodes g → ensureNode a g = Ok g1 →
  jsmap_keys (nodeData g1) = nodes g1.
Proof.
  intros Hk. unfold ensureNode. destruct (jsmap_has a (adjacency g)).
  - by intros [= <-].
  - by apply addNode_keys.
Qed.

(** [nodeData] and [adjacency] list the same ids in the same order. *)
Lemma Made_keys g : Made g → jsmap_keys (nodeData g) = nodes g.
Proof.
  induction 1 as [|node g g' _ IH Hadd|a b w meta g g' _ IH Hadd|g g' comps Hm IH Ha].
  - done.
  - by eapply addNode_keys.
  - pose proof Hadd as Hadd'. unfold addEdge in Hadd.
    destruct (ensureNode a g) as [g1|] eqn:E1; simpl in Hadd; [|done].
    destruct (ensureNode b g1) as [g2|] eqn:E2; simpl in Hadd; [|done].
    destruct (adjSet a b w (adjacency g2)) as [adj1|]; simpl in Hadd; [|done].
    destruct (adjSet b a w adj1) as [adj2|]; simpl in Hadd; [|done].
    injection Hadd as <-.
    destruct (ensureNode_Ok _ _ _ E1) as (Hn1 & _).
    destruct (ensureNode_Ok _ _ _ E2) as (Hn2 & _).
    apply addEdge_Ok in Hadd' as (Hn & _). rewrite Hn.
    change (jsmap_keys (nodeData g2) = jsset_add b (jsset_add a (nodes g))).
    rewrite (ensureNode_keys b g1 g2 (ensureNode_keys a g g1 IH E1) E2).
    by rewrite Hn2, Hn1.
  - pose proof (Made_Built g Hm) as Hb.
    destruct (connectedComponents_facts g Hb) as (comps' & Hc & Hperm & _).
    unfold assignCommunities in Ha. rewrite Hc in Ha. simpl in Ha.
    injection Ha as <- <-. simpl. rewrite assign_fold_keys; [done|].
    intros i c x Hic%imap_pair_elem Hx. rewrite IH.
    eapply component_nodes; [done| |done]. by eapply list_elem_of_lookup_2.
Qed.

Lemma Made_has g x : Made g → jsmap_has x (nodeData g) = true ↔ x ∈ nodes g.
Proof. intros Hm. by rewrite jsmap_has_keys, (Made_keys g Hm). Qed.

Lemma Made_Extends g g' : Made g → Extends g g' → Built g'.
Proof. intros Hm Hext. eapply Extends_Built; [done|]. by apply Made_Built. Qed.

Lemma addNode_key (node : list (string * jsval num)) (id : string) g :
  nodeKey node = Ok id →
  ∃ g', addNode node g = Ok g' ∧
    nodes g' = jsset_add id (nodes g) ∧
    (∀ x, neighbors g' x = neighbors g x) ∧
    (∀ x y, weightOf g' x y = weightOf g x y) ∧
    (∀ x, jsmap_get x (nodeData g') =
          if decide (x = id) then Some (spread [("id", JStr id)] node)
          else jsmap_get x (nodeData g)).
Proof.
  intros Hid.
  assert (∃ g', addNode node g = Ok g') as [g' Hadd]
    by (unfold addNode; rewrite Hid; by eexists).
  exists g'. split; [done|]. split_and!.
  - by eapply addNode_nodes.
  - intros x. by eapply addNode_neighbors.
  - intros x y. by eapply addNode_weightOf.
  - intros x. destruct (addNode_Ok _ _ _ Hadd) as (id' & Hid' & _ & ->).
    assert (id' = id) as -> by congruence.
    rewrite jsmap_get_set. repeat case_decide; congruence.
Qed.

Lemma foldl_Throw {A : Type} (f : Graph num → A → result (Graph num)) (l : list A)
  (msg : string) :
  foldl (λ r a, g ← r; f g a) (Throw msg) l = Throw msg.
Proof. induction l as [|a l IH]; simpl; [done | exact IH]. Qed.

Lemma if_decide_or {A : Type} (P Q R : Prop) `{!Decision P, !Decision Q, !Decision R}
  (a b : A) :
  (R ↔ P ∨ Q) →
  (if decide P then a else if decide Q then a else b) = (if decide R then a else b).
Proof. intros HR. repeat case_decide; tauto. Qed.

End made_facts.

(** ** The loop that links a record to a list of ids

    [link] stands for the body shared by the loops of
    [addSongCreditsToGraph] and [addAlbumsToGraph]: a stub for an id without
    a record, then the edge from [src]. *)

Section link_facts.
Context `{JsNumber num}.
Variables (src : string) (stub meta : string → list (string * jsval num)).
Variable link : Graph num → string → result (Graph num).
Hypothesis link_eq : ∀ g id,
  link g id = (g1 ← (if jsmap_has id (nodeData g) then Ok g else addNode (stub id) g);
               addEdge src id one (meta id) g1).
Hypothesis stub_key : ∀ id, id ≠ "" → nodeKey (stub id) = Ok id.
Hypothesis stub_record : ∀ id, spread [("id", JStr id)] (stub id) = stub id.

Lemma link_empty g g' : Made g → link g "" ≠ Ok g'.
Proof.
  intros Hm Hl. rewrite link_eq in Hl.
  destruct (jsmap_has "" (nodeData g)) eqn:E.
  - apply Made_has in E; [|done]. by apply (Built_no_empty g (Made_Built g Hm)).
  - destruct (addNode (stub "") g) as [g1|] eqn:E1; simpl in Hl; [|done].
    destruct (addEdge_Ok_endpoints _ _ _ _ _ _ Hl) as [_ [Hin|Hne]]; [|done].
    apply (Built_no_empty g1); [|done]. eapply Built_addNode; [|done]. by apply Made_Built.
Qed.

Lemma link_spec g t :
  Made g → src ∈ nodes g → t ≠ "" →
  ∃ g', link g t = Ok g' ∧ Made g' ∧ Extends g g' ∧
    nodes g' = jsset_add t (nodes g) ∧
    (∀ x, neighbors g' x =
          (if decide (t = x) then jsset_add src else id)
            ((if decide (src = x) then jsset_add t else id) (neighbors g x))) ∧
    (∀ x y, weightOf g' x y =
            if decide ((x = src ∧ y = t) ∨ (x = t ∧ y = src)) then Some one
            else weightOf g x y) ∧
    (∀ x, jsmap_get x (nodeData g') =
          if decide (x = t ∧ t ∉ nodes g) then Some (stub t)
          else jsmap_get x (nodeData g)).
Proof.
  intros Hm Hsrc Hid. rewrite link_eq.
  destruct (jsmap_has t (nodeData g)) eqn:E.
  - apply Made_has in E; [|done]. cbn [mbind result_mbind result_bind].
    destruct (addEdge_succeeds src t one (meta t) g) as [g' Hadd]; [auto..|].
    exists g'. split; [done|]. split; [by eapply Made_addEdge|].
    split; [eapply Extends_addEdge; [apply Extends_refl | done]|].
    pose proof (λ x, addEdge_data _ _ _ _ _ _ x Hadd) as Hdata.
    apply addEdge_Ok in Hadd as (Hn & Hnb & Hw). split_and!.
    + by rewrite Hn, (jsset_add_present src).
    + done.
    + done.
    + intros x. rewrite Hdata. rewrite decide_False by naive_solver.
      by rewrite decide_False by naive_solver.
  - apply jsmap_has_false in E. rewrite (Made_keys g Hm) in E.
    destruct (addNode_key (stub t) t g (stub_key t Hid))
      as (g1 & Hadd1 & Hn1 & Hnb1 & Hw1 & Hd1).
    rewrite Hadd1. cbn [mbind result_mbind result_bind].
    assert (src ∈ nodes g1) as Hsrc1 by (rewrite Hn1; apply jsset_add_elem; by right).
    assert (t ∈ nodes g1) as Hid1 by (rewrite Hn1; apply jsset_add_elem; by left).
    destruct (addEdge_succeeds src t one (meta t) g1) as [g' Hadd]; [auto..|].
    exists g'. split; [done|].
    split; [eapply Made_addEdge; [eapply Made_addNode|]; done|].
    split; [eapply Extends_addEdge; [eapply Extends_addNode; [apply Extends_refl|]|]; done|].
    pose proof (λ x, addEdge_data _ _ _ _ _ _ x Hadd) as Hdata.
    apply addEdge_Ok in Hadd as (Hn & Hnb & Hw). split_and!.
    + by rewrite Hn, (jsset_add_present src), (jsset_add_present t).
    + intros x. by rewrite Hnb, Hnb1.
    + intros x y. by rewrite Hw, Hw1.
    + intros x. rewrite Hdata. rewrite decide_False by naive_solver.
      rewrite Hd1, stub_record. repeat case_decide; naive_solver.
Qed.

Lemma link_fold_spec (ids : list string) g :
  Made g → src ∈ nodes g → "" ∉ ids →
  ∃ g', foldl (λ r id, g' ← r; link g' id) (Ok g) ids = Ok g' ∧ Made g' ∧ Extends g g' ∧
    nodes g' = addAll ids (nodes g) ∧
    neighbors g' src = addAll ids (neighbors g src) ∧
    (∀ x y, y ∈ neighbors g' x ↔
            y ∈ neighbors g x ∨ (x = src ∧ y ∈ ids) ∨ (y = src ∧ x ∈ ids)) ∧
    (∀ x y, weightOf g' x y =
            if decide ((x = src ∧ y ∈ ids) ∨ (y = src ∧ x ∈ ids)) then Some one
            else weightOf g x y) ∧
    (∀ x, jsmap_get x (nodeData g') =
          if decide (x ∈ ids ∧ x ∉ nodes g) then Some (stub x)
          else jsmap_get x (nodeData g)).
Proof.
  revert g. induction ids as [|id ids IH]; intros g Hm Hsrc Hne.
  - exists g. split; [done|]. split; [done|]. split; [apply Extends_refl|].
    split_and!; [done..| | |].
    + intros x y. rewrite !elem_of_nil. naive_solver.
    + intros x y. rewrite decide_False; [done|]. rewrite !elem_of_nil. naive_solver.
    + intros x. rewrite decide_False; [done|]. rewrite elem_of_nil. naive_solver.
  - apply not_elem_of_cons in Hne as [Hid Hne].
    destruct (link_spec g id Hm Hsrc) as (g1 & Hl & Hm1 & He1 & Hn1 & Hnb1 & Hw1 & Hd1);
      [done|].
    assert (src ∈ nodes g1) as Hsrc1 by (rewrite Hn1; apply jsset_add_elem; by right).
    destruct (IH g1 Hm1 Hsrc1 Hne) as (g' & Hf & Hm' & He' & Hn' & Hs' & Hnb' & Hw' & Hd').
    exists g'.
    change (foldl (λ r id, g' ← r; link g' id) (Ok g) (id :: ids))
      with (foldl (λ r id, g' ← r; link g' id) (link g id) ids).
    rewrite Hl. split; [done|]. split; [done|]. split.
    { clear -He1 He'. induction He'; [done|..].
      - by eapply Extends_addNode.
      - by eapply Extends_addEdge.
      - by apply Extends_nodeData. }
    assert (∀ x y, y ∈ neighbors g1 x ↔
              y ∈ neighbors g x ∨ (x = src ∧ y = id) ∨ (x = id ∧ y = src)) as Hadj1.
    { intros x y. rewrite Hnb1. repeat case_decide; simpl; rewrite ?jsset_add_elem;
        naive_solver. }
    split_and!.
    + by rewrite Hn', Hn1.
    + rewrite Hs', Hnb1. rewrite (decide_True _ _ eq_refl).
      destruct (decide (id = src)) as [->|Hne']; [rewrite jsset_add_twice|]; reflexivity.
    + intros x y. rewrite Hnb', Hadj1, !elem_of_cons. naive_solver.
    + intros x y. rewrite Hw', Hw1. apply if_decide_or.
      rewrite !elem_of_cons. tauto.
    + intros x. rewrite Hd', Hd1, Hn1.
      destruct (decide (x = id ∧ id ∉ nodes g)) as [[-> Hn]|Hn].
      * rewrite decide_False by (rewrite jsset_add_elem; tauto).
        rewrite decide_True; [done|]. rewrite elem_of_cons. tauto.
      * apply decide_ext. rewrite jsset_add_elem, elem_of_cons.
        destruct (decide (x = id)) as [->|Hx]; tauto.
Qed.

Lemma link_fold_fail (ids : list string) g g' :
  Made g → src ∈ nodes g → "" ∈ ids →
  foldl (λ r id, g' ← r; link g' id) (Ok g) ids ≠ Ok g'.
Proof.
  revert g. induction ids as [|id ids IH]; intros g Hm Hsrc Hin.
  - by apply elem_of_nil in Hin.
  - change (foldl (λ r id, g' ← r; link g' id) (Ok g) (id :: ids))
      with (foldl (λ r id, g' ← r; link g' id) (link g id) ids).
    destruct (decide (id = "")) as [->|Hid].
    + destruct (link g "") as [g1|msg] eqn:El; [by apply link_empty in El|].
      by rewrite foldl_Throw.
    + destruct (link_spec g id Hm Hsrc Hid) as (g1 & Hl & Hm1 & _ & Hn1 & _).
      rewrite Hl. apply IH; [done| |].
      * rewrite Hn1. apply jsset_add_elem. by right.
      * apply elem_of_cons in Hin as [?|?]; [congruence | done].
Qed.

End link_facts.

(** ** [addSongCreditsToGraph] and [addAlbumsToGraph] *)

Section ingest_facts.
Context `{JsNumber num}.
Implicit Types (g : Graph num) (song : SongCredit num) (album : Album num).

Lemma artistStub_key (id : string) : id ≠ "" → nodeKey (artistStub (num:=num) id) = Ok id.
Proof. intros Hid. unfold nodeKey, artistStub. simpl. by rewrite decide_False. Qed.

Lemma songStub_key (id : string) : id ≠ "" → nodeKey (songStub (num:=num) id) = Ok id.
Proof. intros Hid. unfold nodeKey, songStub. simpl. by rewrite decide_False. Qed.

Lemma songNode_key song :
  nodeKey (songNode song) =
  if decide (songId song = "") then Throw "Node must have an id or name"
  else Ok (songId song).
Proof. reflexivity. Qed.

Lemma albumNode_key album :
  nodeKey (albumNode album) =
  if decide (albumId album = "") then Throw "Node must have an id or name"
  else Ok (albumId album).
Proof. reflexivity. Qed.

Lemma addSong_spec g song :
  Made g → songId song ≠ "" → "" ∉ allCreditedArtists song →
  ∃ g', addSong g song = Ok g' ∧ Made g' ∧ Extends g g' ∧
    nodes g' = addAll (allCreditedArtists song) (jsset_add (songId song) (nodes g)) ∧
    neighbors g' (songId song) =
      addAll (allCreditedArtists song) (neighbors g (songId song)) ∧
    (∀ x y, y ∈ neighbors g' x ↔
            y ∈ neighbors g x ∨ (x = songId song ∧ y ∈ allCreditedArtists song) ∨
            (y = songId song ∧ x ∈ allCreditedArtists song)) ∧
    (∀ x y, weightOf g' x y =
            if decide ((x = songId song ∧ y ∈ allCreditedArtists song) ∨
                       (y = songId song ∧ x ∈ allCreditedArtists song))
            then Some one else weightOf g x y) ∧
    (∀ x, jsmap_get x (nodeData g') =
          if decide (x = songId song) then Some (songNode song)
          else if decide (x ∈ allCreditedArtists song ∧ x ∉ nodes g)
               then Some (artistStub x)
               else jsmap_get x (nodeData g)).
Proof.
  intros Hm Hid Hne. unfold addSong.
  destruct (addNode_key (songNode song) (songId song) g)
    as (g1 & Hadd1 & Hn1 & Hnb1 & Hw1 & Hd1).
  { rewrite songNode_key. by rewrite decide_False. }
  rewrite Hadd1. cbn [mbind result_mbind result_bind].
  assert (Made g1) as Hm1 by (by eapply Made_addNode).
  assert (songId song ∈ nodes g1) as Hs1 by (rewrite Hn1; apply jsset_add_elem; by left).
  destruct (link_fold_spec (songId song) artistStub (creditMeta song) (creditArtist song)
              (λ _ _, eq_refl) artistStub_key (λ _, eq_refl)
              (allCreditedArtists song) g1 Hm1 Hs1 Hne)
    as (g' & Hf & Hm' & He' & Hn' & Hs' & Hnb' & Hw' & Hd').
  exists g'. split; [done|]. split; [done|]. split.
  { clear -Hadd1 He'. induction He'; [|by eapply Extends_addNode|by eapply Extends_addEdge|
                                      by apply Extends_nodeData].
    eapply Extends_addNode; [apply Extends_refl | done]. }
  split_and!.
  - by rewrite Hn', Hn1.
  - by rewrite Hs', Hnb1.
  - intros x y. by rewrite Hnb', Hnb1.
  - intros x y. by rewrite Hw', Hw1.
  - intros x. rewrite Hd', Hd1, Hn1.
    destruct (decide (x = songId song)) as [->|Hx].
    + rewrite decide_False; [done|]. rewrite jsset_add_elem. tauto.
    + apply decide_ext. rewrite jsset_add_elem. tauto.
Qed.

Lemma addSong_ok g song :
  Made g →
  (∃ g', addSong g song = Ok g') ↔ songId song ≠ "" ∧ "" ∉ allCreditedArtists song.
Proof.
  intros Hm. split.
  - intros [g' Hs]. unfold addSong in Hs.
    destruct (addNode (songNode song) g) as [g1|] eqn:E1;
      cbn [mbind result_mbind result_bind] in Hs; [|done].
    destruct (addNode_Ok _ _ _ E1) as (id & Hid & _).
    rewrite songNode_key in Hid. case_decide as Hne; [done|]. injection Hid as <-.
    split; [done|]. intros Hin.
    eapply (link_fold_fail (songId song) artistStub (creditMeta song) (creditArtist song)
              (λ _ _, eq_refl) artistStub_key (λ _, eq_refl)
              (allCreditedArtists song) g1 g'); [| |done|done].
    + by eapply Made_addNode.
    + rewrite (addNode_nodes _ _ _ (songId song) E1); [apply jsset_add_elem; by left|].
      rewrite songNode_key. by rewrite decide_False.
  - intros [Hid Hne]. destruct (addSong_spec g song Hm Hid Hne) as (g' & Hs & _). eauto.
Qed.

Lemma Extends_trans g1 g2 g3 : Extends g1 g2 → Extends g2 g3 → Extends g1 g3.
Proof.
  intros H12 H23. induction H23; [done|..].
  - by eapply Extends_addNode.
  - by eapply Extends_addEdge.
  - by apply Extends_nodeData.
Qed.

Lemma addAlbum_spec g album :
  Made g → albumId album ≠ "" →
  "" ∉ albumArtistIds album → "" ∉ default [] (albumSongIds album) →
  let artists := albumArtistIds album in
  let songs := default [] (albumSongIds album) in
  ∃ g', addAlbum g album = Ok g' ∧ Made g' ∧ Extends g g' ∧
    nodes g' = addAll songs (addAll artists (jsset_add (albumId album) (nodes g))) ∧
    neighbors g' (albumId album) =
      addAll songs (addAll artists (neighbors g (albumId album))) ∧
    (∀ x y, y ∈ neighbors g' x ↔
            y ∈ neighbors g x ∨ (x = albumId album ∧ (y ∈ artists ∨ y ∈ songs)) ∨
            (y = albumId album ∧ (x ∈ artists ∨ x ∈ songs))) ∧
    (∀ x y, weightOf g' x y =
            if decide ((x = albumId album ∧ (y ∈ artists ∨ y ∈ songs)) ∨
                       (y = albumId album ∧ (x ∈ artists ∨ x ∈ songs)))
            then Some one else weightOf g x y) ∧
    (∀ x, jsmap_get x (nodeData g') =
          if decide (x = albumId album) then Some (albumNode album)
          else if decide (x ∈ nodes g) then jsmap_get x (nodeData g)
          else if decide (x ∈ artists) then Some (artistStub x)
          else if decide (x ∈ songs) then Some (songStub x)
          else jsmap_get x (nodeData g)).
Proof.
  intros Hm Hid Hna Hns artists songs. subst artists songs. unfold addAlbum.
  destruct (addNode_key (albumNode album) (albumId album) g)
    as (g1 & Hadd1 & Hn1 & Hnb1 & Hw1 & Hd1).
  { rewrite albumNode_key. by rewrite decide_False. }
  rewrite Hadd1. cbn [mbind result_mbind result_bind].
  assert (Made g1) as Hm1 by (by eapply Made_addNode).
  assert (Extends g g1) as He1 by (eapply Extends_addNode; [apply Extends_refl | done]).
  assert (albumId album ∈ nodes g1) as Hs1 by (rewrite Hn1; apply jsset_add_elem; by left).
  destruct (link_fold_spec (albumId album) artistStub (releasedMeta album)
              (albumLink album artistStub releasedMeta)
              (λ _ _, eq_refl) artistStub_key (λ _, eq_refl)
              (albumArtistIds album) g1 Hm1 Hs1 Hna)
    as (g2 & Hf2 & Hm2 & He2 & Hn2 & Hs2 & Hnb2 & Hw2 & Hd2).
  rewrite Hf2. cbn [mbind result_mbind result_bind].
  assert (albumId album ∈ nodes g2) as Ha2.
  { rewrite Hn2. apply addAll_elem. by right. }
  destruct (link_fold_spec (albumId album) songStub (containsMeta album)
              (albumLink album songStub containsMeta)
              (λ _ _, eq_refl) songStub_key (λ _, eq_refl)
              (default [] (albumSongIds album)) g2 Hm2 Ha2 Hns)
    as (g3 & Hf3 & Hm3 & He3 & Hn3 & Hs3 & Hnb3 & Hw3 & Hd3).
  assert (match albumSongIds album with
          | Some songIds =>
              foldl (λ r songId, g' ← r; albumLink album songStub containsMeta g' songId)
                (Ok g2) songIds
          | None => Ok g2
          end = Ok g3) as ->.
  { by destruct (albumSongIds album). }
  exists g3. split; [done|]. split; [done|].
  split; [exact (Extends_trans _ _ _ (Extends_trans _ _ _ He1 He2) He3)|].
  split_and!.
  - by rewrite Hn3, Hn2, Hn1.
  - by rewrite Hs3, Hs2, Hnb1.
  - intros x y. rewrite Hnb3, Hnb2, Hnb1. tauto.
  - intros x y. rewrite Hw3, Hw2, Hw1. apply if_decide_or. tauto.
  - intros x. rewrite Hd3, Hd2, Hd1, Hn2, Hn1.
    destruct (decide (x = albumId album)) as [Hx|Hx];
      destruct (decide (x ∈ nodes g)) as [Hg|Hg];
      destruct (decide (x ∈ albumArtistIds album)) as [Ha|Ha];
      destruct (decide (x ∈ default [] (albumSongIds album))) as [Hs|Hs];
      repeat first
        [ rewrite decide_True by (rewrite ?addAll_elem, ?jsset_add_elem; tauto)
        | rewrite decide_False by (rewrite ?addAll_elem, ?jsset_add_elem; tauto) ];
      done.
Qed.

Lemma addAlbum_ok g album :
  Made g →
  (∃ g', addAlbum g album = Ok g') ↔
  albumId album ≠ "" ∧ ("" ∉ albumArtistIds album) ∧
  ("" ∉ default [] (albumSongIds album)).
Proof.
  intros Hm. split.
  - intros [g' Hs]. unfold addAlbum in Hs.
    destruct (addNode (albumNode album) g) as [g1|] eqn:E1;
      cbn [mbind result_mbind result_bind] in Hs; [|done].
    destruct (addNode_Ok _ _ _ E1) as (id & Hid & _).
    rewrite albumNode_key in Hid. case_decide as Hne; [done|]. injection Hid as <-.
    assert (Made g1) as Hm1 by (by eapply Made_addNode).
    assert (albumId album ∈ nodes g1) as Hs1.
    { rewrite (addNode_nodes _ _ _ (albumId album) E1); [apply jsset_add_elem; by left|].
      rewrite albumNode_key. by rewrite decide_False. }
    split; [done|].
    destruct (decide ("" ∈ albumArtistIds album)) as [Hin|Hna].
    { exfalso.
      destruct (foldl _ (Ok g1) (albumArtistIds album)) as [g2|] eqn:E2;
        cbn [mbind result_mbind result_bind] in Hs; [|done].
      by eapply (link_fold_fail (albumId album) artistStub (releasedMeta album)
                   (albumLink album artistStub releasedMeta)
                   (λ _ _, eq_refl) artistStub_key (λ _, eq_refl)
                   (albumArtistIds album) g1 g2). }
    split; [done|]. intros Hin.
    destruct (link_fold_spec (albumId album) artistStub (releasedMeta album)
                (albumLink album artistStub releasedMeta)
                (λ _ _, eq_refl) artistStub_key (λ _, eq_refl)
                (albumArtistIds album) g1 Hm1 Hs1 Hna)
      as (g2 & Hf2 & Hm2 & _ & Hn2 & _).
    rewrite Hf2 in Hs. cbn [mbind result_mbind result_bind] in Hs.
    destruct (albumSongIds album) as [songIds|]; [|by apply elem_of_nil in Hin].
    eapply (link_fold_fail (albumId album) songStub (containsMeta album)
              (albumLink album songStub containsMeta)
              (λ _ _, eq_refl) songStub_key (λ _, eq_refl) songIds g2 g');
      [done| |done|done].
    rewrite Hn2. apply addAll_elem. by right.
  - intros (Hid & Hna & Hns).
    destruct (addAlbum_spec g album Hm Hid Hna Hns) as (g' & Hs & _). eauto.
Qed.

End ingest_facts.

Section batch_facts.
Context `{JsNumber num}.
Implicit Types (g : Graph num).

Lemma connected_ext g g' (x y : string) :
  (∀ z, neighbors g' z = neighbors g z) → connected g' x y ↔ connected g x y.
Proof.
  intros Hn. rewrite !connected_walk. split; intros [w Hw]; exists w.
  - eapply walk_ext; [|done]. intros z. by rewrite Hn.
  - by eapply walk_ext.
Qed.

(** A loop over [items] whose body [step] completes exactly on the valid
    items and whose effect [post] later calls do not undo. *)
Lemma batch_fold {A : Type} (step : Graph num → A → result (Graph num))
  (valid : A → Prop) (post : A → Graph num → Prop) (items : list A) g :
  (∀ g a, Made g → (∃ g', step g a = Ok g') ↔ valid a) →
  (∀ g a g', Made g → step g a = Ok g' → Made g' ∧ Extends g g' ∧ post a g') →
  (∀ a g g', post a g → Extends g g' → post a g') →
  Made g →
  match foldl (λ r a, g' ← r; step g' a) (Ok g) items with
  | Ok g' => Made g' ∧ Extends g g' ∧ Forall valid items ∧ ∀ a, a ∈ items → post a g'
  | Throw _ => ¬ Forall valid items
  end.
Proof.
  intros Hok Hstep Hmono. revert g. induction items as [|a items IH]; intros g Hm.
  - simpl. split; [done|]. split; [apply Extends_refl|]. split; [done|].
    by intros a ?%elem_of_nil.
  - change (foldl (λ r a, g' ← r; step g' a) (Ok g) (a :: items))
      with (foldl (λ r a, g' ← r; step g' a) (step g a) items).
    destruct (step g a) as [g1|msg] eqn:E1.
    + destruct (Hstep g a g1 Hm E1) as (Hm1 & He1 & Hp1).
      specialize (IH g1 Hm1).
      destruct (foldl _ (Ok g1) items) as [g'|msg'].
      * destruct IH as (Hm' & He' & Hv & Hp). split; [done|].
        split; [by eapply Extends_trans|]. split.
        -- apply Forall_cons. split; [|done]. apply (Hok g a Hm). eauto.
        -- intros b [->|Hb]%elem_of_cons; [by eapply Hmono | auto].
      * intros [_ Hv]%Forall_cons. done.
    + rewrite foldl_Throw. intros [Hv _]%Forall_cons.
      apply (Hok g a Hm) in Hv as [g' Hg']. congruence.
Qed.

(** The closing [assignCommunities] of a batch. *)
Lemma batch_assign g1 :
  Made g1 →
  ∃ g' comps, assignCommunities g1 = Some (g', comps) ∧ Made g' ∧
    nodes g' = nodes g1 ∧ (∀ x, neighbors g' x = neighbors g1 x) ∧
    (∀ x y, weightOf g' x y = weightOf g1 x y) ∧
    (∀ x y, x ∈ nodes g' → y ∈ nodes g' →
            communityOf g' x = communityOf g' y ↔ connected g' x y).
Proof.
  intros Hm. pose proof (Made_Built g1 Hm) as Hb.
  destruct (assignCommunities_spec g1 Hb) as (g' & comps & Ha & _ & Hadj & _).
  exists g', comps. split; [done|]. split; [by eapply Made_assign|].
  assert (nodes g' = nodes g1) as Hn by (unfold nodes; by rewrite Hadj).
  assert (∀ x, neighbors g' x = neighbors g1 x) as Hnb
    by (intros x; unfold neighbors; by rewrite Hadj).
  split_and!; [done..| |].
  - intros x y. unfold weightOf. by rewrite Hadj.
  - intros x y Hx Hy. rewrite Hn in Hx, Hy. rewrite (connected_ext g1 g' x y Hnb).
    by eapply assigned_same_community.
Qed.

(** A batch: the loop, then [assignCommunities]. *)
Lemma batch_result {A : Type} (step : Graph num → A → result (Graph num))
  (valid : A → Prop) (post : A → Graph num → Prop) (items : list A) g :
  (∀ g a, Made g → (∃ g', step g a = Ok g') ↔ valid a) →
  (∀ g a g', Made g → step g a = Ok g' → Made g' ∧ Extends g g' ∧ post a g') →
  (∀ a g g', post a g → (∀ x, neighbors g x `prefix_of` neighbors g' x) → post a g') →
  Made g →
  ∃ r, match foldl (λ r a, g' ← r; step g' a) (Ok g) items with
       | Throw msg => Some (Throw msg)
       | Ok g' => (λ gc, Ok gc.1) <$> assignCommunities g'
       end = Some r ∧
    ((∃ g', r = Ok g') ↔ ∀ a, a ∈ items → valid a) ∧
    ∀ g', r = Ok g' →
      Made g' ∧ nodes g `prefix_of` nodes g' ∧
      (∀ x, neighbors g x `prefix_of` neighbors g' x) ∧
      (∀ a, a ∈ items → post a g') ∧
      (∀ x y, x ∈ nodes g' → y ∈ nodes g' →
              communityOf g' x = communityOf g' y ↔ connected g' x y).
Proof.
  intros Hok Hstep Hmono Hm.
  assert (∀ a g g', post a g → Extends g g' → post a g') as Hmono'.
  { intros a g0 g0' Hp Hext. eapply Hmono; [done|]. intros x. by apply Extends_neighbors. }
  pose proof (batch_fold step valid post items g Hok Hstep Hmono' Hm) as Hfold.
  destruct (foldl _ (Ok g) items) as [g1|msg].
  - destruct Hfold as (Hm1 & He1 & Hv & Hp).
    destruct (batch_assign g1 Hm1) as (g' & comps & Ha & Hm' & Hn & Hnb & _ & Hcomm).
    rewrite Ha. eexists. split; [reflexivity|]. split.
    + split; [intros _ | by eexists]. by apply Forall_forall.
    + intros g2 [= <-]. cbn [fst]. split; [done|]. split_and!.
      * rewrite Hn. by apply Extends_nodes.
      * intros x. rewrite Hnb. by apply Extends_neighbors.
      * intros a Ha'. eapply Hmono; [by apply Hp|]. intros x. by rewrite Hnb.
      * done.
  - eexists. split; [reflexivity|]. split; [|done]. split; [by intros [? ?]|].
    intros Hv. destruct Hfold. by apply Forall_forall.
Qed.

Lemma prefix_elem (l k : list string) (x : string) : l `prefix_of` k → x ∈ l → x ∈ k.
Proof. intros [m ->] Hx. apply elem_of_app. by left. Qed.

End batch_facts.

(** X22. On a graph made by [addNode], [addEdge] and [assignCommunities]
    the records and the adjacency list the same ids in the same order, so
    every node has a record; [Query.node(id)] is [null] exactly when [id]
    is not a node, and is the node object of [id] otherwise. *)
Theorem made_nodes_have_records `{JsNumber num} (g : Graph num) :
  Made g →
  jsmap_keys (nodeData g) = nodes g ∧
  (∀ id, queryNode g id = None ↔ id ∉ nodes g) ∧
  (∀ id, id ∈ nodes g →
         queryNode g id = Some (createNodeObject id g (degreeCentrality true g))).
Proof.
  intros Hm. pose proof (Made_keys g Hm) as Hk. split; [done|].
  assert (∀ id, is_Some (jsmap_get id (nodeData g)) ↔ id ∈ nodes g) as Hrec.
  { intros id. by rewrite jsmap_get_is_Some, Hk. }
  split.
  - intros id. unfold queryNode.
    destruct (jsmap_get id (nodeData g)) as [data|] eqn:Hd.
    + split; [done|]. intros Hn. exfalso. apply Hn, Hrec. rewrite Hd. by eexists.
    + split; [|done]. intros _ Hin. apply Hrec in Hin. rewrite Hd in Hin.
      by destruct Hin.
  - intros id [data Hd]%Hrec. unfold queryNode. by rewrite Hd.
Qed.

Lemma made_nodes_have_records_witness :
  Made Examples.labelled ∧ queryNode Examples.labelled "b" = None.
Proof.
  assert (Made Examples.labelled) as Hm.
  { apply (Made_assign Examples.single Examples.labelled [["a"]]);
      [|vm_compute; reflexivity].
    apply (Made_addNode [("id", JStr "a"); ("name", JStr "Taylor Swift")] newGraph);
      [apply Made_new | vm_compute; reflexivity]. }
  split; [exact Hm|].
  destruct (made_nodes_have_records Examples.labelled Hm) as (_ & Hnone & _).
  apply Hnone. apply (bool_decide_unpack _). vm_compute. exact I.
Defined.

(** X23. On a made graph the ingestion of a song or of an album completes
    exactly when none of its ids is empty: the id of the song and of each
    credited artist, the id of the album and of each of its artists and
    songs. Otherwise an [addNode] call throws. *)
Theorem ingest_completes_iff `{JsNumber num} (g : Graph num) (song : SongCredit num)
  (album : Album num) :
  Made g →
  ((∃ g', addSong g song = Ok g') ↔
   songId song ≠ "" ∧ "" ∉ allCreditedArtists song) ∧
  ((∃ g', addAlbum g album = Ok g') ↔
   albumId album ≠ "" ∧ ("" ∉ albumArtistIds album) ∧
   ("" ∉ default [] (albumSongIds album))).
Proof. intros Hm. split; [by apply addSong_ok | by apply addAlbum_ok]. Qed.

Lemma ingest_completes_iff_witness :
  ∃ g', addSong (num:=QArith_base.Q) newGraph Examples.song1 = Ok g'.
Proof.
  destruct (ingest_completes_iff newGraph Examples.song1
              {| albumId := "al"; albumTitle := "Album"; albumArtistIds := [];
                 albumYear := None; albumSongIds := None |} Made_new) as [[_ Hsong] _].
  apply Hsong. split; [discriminate|].
  apply (bool_decide_unpack _). vm_compute. exact I.
Defined.

(** X24. What the ingestion of one song adds to a made graph: the song id
    and the credited artists that were not nodes are appended to
    [nodes()], in this order; the song becomes adjacent to exactly the
    credited artists in addition to its earlier neighbors, with weight 1 in
    both directions, and no other adjacency or weight changes; the record
    of the song id is replaced by the song's, a credited artist that was
    not a node gets the stub [{ id, name: id, nodeType: 'artist' }], and
    every other record is left as it is. *)
Theorem addSong_adds `{JsNumber num} (g g' : Graph num) (song : SongCredit num) :
  Made g → addSong g song = Ok g' →
  Made g' ∧
  nodes g' = addAll (allCreditedArtists song) (jsset_add (songId song) (nodes g)) ∧
  neighbors g' (songId song) =
    addAll (allCreditedArtists song) (neighbors g (songId song)) ∧
  (∀ x y, y ∈ neighbors g' x ↔
          y ∈ neighbors g x ∨ (x = songId song ∧ y ∈ allCreditedArtists song) ∨
          (y = songId song ∧ x ∈ allCreditedArtists song)) ∧
  (∀ x y, weightOf g' x y =
          if decide ((x = songId song ∧ y ∈ allCreditedArtists song) ∨
                     (y = songId song ∧ x ∈ allCreditedArtists song))
          then Some one else weightOf g x y) ∧
  (∀ x, jsmap_get x (nodeData g') =
        if decide (x = songId song) then Some (songNode song)
        else if decide (x ∈ allCreditedArtists song ∧ x ∉ nodes g)
             then Some (artistStub x)
             else jsmap_get x (nodeData g)).
Proof.
  intros Hm Hs.
  assert (songId song ≠ "" ∧ "" ∉ allCreditedArtists song) as [Hid Hne]
    by (apply (addSong_ok g song Hm); eauto).
  destruct (addSong_spec g song Hm Hid Hne) as (g2 & Hs2 & Hrest).
  rewrite Hs in Hs2. injection Hs2 as <-.
  destruct Hrest as (Hm' & _ & Hrest). by split.
Qed.

Lemma addSong_adds_witness :
  ∃ g', addSong (num:=QArith_base.Q) newGraph Examples.song1 = Ok g' ∧
        nodes g' = ["s1"; "a1"; "a2"; "a3"] ∧ neighbors g' "s1" = ["a1"; "a2"; "a3"].
Proof.
  destruct (addSong (num:=QArith_base.Q) newGraph Examples.song1) as [g'|] eqn:Hs;
    [|vm_compute in Hs; discriminate].
  exists g'. split; [reflexivity|].
  destruct (addSong_adds newGraph g' Examples.song1 Made_new Hs) as (_ & Hn & Hnb & _).
  split; [etrans; [exact Hn|] | etrans; [exact Hnb|]]; vm_compute; reflexivity.
Defined.

(** X25. What the ingestion of one album adds to a made graph: the album
    id, then its artists, then its songs are appended to [nodes()] as far
    as they were not nodes; the album becomes adjacent to exactly its
    artists and songs in addition to its earlier neighbors, with weight 1
    in both directions, and no other adjacency or weight changes; the
    record of the album id is replaced by the album's, an artist or song
    that was not a node gets an artist stub or a song stub (an id that is
    both gets the artist stub), and every other record is left as it
    is. *)
Theorem addAlbum_adds `{JsNumber num} (g g' : Graph num) (album : Album num) :
  Made g → addAlbum g album = Ok g' →
  let artists := albumArtistIds album in
  let songs := default [] (albumSongIds album) in
  Made g' ∧
  nodes g' = addAll songs (addAll artists (jsset_add (albumId album) (nodes g))) ∧
  neighbors g' (albumId album) =
    addAll songs (addAll artists (neighbors g (albumId album))) ∧
  (∀ x y, y ∈ neighbors g' x ↔
          y ∈ neighbors g x ∨ (x = albumId album ∧ (y ∈ artists ∨ y ∈ songs)) ∨
          (y = albumId album ∧ (x ∈ artists ∨ x ∈ songs))) ∧
  (∀ x y, weightOf g' x y =
          if decide ((x = albumId album ∧ (y ∈ artists ∨ y ∈ songs)) ∨
                     (y = albumId album ∧ (x ∈ artists ∨ x ∈ songs)))
          then Some one else weightOf g x y) ∧
  (∀ x, jsmap_get x (nodeData g') =
        if decide (x = albumId album) then Some (albumNode album)
        else if decide (x ∈ nodes g) then jsmap_get x (nodeData g)
        else if decide (x ∈ artists) then Some (artistStub x)
        else if decide (x ∈ songs) then Some (songStub x)
        else jsmap_get x (nodeData g)).
Proof.
  intros Hm Hs artists songs.
  assert (albumId album ≠ "" ∧ ("" ∉ albumArtistIds album) ∧
          ("" ∉ default [] (albumSongIds album))) as (Hid & Hna & Hns)
    by (apply (addAlbum_ok g album Hm); eauto).
  destruct (addAlbum_spec g album Hm Hid Hna Hns) as (g2 & Hs2 & Hrest).
  rewrite Hs in Hs2. injection Hs2 as <-.
  destruct Hrest as (Hm' & _ & Hrest). by split.
Qed.

Lemma addAlbum_adds_witness :
  ∃ g', addAlbum (num:=QArith_base.Q) newGraph
          {| albumId := "al"; albumTitle := "Album"; albumArtistIds := ["a1"];
             albumYear := None; albumSongIds := Some ["s1"; "a1"] |} = Ok g' ∧
        nodes g' = ["al"; "a1"; "s1"] ∧
        jsmap_get "a1" (nodeData g') = Some (artistStub "a1").
Proof.
  set (album := {| albumId := "al"; albumTitle := "Album"; albumArtistIds := ["a1"];
                   albumYear := None; albumSongIds := Some ["s1"; "a1"] |}
                : Album QArith_base.Q).
  destruct (addAlbum newGraph album) as [g'|] eqn:Hs; [|vm_compute in Hs; discriminate].
  exists g'. split; [reflexivity|].
  destruct (addAlbum_adds newGraph g' album Made_new Hs) as (_ & Hn & _ & _ & _ & Hd).
  split; [etrans; [exact Hn|] | etrans; [exact (Hd "a1")|]]; vm_compute; reflexivity.
Defined.

(** X26. [addSongCreditsToGraph] on a made graph always returns; it
    completes exactly when no song has an empty id or an empty credited
    artist id. When it completes, the graph is a made graph that extends
    the one before (earlier nodes and neighbors keep their positions),
    every song is adjacent to each of its credited artists, and two nodes
    carry the same [communityId] exactly when a path joins them. *)
Theorem addSongCreditsToGraph_completes `{JsNumber num} (g : Graph num)
  (songs : list (SongCredit num)) :
  Made g →
  ∃ r, addSongCreditsToGraph g songs = Some r ∧
    ((∃ g', r = Ok g') ↔
     ∀ song, song ∈ songs → songId song ≠ "" ∧ "" ∉ allCreditedArtists song) ∧
    ∀ g', r = Ok g' →
      Made g' ∧ nodes g `prefix_of` nodes g' ∧
      (∀ x, neighbors g x `prefix_of` neighbors g' x) ∧
      (∀ song, song ∈ songs → ∀ a, a ∈ allCreditedArtists song →
                 a ∈ neighbors g' (songId song) ∧ songId song ∈ neighbors g' a) ∧
      (∀ x y, x ∈ nodes g' → y ∈ nodes g' →
              communityOf g' x = communityOf g' y ↔ connected g' x y).
Proof.
  intros Hm. unfold addSongCreditsToGraph.
  apply (batch_result addSong
    (λ song, songId song ≠ "" ∧ "" ∉ allCreditedArtists song)
    (λ song g', ∀ a, a ∈ allCreditedArtists song →
                     a ∈ neighbors g' (songId song) ∧ songId song ∈ neighbors g' a));
    [by apply addSong_ok| | |done].
  - intros g0 song g0' Hm0 Hs.
    destruct (addSong_ok g0 song Hm0) as [[Hid Hne] _]; [eauto|].
    destruct (addSong_spec g0 song Hm0 Hid Hne)
      as (g2 & Hs2 & Hm2 & He2 & _ & _ & Hnb & _).
    rewrite Hs in Hs2. injection Hs2 as <-. split; [done|]. split; [done|].
    intros a Ha. split; apply Hnb; auto.
  - intros song g0 g0' Hp Hpre a Ha. destruct (Hp a Ha) as [H1 H2].
    split; eapply prefix_elem; eauto.
Qed.

Lemma addSongCreditsToGraph_completes_witness :
  ∃ g', addSongCreditsToGraph (num:=QArith_base.Q) newGraph [Examples.song1] = Some (Ok g') ∧
        communityOf g' "a3" = Some (JStr "C1").
Proof.
  destruct (addSongCreditsToGraph_completes newGraph [Examples.song1] Made_new)
    as (r & Hr & _ & _).
  destruct r as [g'|msg]; [|vm_compute in Hr; discriminate].
  exists g'. split; [exact Hr|]. vm_compute in Hr. injection Hr as <-.
  vm_compute. reflexivity.
Defined.

(** X27. [addAlbumsToGraph] on a made graph always returns; it completes
    exactly when no album has an empty id, an empty artist id or an empty
    song id. When it completes, the graph is a made graph that extends the
    one before, every album is adjacent to each of its artists and songs,
    and two nodes carry the same [communityId] exactly when a path joins
    them. *)
Theorem addAlbumsToGraph_completes `{JsNumber num} (g : Graph num)
  (albums : list (Album num)) :
  Made g →
  ∃ r, addAlbumsToGraph g albums = Some r ∧
    ((∃ g', r = Ok g') ↔
     ∀ album, album ∈ albums →
       albumId album ≠ "" ∧ ("" ∉ albumArtistIds album) ∧
       ("" ∉ default [] (albumSongIds album))) ∧
    ∀ g', r = Ok g' →
      Made g' ∧ nodes g `prefix_of` nodes g' ∧
      (∀ x, neighbors g x `prefix_of` neighbors g' x) ∧
      (∀ album, album ∈ albums →
         ∀ a, a ∈ albumArtistIds album ∨ a ∈ default [] (albumSongIds album) →
              a ∈ neighbors g' (albumId album) ∧ albumId album ∈ neighbors g' a) ∧
      (∀ x y, x ∈ nodes g' → y ∈ nodes g' →
              communityOf g' x = communityOf g' y ↔ connected g' x y).
Proof.
  intros Hm. unfold addAlbumsToGraph.
  apply (batch_result addAlbum
    (λ album, albumId album ≠ "" ∧ ("" ∉ albumArtistIds album) ∧
              ("" ∉ default [] (albumSongIds album)))
    (λ album g', ∀ a, a ∈ albumArtistIds album ∨ a ∈ default [] (albumSongIds album) →
                      a ∈ neighbors g' (albumId album) ∧ albumId album ∈ neighbors g' a));
    [by apply addAlbum_ok| | |done].
  - intros g0 album g0' Hm0 Hs.
    destruct (addAlbum_ok g0 album Hm0) as [(Hid & Hna & Hns) _]; [eauto|].
    destruct (addAlbum_spec g0 album Hm0 Hid Hna Hns)
      as (g2 & Hs2 & Hm2 & He2 & _ & _ & Hnb & _).
    rewrite Hs in Hs2. injection Hs2 as <-. split; [done|]. split; [done|].
    intros a Ha. split; apply Hnb; auto.
  - intros album g0 g0' Hp Hpre a Ha. destruct (Hp a Ha) as [H1 H2].
    split; eapply prefix_elem; eauto.
Qed.

Lemma addAlbumsToGraph_completes_witness :
  ∃ g', addAlbumsToGraph (num:=QArith_base.Q) newGraph
          [{| albumId := "al"; albumTitle := "Album"; albumArtistIds := ["a1"];
              albumYear := None; albumSongIds := Some ["s1"] |}] = Some (Ok g') ∧
        neighbors g' "al" = ["a1"; "s1"].
Proof.
  set (albums := [{| albumId := "al"; albumTitle := "Album"; albumArtistIds := ["a1"];
                     albumYear := None; albumSongIds := Some ["s1"] |}]
                 : list (Album QArith_base.Q)).
  destruct (addAlbumsToGraph_completes newGraph albums Made_new) as (r & Hr & _ & _).
  destruct r as [g'|msg]; [|vm_compute in Hr; discriminate].
  exists g'. split; [exact Hr|]. vm_compute in Hr. injection Hr as <-.
  vm_compute. reflexivity.
Defined.

(** ** The relation label of a credit *)

Section label_facts.
Context `{JsNumber num}.



End label_facts.




(** ** The base loader *)

Section loader_facts.
Context `{JsNumber num}.
Implicit Types (g : Graph num) (n : list (string * jsval num)) (e : EdgeData num).

Lemma spread_get (a b : list (string * jsval num)) (k : string) :
  NoDup (jsmap_keys b) →
  jsmap_get k (spread a b) =
  match jsmap_get k b with Some v => Some v | None => jsmap_get k a end.
Proof.
  unfold spread. revert a. induction b as [|[k0 v0] b IH]; intros a Hnd; [done|].
  change (jsmap_keys ((k0, v0) :: b)) with (k0 :: jsmap_keys b) in Hnd.
  apply NoDup_cons in Hnd as [Hk0 Hnd]. cbn [fold_left fst snd].
  rewrite IH by done. cbn [jsmap_get]. destruct (decide (k0 = k)) as [->|Hne].
  - apply jsmap_get_None in Hk0. rewrite Hk0. apply jsmap_get_set_eq.
  - destruct (jsmap_get k b); [done|]. by apply jsmap_get_set_ne.
Qed.

Lemma nodeKey_artist n : nodeKey (spread n [("nodeType", JStr "artist")]) = nodeKey n.
Proof.
  unfold nodeKey, spread. cbn [fold_left fst snd].
  by rewrite !jsmap_get_set_ne by done.
Qed.

Lemma addArtist_ok g n : (∃ g', addArtist g n = Ok g') ↔ ∃ id, nodeKey n = Ok id.
Proof.
  unfold addArtist. split.
  - intros [g' (id & Hid & _)%addNode_Ok]. rewrite nodeKey_artist in Hid. eauto.
  - intros [id Hid]. unfold addNode. rewrite nodeKey_artist, Hid. by eexists.
Qed.

Lemma addArtist_step g n g' :
  Made g → addArtist g n = Ok g' →
  Made g' ∧ Extends g g' ∧ ∀ id, nodeKey n = Ok id → id ∈ nodes g'.
Proof.
  intros Hm Hadd. unfold addArtist in Hadd. split; [by eapply Made_addNode|].
  split; [eapply Extends_addNode; [apply Extends_refl | done]|].
  intros id Hid. rewrite <- nodeKey_artist in Hid.
  rewrite (addNode_nodes _ _ _ id Hadd Hid). apply jsset_add_elem. by left.
Qed.

Lemma addDataEdge_ok g e :
  Made g → (∃ g', addDataEdge g e = Ok g') ↔ edgeSource e ≠ "" ∧ edgeTarget e ≠ "".
Proof.
  intros Hm. pose proof (Built_no_empty g (Made_Built g Hm)) as Hne.
  unfold addDataEdge. split.
  - intros [g' [Ha Hb]%addEdge_Ok_endpoints]. split.
    + destruct Ha as [Ha|Ha]; [|done]. by intros Heq; rewrite Heq in Ha.
    + destruct Hb as [Hb|Hb]; [|done]. by intros Heq; rewrite Heq in Hb.
  - intros [Ha Hb]. apply addEdge_succeeds; auto.
Qed.

Lemma addDataEdge_step g e g' :
  Made g → addDataEdge g e = Ok g' →
  Made g' ∧ Extends g g' ∧
  (edgeTarget e ∈ neighbors g' (edgeSource e) ∧ edgeSource e ∈ neighbors g' (edgeTarget e)).
Proof.
  intros Hm Hadd. unfold addDataEdge in Hadd. split; [by eapply Made_addEdge|].
  split; [eapply Extends_addEdge; [apply Extends_refl | done]|].
  apply addEdge_Ok in Hadd as (_ & Hnb & _). rewrite !Hnb.
  rewrite !(decide_True _ _ eq_refl). split.
  - case_decide; simpl; rewrite ?jsset_add_elem; auto.
  - apply jsset_add_elem. by left.
Qed.

Lemma foldl_inv {A : Type} (step : Graph num → A → result (Graph num))
  (Inv : Graph num → Prop) (P : A → Prop) (items : list A) g g' :
  (∀ g a g', P a → Inv g → step g a = Ok g' → Inv g') →
  (∀ a, a ∈ items → P a) → Inv g →
  foldl (λ r a, g' ← r; step g' a) (Ok g) items = Ok g' → Inv g'.
Proof.
  intros Hstep. revert g. induction items as [|a items IH]; intros g HP Hinv.
  - by intros [= <-].
  - change (foldl (λ r a, g' ← r; step g' a) (Ok g) (a :: items))
      with (foldl (λ r a, g' ← r; step g' a) (step g a) items).
    destruct (step g a) as [g1|msg] eqn:E1; [|by rewrite foldl_Throw].
    apply IH; [intros b Hb; apply HP; by right|].
    eapply Hstep; [|done|done]. apply HP. left.
Qed.

Lemma artistOnly_addArtist g n g' :
  NoDup (jsmap_keys n) → artistOnly g → addArtist g n = Ok g' → artistOnly g'.
Proof.
  intros Hnd Hinv (id & Hid & _ & Hdata)%addNode_Ok x r. rewrite Hdata, jsmap_get_set.
  case_decide; [|by apply Hinv]. intros [= <-]. right.
  change (spread n [("nodeType", JStr "artist")])
    with (jsmap_set "nodeType" (JStr "artist") n).
  rewrite spread_get by (by apply jsmap_keys_set_NoDup).
  by rewrite jsmap_get_set_eq.
Qed.

Lemma artistOnly_addDataEdge g e g' :
  artistOnly g → addDataEdge g e = Ok g' → artistOnly g'.
Proof.
  intros Hinv Hadd x r. unfold addDataEdge in Hadd.
  rewrite (addEdge_data _ _ _ _ _ _ x Hadd). case_decide; [|by apply Hinv].
  intros [= <-]. by left.
Qed.

Lemma artistOnly_assign g g' (comps : list (list string)) :
  Built g → artistOnly g → assignCommunities g = Some (g', comps) → artistOnly g'.
Proof.
  intros Hb Hinv Ha x r.
  destruct (assignCommunities_spec g Hb) as (g2 & comps2 & Ha2 & Hc & _ & _ & Hin & Hout).
  rewrite Ha in Ha2. injection Ha2 as <- <-.
  destruct (connectedComponents_facts g Hb) as (comps' & Hc' & Hperm & _).
  rewrite Hc in Hc'. injection Hc' as <-.
  destruct (decide (x ∈ nodes g)) as [Hx|Hx].
  - rewrite <- Hperm in Hx.
    apply elem_of_concat in Hx as (c & Hxc & [i Hi]%list_elem_of_lookup).
    rewrite (Hin i c x Hi Hxc). intros [= <-].
    rewrite labelledRecord_get, decide_False by done.
    destruct (jsmap_get x (nodeData g)) as [r0|] eqn:Hr0; [by eapply Hinv | by left].
  - rewrite (Hout x Hx). apply Hinv.
Qed.

Lemma artistOnly_type g (id : string) (cen : list (string * num)) :
  artistOnly g → noNodeType (createNodeObject id g cen) = "ARTIST".
Proof.
  intros Hinv. cbn [noNodeType createNodeObject]. unfold dataOf.
  destruct (jsmap_get id (nodeData g)) as [r|] eqn:Hr; [|reflexivity].
  change (default (stubNode id) (Some r)) with r.
  destruct (Hinv id r Hr) as [-> | ->]; reflexivity.
Qed.

(** The two loops of the loader. *)
Lemma loadBase_spec (ns : list (list (string * jsval num))) (es : list (EdgeData num)) :
  match loadBase ns es with
  | Ok g =>
      Made g ∧
      ((∀ n, n ∈ ns → ∃ id, nodeKey n = Ok id) ∧
       (∀ e, e ∈ es → edgeSource e ≠ "" ∧ edgeTarget e ≠ "")) ∧
      (∀ n id, n ∈ ns → nodeKey n = Ok id → id ∈ nodes g) ∧
      (∀ e, e ∈ es → edgeTarget e ∈ neighbors g (edgeSource e) ∧
                     edgeSource e ∈ neighbors g (edgeTarget e)) ∧
      ((∀ n, n ∈ ns → NoDup (jsmap_keys n)) → artistOnly g)
  | Throw _ =>
      ¬ ((∀ n, n ∈ ns → ∃ id, nodeKey n = Ok id) ∧
         (∀ e, e ∈ es → edgeSource e ≠ "" ∧ edgeTarget e ≠ ""))
  end.
Proof.
  unfold loadBase.
  pose proof (batch_fold addArtist (λ n, ∃ id, nodeKey n = Ok id)
                (λ n g, ∀ id, nodeKey n = Ok id → id ∈ nodes g) ns newGraph) as H1.
  pose proof (foldl_inv addArtist artistOnly (λ n, NoDup (jsmap_keys n)) ns newGraph) as I1.
  destruct (foldl _ (Ok newGraph) ns) as [g1|msg]; cbn [mbind result_mbind result_bind].
  - destruct H1 as (Hm1 & He1 & Hv1 & Hp1); [by intros; apply addArtist_ok| | |apply Made_new|].
    { intros g n g' Hm Hadd. by apply addArtist_step. }
    { intros n g g' Hp Hext id Hid.
      eapply prefix_elem; [by apply Extends_nodes | by apply Hp]. }
    pose proof (batch_fold addDataEdge (λ e, edgeSource e ≠ "" ∧ edgeTarget e ≠ "")
                  (λ e g, edgeTarget e ∈ neighbors g (edgeSource e) ∧
                          edgeSource e ∈ neighbors g (edgeTarget e)) es g1) as H2.
    pose proof (foldl_inv addDataEdge artistOnly (λ _, True) es g1) as I2.
    destruct (foldl _ (Ok g1) es) as [g2|msg].
    + destruct H2 as (Hm2 & He2 & Hv2 & Hp2); [by apply addDataEdge_ok| | |done|].
      { intros g e g' Hm Hadd. by apply addDataEdge_step. }
      { intros e g g' [Hp Hp'] Hext.
        split; (eapply prefix_elem; [by apply Extends_neighbors | done]). }
      split; [done|]. split; [split; by apply Forall_forall|]. split_and!.
      * intros n id Hn Hid. eapply prefix_elem; [by apply Extends_nodes|]. by eapply Hp1.
      * done.
      * intros Hnd. apply (I2 g2); [|done| |done].
        -- intros g e g' _. apply artistOnly_addDataEdge.
        -- apply (I1 g1); [|done| |done].
           ++ intros g n g' Hn. by apply artistOnly_addArtist.
           ++ by intros x r.
    + intros [_ Hve]. destruct H2; [by apply addDataEdge_ok| | |done|by apply Forall_forall].
      * intros g e g' Hm Hadd. by apply addDataEdge_step.
      * intros e g g' [Hp Hp'] Hext.
        split; (eapply prefix_elem; [by apply Extends_neighbors | done]).
  - intros [Hvn _]. destruct H1; [by intros; apply addArtist_ok| | |apply Made_new|
                                  by apply Forall_forall].
    + intros g n g' Hm Hadd. by apply addArtist_step.
    + intros n g g' Hp Hext id Hid.
      eapply prefix_elem; [by apply Extends_nodes | by apply Hp].
Qed.

End loader_facts.

(** X28. [loadGraphFromJson], from the parsed document on, for a
    document whose node keys [id ?? name] are strings where present, as
    the type [GraphData] declares (a key of another type is outside
    [nodeKey]). The call always returns; it completes exactly when
    [id ?? name] of every node is a non-empty string and no edge has an
    empty endpoint. When it completes, the graph is a made graph that
    holds every node of the document and every edge in both directions,
    two nodes carry the same [communityId] exactly when a path joins
    them, and every node reads as an [ARTIST], whatever type the document
    gave it. *)
Theorem loadGraphFromJson_loads `{JsNumber num} (ns : list (list (string * jsval num)))
  (es : list (EdgeData num)) :
  (∀ n, n ∈ ns → NoDup (jsmap_keys n) ∧ stringKeyed n) →
  ∃ r, loadGraphFromJson ns es = Some r ∧
    ((∃ g, r = Ok g) ↔
     (∀ n, n ∈ ns →
        ∃ id, nullish (jsmap_get "id" n) (jsmap_get "name" n) = Some (JStr id) ∧ id ≠ "") ∧
     (∀ e, e ∈ es → edgeSource e ≠ "" ∧ edgeTarget e ≠ "")) ∧
    ∀ g, r = Ok g →
      Made g ∧
      (∀ n id, n ∈ ns →
         nullish (jsmap_get "id" n) (jsmap_get "name" n) = Some (JStr id) → id ∈ nodes g) ∧
      (∀ e, e ∈ es → edgeTarget e ∈ neighbors g (edgeSource e) ∧
                     edgeSource e ∈ neighbors g (edgeTarget e)) ∧
      (∀ id cen, noNodeType (createNodeObject id g cen) = "ARTIST") ∧
      (∀ x y, x ∈ nodes g → y ∈ nodes g →
              communityOf g x = communityOf g y ↔ connected g x y).
Proof.
  intros Hdoc.
  assert (∀ n, n ∈ ns → NoDup (jsmap_keys n)) as Hnd by (intros n Hn; by apply Hdoc).
  assert (∀ (n : list (string * jsval num)) id, nodeKey n = Ok id ↔
            nullish (jsmap_get "id" n) (jsmap_get "name" n) = Some (JStr id) ∧ id ≠ "")
    as Hkey.
  { intros n id. unfold nodeKey.
    destruct (nullish _ _) as [[| |[]|s| | |]|]; try (split; [done | by intros [? ?]]).
    destruct (decide (s = "")) as [->|Hs].
    - split; [done | by intros [[= <-] ?]].
    - split; [by intros [= <-] | by intros [[= <-] ?]]. }
  assert ((∀ n, n ∈ ns → ∃ id, nodeKey n = Ok id) ↔
          (∀ n, n ∈ ns →
             ∃ id, nullish (jsmap_get "id" n) (jsmap_get "name" n) = Some (JStr id) ∧ id ≠ ""))
    as Hkeys.
  { split; intros Hall n Hn; destruct (Hall n Hn) as [id Hid]; exists id; by apply Hkey. }
  unfold loadGraphFromJson. pose proof (loadBase_spec ns es) as Hbase.
  destruct (loadBase ns es) as [g1|msg].
  - destruct Hbase as (Hm1 & [Hv1 Hv2] & Hn1 & He1 & Hart).
    destruct (batch_assign g1 Hm1) as (g & comps & Ha & Hm & Hn & Hnb & _ & Hcomm).
    rewrite Ha. eexists. split; [reflexivity|].
    split; [split; [intros _; split; [by apply Hkeys | done] | by eexists]|].
    intros g' [= <-]. cbn [fst]. split; [done|]. split_and!.
    + intros n id Hin Hid. rewrite Hn. apply (Hn1 n id Hin).
      apply Hkey. split; [done|]. intros ->.
      destruct (Hv1 n Hin) as [id' [Hid' Hne]%Hkey]. rewrite Hid in Hid'.
      by injection Hid' as <-.
    + intros e He. rewrite !Hnb. by apply He1.
    + intros id cen. apply artistOnly_type.
      apply (artistOnly_assign g1 g comps); [by apply Made_Built | by apply Hart | done].
    + done.
  - eexists. split; [reflexivity|]. split; [|done].
    split; [by intros [? ?]|]. intros [Hall He]. destruct Hbase. split; [by apply Hkeys | done].
Qed.

Lemma loadGraphFromJson_loads_witness :
  ∃ g, loadGraphFromJson (num:=QArith_base.Q)
         [[("id", JStr "a"); ("name", JStr "A"); ("nodeType", JStr "band")]]
         [{| edgeSource := "a"; edgeTarget := "b"; edgeWeight := None |}] = Some (Ok g) ∧
       nodes g = ["a"; "b"] ∧
       noNodeType (createNodeObject "a" g []) = "ARTIST".
Proof.
  set (ns := [[("id", JStr "a"); ("name", JStr "A"); ("nodeType", JStr "band")]]
             : list (list (string * jsval QArith_base.Q))).
  set (es := [{| edgeSource := "a"; edgeTarget := "b"; edgeWeight := None |}]
             : list (EdgeData QArith_base.Q)).
  assert (∀ n, n ∈ ns → NoDup (jsmap_keys n) ∧ stringKeyed n) as Hdoc.
  { intros n ->%list_elem_of_singleton. split; [|exact I].
    apply (bool_decide_unpack _). vm_compute. exact I. }
  destruct (loadGraphFromJson_loads ns es Hdoc) as (r & Hr & _ & Hok).
  destruct r as [g|msg]; [|vm_compute in Hr; discriminate].
  exists g. split; [exact Hr|]. destruct (Hok g eq_refl) as (_ & _ & _ & Hart & _).
  split; [|apply Hart]. vm_compute in Hr. by injection Hr as <-.
Defined.

(** ** The client *)

(** *** [hashCode] *)

Lemma toInt32_range (z : Z) : (- 2 ^ 31 ≤ toInt32 z < 2 ^ 31)%Z.
Proof.
  unfold toInt32. pose proof (Z.mod_pos_bound (z + 2 ^ 31) (2 ^ 32)) as Hb. lia.
Qed.

Lemma toInt32_shift (z q : Z) : toInt32 (z + 2 ^ 32 * q) = toInt32 z.
Proof.
  unfold toInt32. f_equal.
  replace (z + 2 ^ 32 * q + 2 ^ 31)%Z with (z + 2 ^ 31 + q * 2 ^ 32)%Z by lia.
  apply Z_mod_plus_full.
Qed.

Lemma toInt32_quot (z : Z) : ∃ q, toInt32 z = (z + 2 ^ 32 * q)%Z.
Proof.
  exists (- ((z + 2 ^ 31) `div` 2 ^ 32))%Z. unfold toInt32.
  pose proof (Z_div_mod_eq_full (z + 2 ^ 31) (2 ^ 32)) as Hd. lia.
Qed.

Lemma hashLoop_poly (s : string) (h h' : Z) :
  h = toInt32 h' → hashLoop h s = toInt32 (polyLoop h' s).
Proof.
  revert h h'. induction s as [|c s IH]; intros h h' Hh; simpl; [done|].
  apply IH. subst h. rewrite Z.shiftl_mul_pow2 by lia.
  destruct (toInt32_quot h') as [q1 Hq1].
  destruct (toInt32_quot (toInt32 h' * 2 ^ 5)) as [q2 Hq2].
  rewrite Hq2, Hq1.
  replace ((h' + 2 ^ 32 * q1) * 2 ^ 5 + 2 ^ 32 * q2 - (h' + 2 ^ 32 * q1) + charCode c)%Z
    with (31 * h' + charCode c + 2 ^ 32 * (31 * q1 + q2))%Z by lia.
  apply toInt32_shift.
Qed.

(** X29. [hashCode(s)] is the polynomial hash
    [s[0] * 31^(n-1) + ... + s[n-1]] of the character codes, wrapped to a
    signed 32-bit integer; so [colorForCommunity] always returns one of the
    seven colors, also for the hash [-2^31], whose absolute value is not a
    32-bit integer. *)
Theorem hashCode_polynomial (s : string) :
  hashCode s = toInt32 (polyHash s) ∧
  (- 2 ^ 31 ≤ hashCode s < 2 ^ 31)%Z ∧
  ∃ c, colorForCommunity s = Some c ∧ c ∈ colors.
Proof.
  assert (hashCode s = toInt32 (polyHash s)) as Hh.
  { unfold hashCode, polyHash. by apply hashLoop_poly. }
  split; [done|]. split; [rewrite Hh; apply toInt32_range|].
  unfold colorForCommunity.
  assert (Z.to_nat (Z.abs (hashCode s) `mod` Z.of_nat (length colors)) < length colors)
    as Hlt.
  { pose proof (Z.mod_pos_bound (Z.abs (hashCode s)) (Z.of_nat (length colors))) as Hb.
    simpl in *. lia. }
  apply lookup_lt_is_Some in Hlt as [c Hc]. exists c. split; [done|].
  by eapply list_elem_of_lookup_2.
Qed.

(** *** [graphQLToGraph] *)

Lemma addAll_fresh (ids s : list string) : NoDup (s ++ ids) → addAll ids s = s ++ ids.
Proof.
  revert s. induction ids as [|id ids IH]; intros s Hnd; [by rewrite app_nil_r|].
  change (addAll (id :: ids) s) with (addAll ids (jsset_add id s)).
  assert (id ∉ s) as Hid.
  { apply NoDup_app in Hnd as (_ & Hdisj & _). intros Hin. apply (Hdisj id Hin). left. }
  rewrite jsset_add_fresh by done. rewrite IH; [by rewrite <- app_assoc|].
  by rewrite <- app_assoc.
Qed.

Lemma addEdge_present_data {num : Type} (g g' : Graph num) (a b : string) (w : num)
  (meta : list (string * jsval num)) :
  a ∈ nodes g → b ∈ nodes g → addEdge a b w meta g = Ok g' → nodeData g' = nodeData g.
Proof.
  intros Ha%nodes_has Hb%nodes_has. unfold addEdge, ensureNode. rewrite Ha. simpl.
  rewrite Hb. simpl.
  destruct (adjSet a b w (adjacency g)) as [adj1|]; simpl; [|done].
  destruct (adjSet b a w adj1) as [adj2|]; simpl; [|done]. by intros [= <-].
Qed.

Section client_facts.
Context `{JsNumber num, JsTruthy num}.
Implicit Types (g : Graph num).

Lemma clientNode_key (node : NodeObject num) :
  noId node ≠ "" → nodeKey (clientNode node) = Ok (noId node).
Proof. intros Hid. unfold nodeKey, clientNode. simpl. by rewrite decide_False. Qed.

Lemma addNodes_spec (f : string → NodeObject num) (ids : list string) g0 :
  (∀ id, noId (f id) = id) → "" ∉ ids → Made g0 →
  ∃ g1, foldl (λ r node, g ← r; addNode (clientNode node) g) (Ok g0) (f <$> ids) = Ok g1 ∧
    Made g1 ∧ nodes g1 = addAll ids (nodes g0) ∧
    (∀ x, neighbors g1 x = neighbors g0 x) ∧
    (∀ x y, weightOf g1 x y = weightOf g0 x y).
Proof.
  intros Hf. revert g0. induction ids as [|id ids IH]; intros g0 Hne Hm.
  - exists g0. by split_and!.
  - apply not_elem_of_cons in Hne as [Hid Hne].
    destruct (addNode_key (clientNode (f id)) id g0) as (g' & Hadd & Hn & Hnb & Hw & _).
    { rewrite <- (Hf id) at 2. apply clientNode_key. by rewrite Hf. }
    destruct (IH g' Hne) as (g1 & Hfold & Hm1 & Hn1 & Hnb1 & Hw1);
      [by eapply Made_addNode|].
    exists g1. csimpl. rewrite Hadd. split; [exact Hfold|]. split; [done|]. split_and!.
    + by rewrite Hn1, Hn.
    + intros x. by rewrite Hnb1, Hnb.
    + intros x y. by rewrite Hw1, Hw.
Qed.

Lemma addEdges_spec (ps : list (string * string)) g1 :
  Made g1 → (∀ a b, (a, b) ∈ ps → a ∈ nodes g1 ∧ b ∈ nodes g1) →
  ∃ g2, foldl (λ r edge, g ← r;
                 addEdge (eoSource edge) (eoTarget edge) one (clientMeta edge) g)
          (Ok g1)
          ((λ e, {| eoSource := e.1; eoTarget := e.2; eoRelation := "connected" |})
             <$> ps) = Ok g2 ∧
    Made g2 ∧ nodes g2 = nodes g1 ∧
    (∀ x y, y ∈ neighbors g2 x ↔ y ∈ neighbors g1 x ∨ (x, y) ∈ ps ∨ (y, x) ∈ ps) ∧
    (∀ x y, weightOf g2 x y =
            if decide ((x, y) ∈ ps ∨ (y, x) ∈ ps) then Some one else weightOf g1 x y).
Proof.
  revert g1. induction ps as [|[a b] ps IH]; intros g1 Hm Hin.
  - exists g1. split; [done|]. split; [done|]. split; [done|]. split.
    + intros x y. rewrite !elem_of_nil. tauto.
    + intros x y. rewrite decide_False; [done|]. rewrite !elem_of_nil. tauto.
  - destruct (Hin a b) as [Ha Hb]; [left|].
    destruct (addEdge_succeeds a b one
                (clientMeta {| eoSource := a; eoTarget := b; eoRelation := "connected" |})
                g1) as [g' Hadd]; [auto..|].
    pose proof Hadd as (Hn & Hnb & Hw)%addEdge_Ok.
    assert (nodes g' = nodes g1) as Hn'.
    { rewrite Hn. rewrite (jsset_add_present a) by done. by apply jsset_add_present. }
    destruct (IH g') as (g2 & Hfold & Hm2 & Hn2 & Hnb2 & Hw2).
    { by eapply Made_addEdge. }
    { intros a' b' Hab. rewrite Hn'. apply Hin. by right. }
    exists g2. csimpl. rewrite Hadd. split; [exact Hfold|]. split; [done|]. split_and!.
    + by rewrite Hn2.
    + intros x y. rewrite Hnb2, Hnb, !elem_of_cons.
      assert ((x, y) = (a, b) ↔ x = a ∧ y = b) as -> by (split; [by intros [= -> ->] | by intros [-> ->]]).
      assert ((y, x) = (a, b) ↔ y = a ∧ x = b) as -> by (split; [by intros [= -> ->] | by intros [-> ->]]).
      clear IH Hin Hfold Hnb2 Hw2 Hnb Hw Hadd.
      repeat case_decide; simpl; rewrite ?jsset_add_elem; naive_solver.
    + intros x y. rewrite Hw2, Hw. apply if_decide_or.
      rewrite !elem_of_cons. clear. naive_solver.
Qed.

End client_facts.

(** X30. The graph that [graphQLToGraph] rebuilds from the response of
    [Query.graph] without a type filter, for a built graph: the rebuild
    completes and has the nodes of the served graph in the same order;
    every adjacency of the rebuilt graph is an adjacency of the served one,
    with weight 1; and when no id contains the character [|] the two
    graphs have the same adjacent pairs, so the same pairs of nodes are
    joined by a path. *)
Theorem graphQLToGraph_rebuilds `{JsNumber num, JsTruthy num} (g : Graph num) :
  Built g →
  ∃ r g2, queryGraph g None = Some r ∧ graphQLToGraph r = Ok g2 ∧
    Made g2 ∧ nodes g2 = nodes g ∧
    (∀ a b, b ∈ neighbors g2 a → b ∈ neighbors g a ∧ weightOf g2 a b = Some one) ∧
    ((∀ x, x ∈ nodes g → noBar x) →
     (∀ a b, b ∈ neighbors g2 a ↔ b ∈ neighbors g a) ∧
     (∀ x y, connected g2 x y ↔ connected g x y)).
Proof.
  intros Hb. pose proof (Built_wellFormed _ Hb) as Hwf.
  destruct (connectedComponents_facts g Hb) as (comps & Hc & _).
  destruct (addNodes_spec (λ id, createNodeObject id g (degreeCentrality true g))
              (nodes g) newGraph) as (g1 & Hf1 & Hm1 & Hn1 & Hnb1 & Hw1);
    [done | by apply Built_no_empty | apply Made_new |].
  assert (nodes g1 = nodes g) as Hn1'.
  { rewrite Hn1. apply (addAll_fresh (nodes g) []). apply Hwf. }
  destruct (addEdges_spec (edges g) g1 Hm1) as (g2 & Hf2 & Hm2 & Hn2 & Hnb2 & Hw2).
  { intros a b Hab. rewrite Hn1'. by apply edges_nodes. }
  eexists _, g2. split; [by apply (queryGraph_all g comps)|].
  unfold graphQLToGraph. cbn [goNodes goEdges]. rewrite Hf1.
  cbn [mbind result_mbind result_bind].
  split; [exact Hf2|]. split; [done|]. split; [by rewrite Hn2|].
  destruct (edges_at_most_once g Hwf) as (_ & Hadj & _).
  assert (∀ a b, b ∈ neighbors g2 a ↔ (a, b) ∈ edges g ∨ (b, a) ∈ edges g) as Hiff.
  { intros a b. rewrite Hnb2, Hnb1.
    change (neighbors newGraph a) with (@nil string). rewrite elem_of_nil. tauto. }
  assert (∀ a b, b ∈ neighbors g2 a → b ∈ neighbors g a) as Hsub.
  { intros a b [Hab|Hba]%Hiff; [auto|]. apply neighbors_sym; auto. }
  split.
  - intros a b Hab. split; [auto|]. rewrite Hw2. apply Hiff in Hab.
    by rewrite decide_True.
  - intros Hbar.
    assert (∀ a b, b ∈ neighbors g2 a ↔ b ∈ neighbors g a) as Hsame.
    { intros a b. split; [auto|]. intros Hab. apply Hiff. by apply edges_exactly_once. }
    split; [done|]. intros x y. rewrite !connected_walk.
    split; intros [w Hw]; exists w; (eapply walk_mono; [|done]); intros ???; by apply Hsame.
Qed.

Lemma graphQLToGraph_rebuilds_witness :
  Built Examples.pathABCD ∧
  ∃ r g2, queryGraph Examples.pathABCD None = Some r ∧ graphQLToGraph r = Ok g2 ∧
          nodes g2 = ["A"; "B"; "C"; "D"].
Proof.
  assert (Built Examples.pathABCD) as Hb.
  { apply (build_Built [("A", "B"); ("B", "C"); ("C", "D")] newGraph); [apply Built_new|].
    vm_compute. reflexivity. }
  split; [exact Hb|].
  destruct (graphQLToGraph_rebuilds Examples.pathABCD Hb) as (r & g2 & Hr & Hg & _ & Hn & _).
  exists r, g2. split; [exact Hr|]. split; [exact Hg|]. etrans; [exact Hn|].
  vm_compute. reflexivity.
Defined.
